(** * provider/common/bootstrap.go: address racing and verified connect

    A shallow embedding of [Bootstrap], [FinishBootstrap], [connectSSH],
    [hostChecker.loop], [parallelHostChecker] and [waitSSH], and the
    properties of the bootstrap specification proved about them.

    Go values are modelled as follows.
    - [string] is a byte string; [error] is an inductive with the one
      distinguished value the code compares against ([parallel.ErrStopped])
      and a constructor for every other error, carrying its text.  A nil
      error is [None].
    - [map[network.Address]chan struct{}] is a [gmap] from addresses to
      channel identifiers; the channels themselves live in a store, so that
      the channel held by a probe and the one held by the coordinator are the
      same object.
    - goroutines and [select] are a labelled step function: the label says
      which case of which [select] fired. *)

From Stdlib Require Import Ascii.
From stdpp Require Import gmap strings list fin_maps pretty.

Set Warnings "-clear-no-such-hyp".

(** ** Go errors *)

Inductive error :=
  | ErrStopped              (* parallel.ErrStopped, compared by identity *)
  | Err (text : string).    (* any other error value *)

#[global] Instance error_eq_dec : EqDecision error.
Proof. solve_decision. Defined.

(** [err.Error()].  The text of [parallel.ErrStopped] is the library's; no
    property below depends on it. *)
Definition Error (e : error) : string :=
  match e with
  | ErrStopped => "try was stopped"
  | Err text => text
  end.

(** [fmt.Errorf(format, args...)] once the format has been expanded. *)
Definition Errorf (text : string) : error := Err text.

(** [%v] of an error value that may be nil is not needed: every [%v] in the
    embedded code is applied to a non-nil error. *)

(** ** Strings *)

Definition tab : string := String "009"%char EmptyString.
Definition nl : string := String "010"%char EmptyString.
Definition dq : string := String "034"%char EmptyString.
Definition sq : string := String "039"%char EmptyString.

(** [strings.Contains(s, sub)] as a proposition. *)
Definition Contains (s sub : string) : Prop :=
  ∃ pre post, s = pre +:+ sub +:+ post.

(** ASCII white space, the characters [strings.TrimSpace] removes from
    ASCII text. *)
Definition isSpace (c : ascii) : bool :=
  match c with
  | "009"%char | "010"%char | "011"%char | "012"%char | "013"%char
  | " "%char => true
  | _ => false
  end.

Fixpoint TrimLeftSpace (s : string) : string :=
  match s with
  | String c s' => if isSpace c then TrimLeftSpace s' else s
  | EmptyString => EmptyString
  end.

Definition TrimSpaceASCII (s : string) : string :=
  String.rev (TrimLeftSpace (String.rev (TrimLeftSpace s))).

(** ** The remote session capability (utils/ssh)

    [client.Command(host, command, nil)], [cmd.Stdin = stdin],
    [cmd.CombinedOutput()]: one remote run, returning the combined output
    and the transport error (nil when the command exits zero). *)

Class Client (C : Type) := {
  CombinedOutput : C → string → list string → string → string * option error
}.

Section ConnectSSH.
Context {C : Type} `{Client C}.

(** [strings.TrimSpace] of the Go library. *)
Variable TrimSpace : string → string.

(** [connectSSH] (bootstrap.go:278-286). *)
Definition connectSSH (client : C) (host checkHostScript : string)
  : option error :=
  let '(output, err) :=
    CombinedOutput client ("ubuntu@" +:+ host) ["/bin/bash"] checkHostScript in
  match err with
  | Some _ =>
      if bool_decide (0 < String.length output)
      then Some (Errorf (TrimSpace output))
      else err
  | None => err
  end.

End ConnectSSH.

(** A scripted client: every run returns the same output and error. *)
Record constClient := { cc_output : string; cc_err : option error }.

#[global] Instance constClient_Client : Client constClient :=
  {| CombinedOutput c _ _ _ := (cc_output c, cc_err c) |}.

(** A client that answers with what it was asked to run. *)
Record echoClient := { ec_err : option error }.

#[global] Instance echoClient_Client : Client echoClient :=
  {| CombinedOutput c host command stdin :=
       (host +:+ " " +:+ String.concat " " command +:+ " " +:+ stdin, ec_err c) |}.

(** ** Addresses and durations *)

(** Modelled from the spec: the scope of a [network.Address] (package
    network is not among the sources): public, private or cloud-local. *)
Inductive Scope := ScopePublic | ScopePrivate | ScopeCloudLocal.

(** Modelled from the spec: [network.Address] (package network is not among
    the sources): a string value and a scope, comparable, used as a map
    key. *)
Record Address := { Value : string; AddressScope : Scope }.

#[global] Instance Scope_eq_dec : EqDecision Scope.
Proof. solve_decision. Defined.

#[global] Instance Scope_countable : Countable Scope.
Proof.
  refine (inj_countable'
    (λ s, match s with ScopePublic => 0 | ScopePrivate => 1 | ScopeCloudLocal => 2 end)
    (λ n, match n with 0 => ScopePublic | 1 => ScopePrivate | _ => ScopeCloudLocal end)
    _).
  by intros [].
Defined.

#[global] Instance Address_eq_dec : EqDecision Address.
Proof. solve_decision. Defined.

#[global] Instance Address_countable : Countable Address.
Proof.
  refine (inj_countable'
    (λ a, (Value a, AddressScope a))
    (λ p, {| Value := p.1; AddressScope := p.2 |}) _).
  by intros [].
Defined.

(** [time.Duration], in nanoseconds. *)
Definition Duration := Z.

(** [time.Duration.String], what [%v] prints for a duration (Go library). *)
Class DurationString := Duration_String : Duration → string.

(** [config.SSHTimeoutOpts] *)
Record SSHTimeoutOpts := {
  Timeout : Duration;
  RetryDelay : Duration;
  AddressesDelay : Duration
}.

(** A channel of type [chan struct{}] that is only ever closed: an index
    into the store of channels; the store holds [true] once the channel is
    closed. *)
Definition chan := nat.

(** Panics of the Go runtime. *)
Inductive outcome (A : Type) :=
  | Ok (a : A)
  | Panic (msg : string).
Arguments Ok {A} a.
Arguments Panic {A} msg.

(** [close(ch)] *)
Definition close (heap : list bool) (ch : chan) : outcome (list bool) :=
  match heap !! ch with
  | Some false => Ok (<[ch := true]> heap)
  | Some true => Panic "close of closed channel"
  | None => Panic "close of nil channel"
  end.

(** ** hostChecker (bootstrap.go:168-219) *)

Module hostChecker.

(** The struct.  Its [client] is the environment that answers the attempts
    and its [wg] is the coordinator's counter; neither is a field here. *)
Record t := {
  addr : Address;
  checkDelay : Duration;
  checkHostScript : string;
  closed : chan
}.

(** [Close] implements [io.Closer]. *)
Definition Close (hc : t) : option error := None.

(** What a run of [loop] does that others can see. *)
Inductive action :=
  | Attempt (host script : string)   (* go func() { done <- connectSSH(...) }() *)
  | Sleep (d : Duration).            (* <-time.After(hc.checkDelay) fired *)

(** Where the goroutine running [loop] is. *)
Inductive pc :=
  | InAttempt                      (* first select, an attempt in flight *)
  | InDelay                        (* second select *)
  | Returned (err : option error). (* return hc, err *)

Record goroutine := {
  self : t;
  lastErr : option error;
  at_ : pc;
  did : list action
}.

(** The case of a [select] that fires. *)
Inductive recv :=
  | Closed                     (* case <-hc.closed *)
  | Dying                      (* case <-dying *)
  | Done (err : option error)  (* case lastErr = <-done *)
  | After.                     (* case <-time.After(hc.checkDelay) *)

Definition attempt (hc : t) : action :=
  Attempt (Value (addr hc)) (checkHostScript hc).

(** Entering [loop]: the first iteration starts an attempt and waits in
    the first select. *)
Definition start (hc : t) : goroutine :=
  {| self := hc; lastErr := None; at_ := InAttempt; did := [attempt hc] |}.

Definition ret (g : goroutine) (err : option error) : goroutine :=
  {| self := self g; lastErr := lastErr g; at_ := Returned err; did := did g |}.

(** The next iteration of the [for]: a new attempt, then the first select. *)
Definition again (g : goroutine) (slept : list action) : goroutine :=
  {| self := self g; lastErr := lastErr g; at_ := InAttempt;
     did := did g ++ slept ++ [attempt (self g)] |}.

(** One [select] of [loop].  [closedReady] and [dyingReady] say whether
    [hc.closed] and [dying] are closed; a case that cannot fire gives
    [None]. *)
Definition loop (closedReady dyingReady : bool) (g : goroutine) (r : recv)
  : option goroutine :=
  match at_ g, r with
  | InAttempt, Closed => if closedReady then Some (ret g (lastErr g)) else None
  | InAttempt, Dying => if dyingReady then Some (ret g (lastErr g)) else None
  | InAttempt, Done None =>
      Some {| self := self g; lastErr := None; at_ := Returned None; did := did g |}
  | InAttempt, Done (Some e) =>
      Some {| self := self g; lastErr := Some e; at_ := InDelay; did := did g |}
  | InDelay, Closed => if closedReady then Some (again g []) else None
  | InDelay, Dying => if dyingReady then Some (again g []) else None
  | InDelay, After => Some (again g [Sleep (checkDelay (self g))])
  | _, _ => None
  end.

(** What happens to one probe: it takes a case of the [select] it waits in,
    or one of its two signals is closed by somebody else. *)
Inductive happening :=
  | Take (r : recv)
  | CloseSignal     (* close(hc.closed) *)
  | KillSignal.     (* dying is closed *)

(** A probe with the state of its two signals. *)
Definition probe : Type := goroutine * bool * bool.

Definition happen (s : probe) (h : happening) : option probe :=
  let '(g, closedReady, dyingReady) := s in
  match h with
  | Take r =>
      match loop closedReady dyingReady g r with
      | Some g' => Some (g', closedReady, dyingReady)
      | None => None
      end
  | CloseSignal => Some (g, true, dyingReady)
  | KillSignal => Some (g, closedReady, true)
  end.

(** A run of one probe on its own: what happens, in order. *)
Fixpoint run (s : probe) (hs : list happening) : option probe :=
  match hs with
  | [] => Some s
  | h :: hs' =>
      match happen s h with
      | Some s' => run s' hs'
      | None => None
      end
  end.

(** A probe that has just been started, its signals open. *)
Definition fresh (hc : t) : probe := (start hc, false, false).

(** The result of the last attempt a run has seen complete; [last] when it
    has seen none. *)
Fixpoint observed (last : option error) (hs : list happening) : option error :=
  match hs with
  | [] => last
  | Take (Done e) :: hs' => observed e hs'
  | _ :: hs' => observed last hs'
  end.

(** Attempts that fail with the errors [es], each followed by the full
    delay. *)
Definition failures (es : list error) : list happening :=
  es ≫= λ e, [Take (Done (Some e)); Take After].

(** What a probe does once one of its signals is closed, when the [select]
    goes to that signal whenever it can: from the first [select] it returns;
    from the second it starts the next iteration and returns from there. *)
Definition cancel (r : recv) (g : goroutine) : list happening :=
  match at_ g with
  | InDelay => [Take r; Take r]
  | _ => [Take r]
  end.

Definition is_signal (h : happening) : bool :=
  match h with Take _ => false | _ => true end.

Definition is_sleep (a : action) : bool :=
  match a with Sleep _ => true | Attempt _ _ => false end.

Definition returned (g : goroutine) : bool :=
  match at_ g with Returned _ => true | _ => false end.

End hostChecker.

(** ** parallel.Try *)

Module Try.

(** Modelled from the spec: the race primitive [parallel.Try] of
    github.com/juju/utils/parallel, which is not among the sources.  The
    first function to report success becomes the result; functions that fail
    leave their error, the last one reported being kept; [Close] stops
    further admissions; the Try is dead once a result is available, once it
    was killed, or once it was closed and every function has returned;
    [Wait] gives nil after a success, else the last error, else
    [ErrStopped]; the functions are told to stop by [Kill], not by a
    success.  The functions it runs are the [hostChecker.loop]s handed to
    [Start]; a function's return and its report to the Try are one step. *)
Record t := {
  procs : list hostChecker.goroutine;
  closed : bool;
  killed : bool;
  result : option hostChecker.t;
  err : option error
}.

(** [parallel.NewTry(0, nil)] *)
Definition NewTry : t :=
  {| procs := []; closed := false; killed := false; result := None; err := None |}.

Definition Dead (tr : t) : bool :=
  bool_decide (is_Some (result tr)) || killed tr
  || (closed tr && forallb hostChecker.returned (procs tr)).

(** The tomb's [Dying] channel, handed to every function as [dying]. *)
Definition Dying (tr : t) : bool := killed tr.

Definition with_procs (tr : t) (ps : list hostChecker.goroutine) : t :=
  {| procs := ps; closed := closed tr; killed := killed tr;
     result := result tr; err := err tr |}.

(** [Start(hc.loop)]; the caller drops the error a refusal returns. *)
Definition Start (tr : t) (hc : hostChecker.t) : t :=
  if closed tr || Dead tr then tr
  else with_procs tr (procs tr ++ [hostChecker.start hc]).

Definition Close (tr : t) : t :=
  {| procs := procs tr; closed := true; killed := killed tr;
     result := result tr; err := err tr |}.

Definition Kill (tr : t) : t :=
  {| procs := procs tr; closed := closed tr; killed := true;
     result := result tr; err := err tr |}.

(** A function returned [(hc, e)]. *)
Definition report (tr : t) (hc : hostChecker.t) (e : option error) : t :=
  if Dead tr then tr
  else match e with
       | None =>
           {| procs := procs tr; closed := closed tr; killed := killed tr;
              result := Some hc; err := err tr |}
       | Some e' =>
           {| procs := procs tr; closed := closed tr; killed := killed tr;
              result := result tr; err := Some e' |}
       end.

(** [Wait()], once the Try is dead. *)
Definition Wait (tr : t) : option error :=
  match result tr with
  | Some _ => None
  | None => match err tr with
            | Some e => Some e
            | None => Some ErrStopped
            end
  end.

(** [Result()], once the Try is dead. *)
Definition Result (tr : t) : option hostChecker.t * option error :=
  (result tr, Wait tr).

End Try.

(** ** parallelHostChecker (bootstrap.go:221-274) *)

Module parallelHostChecker.

(** The struct, with the store [heap] of the channels it made.  [stderr] is
    what has been written to the [io.Writer] so far, one entry per write. *)
Record t := {
  Try : Try.t;
  stderr : list string;
  wg : nat;
  active : gmap Address chan;
  checkDelay : Duration;
  checkHostScript : string;
  heap : list bool
}.

Definition notice (addr : Address) : string :=
  "Attempting to connect to " +:+ Value addr +:+ ":22" +:+ nl.

(** The [hostChecker] the loop body builds for [addr] when the fresh channel
    is [closed]. *)
Definition checker_for (p : t) (addr : Address) (closed : chan) : hostChecker.t :=
  {| hostChecker.addr := addr;
     hostChecker.checkDelay := checkDelay p;
     hostChecker.checkHostScript := checkHostScript p;
     hostChecker.closed := closed |}.

(** The body of the [for] of [UpdateAddresses] for one address. *)
Definition UpdateAddress (p : t) (addr : Address) : t :=
  match active p !! addr with
  | Some _ => p                               (* continue *)
  | None =>
      let closed := length (heap p) in        (* make(chan struct{}) *)
      let hc := checker_for p addr closed in
      {| Try := Try.Start (Try p) hc;
         stderr := stderr p ++ [notice addr];
         wg := S (wg p);
         active := <[addr := closed]> (active p);
         checkDelay := checkDelay p;
         checkHostScript := checkHostScript p;
         heap := heap p ++ [false] |}
  end.

Definition UpdateAddresses (p : t) (addrs : list Address) : t :=
  foldl UpdateAddress p addrs.

(** The addresses of [addrs] that [UpdateAddresses] finds untracked, each
    once, in the order it meets them; [seen] are the tracked ones. *)
Fixpoint untracked (seen : gset Address) (addrs : list Address) : list Address :=
  match addrs with
  | [] => []
  | a :: addrs' =>
      if decide (a ∈ seen) then untracked seen addrs'
      else a :: untracked ({[a]} ∪ seen) addrs'
  end.

(** The probes built for the untracked addresses [new]: the [i]th gets the
    [i]th channel made. *)
Definition checkers_for (p : t) (new : list Address) : list hostChecker.t :=
  imap (λ i a, checker_for p a (length (heap p) + i)) new.

Definition with_Try (p : t) (tr : Try.t) : t :=
  {| Try := tr; stderr := stderr p; wg := wg p; active := active p;
     checkDelay := checkDelay p; checkHostScript := checkHostScript p;
     heap := heap p |}.

Definition with_heap (p : t) (h : list bool) : t :=
  {| Try := Try p; stderr := stderr p; wg := wg p; active := active p;
     checkDelay := checkDelay p; checkHostScript := checkHostScript p;
     heap := h |}.

(** [for _, ch := range chs { close(ch) }] *)
Fixpoint close_all (h : list bool) (chs : list chan) : outcome (list bool) :=
  match chs with
  | [] => Ok h
  | ch :: chs' =>
      match close h ch with
      | Ok h' => close_all h' chs'
      | Panic msg => Panic msg
      end
  end.

(** [Close].  The [range] over the map visits the entries in the order of
    [map_to_list]; Go leaves the order open, and the outcome does not depend
    on it (see [close_all_Permutation]). *)
Definition Close (p : t) : outcome (t * option error) :=
  let p1 := with_Try p (Try.Close (Try p)) in
  match close_all (heap p1) (map_to_list (active p1)).*2 with
  | Ok h => Ok (with_heap p1 h, None)
  | Panic msg => Panic msg
  end.

(** Every tracked signal is open and no two addresses share one: what
    [UpdateAddresses] maintains as long as nothing is closed. *)
Definition signals_open (p : t) : Prop :=
  (∀ a c, active p !! a = Some c → heap p !! c = Some false)
  ∧ (∀ a b c, active p !! a = Some c → active p !! b = Some c → a = b).

(** [Kill], promoted from the embedded [*parallel.Try]. *)
Definition Kill (p : t) : t := with_Try p (Try.Kill (Try p)).

(** The goroutine of the [i]th started probe takes the case [r] of the
    [select] it is waiting in.  When its [loop] returns, the deferred
    [hc.wg.Done()] runs and the Try receives what it returned. *)
Definition probe (p : t) (i : nat) (r : hostChecker.recv) : option t :=
  g ← Try.procs (Try p) !! i;
  g' ← hostChecker.loop
         (bool_decide (heap p !! hostChecker.closed (hostChecker.self g) = Some true))
         (Try.Dying (Try p)) g r;
  let procs' := <[i := g']> (Try.procs (Try p)) in
  match hostChecker.at_ g' with
  | hostChecker.Returned e =>
      let tr := Try.report (Try p) (hostChecker.self g') e in
      Some {| Try := Try.with_procs tr procs';
              stderr := stderr p; wg := pred (wg p); active := active p;
              checkDelay := checkDelay p; checkHostScript := checkHostScript p;
              heap := heap p |}
  | _ => Some (with_Try p (Try.with_procs (Try p) procs'))
  end.

End parallelHostChecker.

(** ** waitSSH (bootstrap.go:297-353) *)

(** The [addresser] interface; an implementation is a state and what the two
    calls answer and leave behind. *)
Class addresser (I : Type) := {
  Refresh : I → option error * I;
  Addresses : I → (list Address * option error) * I
}.

Module waitSSH.

(** Where the function is. *)
Inductive pc :=
  | Select                                (* in the select of the for *)
  | InWait                                (* in checker.Wait() of the timeout case *)
  | Exit (addr : string) (err : option error)
                                          (* return addr, err; checker.Kill() has
                                             run and checker.wg.Wait() is joining *)
  | Panicked (msg : string).

Record state (I : Type) := {
  checker : parallelHostChecker.t;
  inst : I;
  at_ : pc
}.
Arguments checker {I} s.
Arguments inst {I} s.
Arguments at_ {I} s.

(** What happens next: a case of the [select] of [waitSSH] fires, the
    [checker.Wait()] of the timeout case returns, or a probe goroutine takes
    a case of its own [select]. *)
Inductive event :=
  | PollAddresses                           (* case <-pollAddresses.C *)
  | GlobalTimeout                           (* case <-globalTimeout *)
  | Interrupted                             (* case <-interrupted *)
  | Dead                                    (* case <-checker.Dead() *)
  | Drained                                 (* lastErr := checker.Wait() *)
  | Probe (i : nat) (r : hostChecker.recv).

Section WaitSSH.
Context {I : Type} `{addresser I} `{DurationString}.
Variable timeout : SSHTimeoutOpts.

(** The state after the declarations and [fmt.Fprintln(ctx.GetStderr(),
    "Waiting for address")]; [out] is what [ctx.GetStderr()] holds on
    entry. *)
Definition init (out : list string) (checkHostScript : string) (i : I) : state I :=
  {| checker :=
       {| parallelHostChecker.Try := Try.NewTry;
          parallelHostChecker.stderr := out ++ ["Waiting for address" +:+ nl];
          parallelHostChecker.wg := 0;
          parallelHostChecker.active := ∅;
          parallelHostChecker.checkDelay := RetryDelay timeout;
          parallelHostChecker.checkHostScript := checkHostScript;
          parallelHostChecker.heap := [] |};
     inst := i;
     at_ := Select |}.

(** A [return]: the deferred [checker.Kill()] runs. *)
Definition leave (s : state I) (i : I) (addr : string) (err : option error) : state I :=
  {| checker := parallelHostChecker.Kill (checker s); inst := i; at_ := Exit addr err |}.

(** The error of the timeout case (lines 331-342). *)
Definition timeoutError (p : parallelHostChecker.t) (lastErr : option error) : error :=
  let format := "waited for " +:+ Duration_String (Timeout timeout) +:+ " " in
  let format :=
    if bool_decide (size (parallelHostChecker.active p) = 0)
    then format +:+ "without getting any addresses"
    else format +:+ "without being able to connect" in
  match lastErr with
  | Some e =>
      if bool_decide (e ≠ ErrStopped)
      then Errorf (format +:+ ": " +:+ Error e)
      else Errorf format
  | None => Errorf format
  end.

Definition step (s : state I) (ev : event) : option (state I) :=
  match ev, at_ s with
  | PollAddresses, Select =>
      let '(err, i1) := Refresh (inst s) in
      match err with
      | Some e => Some (leave s i1 "" (Some (Errorf ("refreshing addresses: " +:+ Error e))))
      | None =>
          let '((addresses, err), i2) := Addresses i1 in
          match err with
          | Some e => Some (leave s i2 "" (Some (Errorf ("getting addresses: " +:+ Error e))))
          | None =>
              Some {| checker := parallelHostChecker.UpdateAddresses (checker s) addresses;
                      inst := i2; at_ := Select |}
          end
      end
  | GlobalTimeout, Select =>
      match parallelHostChecker.Close (checker s) with
      | Ok (p, _) => Some {| checker := p; inst := inst s; at_ := InWait |}
      | Panic msg => Some {| checker := checker s; inst := inst s; at_ := Panicked msg |}
      end
  | Drained, InWait =>
      if Try.Dead (parallelHostChecker.Try (checker s))
      then
        let lastErr := Try.Wait (parallelHostChecker.Try (checker s)) in
        Some (leave s (inst s) "" (Some (timeoutError (checker s) lastErr)))
      else None
  | Interrupted, Select => Some (leave s (inst s) "" (Some (Errorf "interrupted")))
  | Dead, Select =>
      if Try.Dead (parallelHostChecker.Try (checker s))
      then
        match Try.Result (parallelHostChecker.Try (checker s)) with
        | (_, Some err) => Some (leave s (inst s) "" (Some err))
        | (Some hc, None) => Some (leave s (inst s) (Value (hostChecker.addr hc)) None)
        | (None, None) =>
            Some {| checker := checker s; inst := inst s;
                    at_ := Panicked "interface conversion: interface is nil" |}
        end
      else None
  | Probe i r, _ =>
      p ← parallelHostChecker.probe (checker s) i r;
      Some {| checker := p; inst := inst s; at_ := at_ s |}
  | _, _ => None
  end.

(** [step] as a relation, one rule for each way out of each case. *)
Inductive Step (s : state I) : event → state I → Prop :=
  | Step_refresh_fails e i1 :
      at_ s = Select → Refresh (inst s) = (Some e, i1) →
      Step s PollAddresses
        (leave s i1 "" (Some (Errorf ("refreshing addresses: " +:+ Error e))))
  | Step_addresses_fails i1 addresses e i2 :
      at_ s = Select → Refresh (inst s) = (None, i1) →
      Addresses i1 = ((addresses, Some e), i2) →
      Step s PollAddresses
        (leave s i2 "" (Some (Errorf ("getting addresses: " +:+ Error e))))
  | Step_poll i1 addresses i2 :
      at_ s = Select → Refresh (inst s) = (None, i1) →
      Addresses i1 = ((addresses, None), i2) →
      Step s PollAddresses
        {| checker := parallelHostChecker.UpdateAddresses (checker s) addresses;
           inst := i2; at_ := Select |}
  | Step_timeout p e :
      at_ s = Select → parallelHostChecker.Close (checker s) = Ok (p, e) →
      Step s GlobalTimeout {| checker := p; inst := inst s; at_ := InWait |}
  | Step_timeout_panic msg :
      at_ s = Select → parallelHostChecker.Close (checker s) = Panic msg →
      Step s GlobalTimeout
        {| checker := checker s; inst := inst s; at_ := Panicked msg |}
  | Step_drained :
      at_ s = InWait → Try.Dead (parallelHostChecker.Try (checker s)) = true →
      Step s Drained
        (leave s (inst s) ""
           (Some (timeoutError (checker s)
                    (Try.Wait (parallelHostChecker.Try (checker s))))))
  | Step_interrupted :
      at_ s = Select →
      Step s Interrupted (leave s (inst s) "" (Some (Errorf "interrupted")))
  | Step_dead_error r e :
      at_ s = Select → Try.Dead (parallelHostChecker.Try (checker s)) = true →
      Try.Result (parallelHostChecker.Try (checker s)) = (r, Some e) →
      Step s Dead (leave s (inst s) "" (Some e))
  | Step_dead_result hc :
      at_ s = Select → Try.Dead (parallelHostChecker.Try (checker s)) = true →
      Try.Result (parallelHostChecker.Try (checker s)) = (Some hc, None) →
      Step s Dead (leave s (inst s) (Value (hostChecker.addr hc)) None)
  | Step_dead_nil :
      at_ s = Select → Try.Dead (parallelHostChecker.Try (checker s)) = true →
      Try.Result (parallelHostChecker.Try (checker s)) = (None, None) →
      Step s Dead
        {| checker := checker s; inst := inst s;
           at_ := Panicked "interface conversion: interface is nil" |}
  | Step_probe i r p :
      parallelHostChecker.probe (checker s) i r = Some p →
      Step s (Probe i r) {| checker := p; inst := inst s; at_ := at_ s |}.

(** A run: the events in the order they happen.  [None] when one of them
    cannot happen in the state it meets. *)
Fixpoint run (s : state I) (evs : list event) : option (state I) :=
  match evs with
  | [] => Some s
  | ev :: evs' =>
      match step s ev with
      | Some s' => run s' evs'
      | None => None
      end
  end.

(** The addresses an event hands to [checker.UpdateAddresses]: those of a
    poll in which both calls succeed. *)
Definition offers (s : state I) (ev : event) : list Address :=
  match ev, at_ s with
  | PollAddresses, Select =>
      let '(err, i1) := Refresh (inst s) in
      match err with
      | Some _ => []
      | None =>
          let '((addresses, err), _) := Addresses i1 in
          match err with
          | Some _ => []
          | None => addresses
          end
      end
  | _, _ => []
  end.

(** All the addresses handed to [checker.UpdateAddresses] in a run. *)
Fixpoint offered (s : state I) (evs : list event) : list Address :=
  match evs with
  | [] => []
  | ev :: evs' =>
      offers s ev ++
      match step s ev with
      | Some s' => offered s' evs'
      | None => []
      end
  end.

(** Verification: [passes a] says whether an attempt on [a] can succeed.  An
    event is allowed when it is not the success of an attempt on an address
    that does not pass. *)
Definition allowed (passes : Address → bool) (s : state I) (ev : event) : bool :=
  match ev with
  | Probe i (hostChecker.Done None) =>
      match Try.procs (parallelHostChecker.Try (checker s)) !! i with
      | Some g => passes (hostChecker.addr (hostChecker.self g))
      | None => true
      end
  | _ => true
  end.

Fixpoint respects (passes : Address → bool) (s : state I) (evs : list event) : bool :=
  match evs with
  | [] => true
  | ev :: evs' =>
      allowed passes s ev &&
      match step s ev with
      | Some s' => respects passes s' evs'
      | None => true
      end
  end.

(** What holds of the coordinator while [waitSSH] is in its [select], when
    only attempts on addresses that pass succeed: nothing is closed or
    killed, every signal is open, a result is the probe of an address that
    passes, and as long as there is no result every tracked address has a
    probe that is still running. *)
Definition racing (passes : Address → bool) (p : parallelHostChecker.t) : Prop :=
  Try.closed (parallelHostChecker.Try p) = false
  ∧ Try.killed (parallelHostChecker.Try p) = false
  ∧ parallelHostChecker.signals_open p
  ∧ (∀ c b, parallelHostChecker.heap p !! c = Some b → b = false)
  ∧ (∀ i g, Try.procs (parallelHostChecker.Try p) !! i = Some g →
            hostChecker.addr (hostChecker.self g) ∈ dom (parallelHostChecker.active p))
  ∧ (∀ hc, Try.result (parallelHostChecker.Try p) = Some hc →
           passes (hostChecker.addr hc) = true
           ∧ hostChecker.addr hc ∈ dom (parallelHostChecker.active p))
  ∧ (Try.result (parallelHostChecker.Try p) = None →
     ∀ a, a ∈ dom (parallelHostChecker.active p) →
          ∃ i g, Try.procs (parallelHostChecker.Try p) !! i = Some g
                 ∧ hostChecker.addr (hostChecker.self g) = a
                 ∧ hostChecker.returned g = false).

(** What holds of [waitSSH] along such a run. *)
Definition good (passes : Address → bool) (s : state I) : Prop :=
  match at_ s with
  | Select => racing passes (checker s)
  | Exit v None =>
      ∃ a, passes a = true ∧ a ∈ dom (parallelHostChecker.active (checker s))
           ∧ v = Value a
  | Panicked _ => False
  | _ => True
  end.

End WaitSSH.

End waitSSH.

(** An addresser that answers from a script and keeps a record of the calls
    made to it: one script entry per poll, the answer of [Refresh] and the
    answer of [Addresses]; once the script is used up, no addresses and no
    error. *)
Inductive call := CallRefresh | CallAddresses.

Record scripted := {
  script : list (option error * (list Address * option error));
  calls : list call
}.

#[global] Instance scripted_addresser : addresser scripted := {|
  Refresh i :=
    (match script i with (e, _) :: _ => e | [] => None end,
     {| script := script i; calls := calls i ++ [CallRefresh] |});
  Addresses i :=
    (match script i with (_, a) :: _ => a | [] => ([], None) end,
     {| script := tail (script i); calls := calls i ++ [CallAddresses] |})
|}.

(** ** The nonce check of FinishBootstrap (bootstrap.go:100-112) *)

Fixpoint quote_sq (s : string) : string :=
  match s with
  | EmptyString => EmptyString
  | String c s' =>
      if Ascii.eqb c "039"
      then sq +:+ dq +:+ sq +:+ dq +:+ sq +:+ quote_sq s'
      else String c (quote_sq s')
  end.

(** [utils.ShQuote] (github.com/juju/utils): the string between single
    quotes, every single quote of it written as quote, double-quoted quote,
    quote. *)
Definition ShQuote (s : string) : string := sq +:+ quote_sq s +:+ sq.

(** The text [fmt.Sprintf] builds from the template; [nonceFile] and [nonce]
    are the two [%s] arguments. *)
Definition checkNonceCommand (nonceFile nonce : string) : string :=
  nl +:+
  tab +:+ "noncefile=" +:+ nonceFile +:+ nl +:+
  tab +:+ "if [ ! -e " +:+ dq +:+ "$noncefile" +:+ dq +:+ " ]; then" +:+ nl +:+
  tab +:+ tab +:+ "echo " +:+ dq +:+ "$noncefile does not exist" +:+ dq +:+ " >&2" +:+ nl +:+
  tab +:+ tab +:+ "exit 1" +:+ nl +:+
  tab +:+ "fi" +:+ nl +:+
  tab +:+ "content=$(cat $noncefile)" +:+ nl +:+
  tab +:+ "if [ " +:+ dq +:+ "$content" +:+ dq +:+ " != " +:+ nonce +:+ " ]; then" +:+ nl +:+
  tab +:+ tab +:+ "echo " +:+ dq +:+ "$noncefile contents do not match machine nonce" +:+ dq +:+ " >&2" +:+ nl +:+
  tab +:+ tab +:+ "exit 1" +:+ nl +:+
  tab +:+ "fi" +:+ nl +:+
  tab.

(** The script [FinishBootstrap] hands to [waitSSH]; [nonceFilePath] is
    [path.Join(machineConfig.DataDir, cloudinit.NonceFile)]. *)
Definition FinishBootstrap_script (nonceFilePath MachineNonce : string) : string :=
  checkNonceCommand (ShQuote nonceFilePath) (ShQuote MachineNonce).

(** The machine the script runs on, as far as the script looks at it. *)
Record machine := {
  test_e : string → bool;                      (* [ -e path ] *)
  cat : list string → string * string * nat    (* cat path...: what it prints on
                                                 stdout and on stderr, and its
                                                 exit status *)
}.

(** *** The shell

    [connectSSH] has the script run by [/bin/bash] on the machine, which
    reads it from its standard input (bootstrap.go:279-280).  [sh] reads the
    part of the shell language the script is written in, after the Bash
    manual: words with single and double quotes, [$name] and [$(command)],
    the splitting of unquoted expansions into fields, assignments,
    [if ...; then ... fi], the redirection to standard error, the builtins
    [test], [exit] and [echo] and the utility [cat].  What is outside this
    part has no reading: the functions give [None] there. *)
Module sh.

(** What is left of a word once its quoting is read. *)
Inductive part :=
  | Mark                                 (* a quote was opened: the word is there,
                                            empty as it may be *)
  | Chr (quoted : bool) (c : ascii)      (* a character standing for itself *)
  | Var (quoted : bool) (name : string)  (* $name *)
  | Sub (quoted : bool) (body : string). (* $(body) *)

Definition word := list part.

Inductive token :=
  | TWord (w : word)
  | TNewline
  | TSemi
  | TToErr.     (* >&2 *)

(** Where the reader is in a line. *)
Inductive mode :=
  | Bare | Single | Double
  | Dollar (q : bool)               (* after a dollar *)
  | Name (q : bool) (name : string) (* in the name of a variable *)
  | Paren (q : bool) (body : string)(* in a command substitution *)
  | Gt | GtAmp.                     (* after >, after >& *)

Record lexer := { toks : list token; cur : option word; md : mode }.

Definition is_blank (c : ascii) : bool :=
  Ascii.eqb c "032" || Ascii.eqb c "009" || Ascii.eqb c "010".

Definition is_glob (c : ascii) : bool :=
  Ascii.eqb c "042" || Ascii.eqb c "063" || Ascii.eqb c "091".

Definition between (lo hi : nat) (c : ascii) : bool :=
  (lo <=? nat_of_ascii c) && (nat_of_ascii c <=? hi).

Definition is_name_start (c : ascii) : bool :=
  between 65 90 c || between 97 122 c || Ascii.eqb c "095".

Definition is_name_char (c : ascii) : bool :=
  is_name_start c || between 48 57 c.

(** Characters with a meaning of their own that this reader does not know:
    backslash, backquote, the comment sign, the ampersand, the bar, the
    smaller sign, parentheses, braces, the tilde and the glob characters
    star and question mark. *)
Definition is_unread (c : ascii) : bool :=
  Ascii.eqb c "092" || Ascii.eqb c "096" || Ascii.eqb c "035"
  || Ascii.eqb c "038" || Ascii.eqb c "124" || Ascii.eqb c "060"
  || Ascii.eqb c "040" || Ascii.eqb c "041" || Ascii.eqb c "123"
  || Ascii.eqb c "125" || Ascii.eqb c "126" || Ascii.eqb c "042"
  || Ascii.eqb c "063".

Definition flush (l : lexer) : list token :=
  toks l ++ match cur l with Some w => [TWord w] | None => [] end.

Definition push (p : part) (l : lexer) (m : mode) : lexer :=
  {| toks := toks l; cur := Some (default [] (cur l) ++ [p]); md := m |}.

Definition goto (l : lexer) (m : mode) : lexer :=
  {| toks := toks l; cur := cur l; md := m |}.

Definition break (ts : list token) (l : lexer) (m : mode) : lexer :=
  {| toks := flush l ++ ts; cur := None; md := m |}.

Definition bare (l : lexer) (c : ascii) : option lexer :=
  if Ascii.eqb c "032" || Ascii.eqb c "009" then Some (break [] l Bare)
  else if Ascii.eqb c "010" then Some (break [TNewline] l Bare)
  else if Ascii.eqb c "059" then Some (break [TSemi] l Bare)
  else if Ascii.eqb c "062" then Some (break [] l Gt)
  else if Ascii.eqb c "039" then Some (push Mark l Single)
  else if Ascii.eqb c "034" then Some (push Mark l Double)
  else if Ascii.eqb c "036" then Some (goto l (Dollar false))
  else if is_unread c then None
  else Some (push (Chr false c) l Bare).

Definition double (l : lexer) (c : ascii) : option lexer :=
  if Ascii.eqb c "034" then Some (goto l Bare)
  else if Ascii.eqb c "036" then Some (goto l (Dollar true))
  else if Ascii.eqb c "092" || Ascii.eqb c "096" then None
  else Some (push (Chr true c) l Double).

Definition back (q : bool) : mode := if q then Double else Bare.

Definition step (l : lexer) (c : ascii) : option lexer :=
  match md l with
  | Bare => bare l c
  | Single =>
      if Ascii.eqb c "039" then Some (goto l Bare)
      else Some (push (Chr true c) l Single)
  | Double => double l c
  | Dollar q =>
      if Ascii.eqb c "040" then Some (goto l (Paren q ""))
      else if is_name_start c then Some (goto l (Name q (String c "")))
      else None
  | Name q name =>
      if is_name_char c then Some (goto l (Name q (name +:+ String c "")))
      else
        let l' := push (Var q name) l (back q) in
        if q then double l' c else bare l' c
  | Paren q body =>
      if Ascii.eqb c "041" then Some (push (Sub q body) l (back q))
      else if Ascii.eqb c "040" || Ascii.eqb c "039" || Ascii.eqb c "034"
              || Ascii.eqb c "092" || Ascii.eqb c "096"
      then None
      else Some (goto l (Paren q (body +:+ String c "")))
  | Gt => if Ascii.eqb c "038" then Some (goto l GtAmp) else None
  | GtAmp => if Ascii.eqb c "050" then Some (break [TToErr] l Bare) else None
  end.

Fixpoint feed (l : lexer) (s : string) : option lexer :=
  match s with
  | EmptyString => Some l
  | String c s' =>
      match step l c with
      | Some l' => feed l' s'
      | None => None
      end
  end.

Definition finish (l : lexer) : option (list token) :=
  match md l with
  | Bare => Some (flush l)
  | Name false name => Some (flush (push (Var false name) l Bare))
  | _ => None
  end.

Definition lex (s : string) : option (list token) :=
  l ← feed {| toks := []; cur := None; md := Bare |} s; finish l.

(** *** Commands *)

Record simple := { words : list word; to_stderr : bool }.

Inductive command :=
  | Simple (c : simple)
  | If (cond : simple) (body : list simple).

(** Where the parser is: between commands, after [if], after the condition,
    in the body, after [fi]. *)
Inductive place :=
  | Top
  | Cond
  | Then (cond : simple)
  | Body (cond : simple) (body : list simple)
  | Fi.

Record parser := { cmds : list command; now : option simple; pl : place }.

(** The word is the reserved word [k], written without quotes. *)
Fixpoint spells (k : string) (w : word) : bool :=
  match k, w with
  | EmptyString, [] => true
  | String c k', Chr false c' :: w' => Ascii.eqb c c' && spells k' w'
  | _, _ => false
  end.

Definition reserved (w : word) : bool :=
  spells "if" w || spells "then" w || spells "fi" w || spells "else" w
  || spells "elif" w || spells "for" w || spells "while" w || spells "until" w
  || spells "do" w || spells "done" w || spells "case" w || spells "esac" w.

Definition start (w : word) : simple := {| words := [w]; to_stderr := false |}.

Definition take_word (p : parser) (w : word) : option parser :=
  match now p with
  | Some c =>
      Some {| cmds := cmds p;
              now := Some {| words := words c ++ [w]; to_stderr := to_stderr c |};
              pl := pl p |}
  | None =>
      match pl p with
      | Top =>
          if spells "if" w then Some {| cmds := cmds p; now := None; pl := Cond |}
          else if reserved w then None
          else Some {| cmds := cmds p; now := Some (start w); pl := Top |}
      | Cond =>
          if reserved w then None
          else Some {| cmds := cmds p; now := Some (start w); pl := Cond |}
      | Then cond =>
          if spells "then" w
          then Some {| cmds := cmds p; now := None; pl := Body cond [] |}
          else None
      | Body cond body =>
          if spells "fi" w
          then match body with
               | [] => None
               | _ => Some {| cmds := cmds p ++ [If cond body]; now := None; pl := Fi |}
               end
          else if reserved w then None
          else Some {| cmds := cmds p; now := Some (start w); pl := Body cond body |}
      | Fi => None
      end
  end.

Definition end_command (p : parser) : option parser :=
  match now p with
  | Some c =>
      match pl p with
      | Top => Some {| cmds := cmds p ++ [Simple c]; now := None; pl := Top |}
      | Cond => Some {| cmds := cmds p; now := None; pl := Then c |}
      | Body cond body =>
          Some {| cmds := cmds p; now := None; pl := Body cond (body ++ [c]) |}
      | _ => None
      end
  | None =>
      match pl p with
      | Fi => Some {| cmds := cmds p; now := None; pl := Top |}
      | _ => Some p
      end
  end.

Definition take (p : parser) (t : token) : option parser :=
  match t with
  | TWord w => take_word p w
  | TToErr =>
      match now p with
      | Some c =>
          Some {| cmds := cmds p;
                  now := Some {| words := words c; to_stderr := true |};
                  pl := pl p |}
      | None => None
      end
  | TNewline => end_command p
  | TSemi =>
      match now p, pl p with
      | None, Fi => end_command p
      | None, _ => None
      | Some _, _ => end_command p
      end
  end.

Fixpoint takes (p : parser) (ts : list token) : option parser :=
  match ts with
  | [] => Some p
  | t :: ts' =>
      match take p t with
      | Some p' => takes p' ts'
      | None => None
      end
  end.

Definition parse (ts : list token) : option (list command) :=
  p ← takes {| cmds := []; now := None; pl := Top |} ts;
  p' ← end_command p;
  match pl p' with
  | Top => Some (cmds p')
  | _ => None
  end.

(** *** Expansion *)

Definition option_list {A} (o : option A) : list A :=
  match o with Some a => [a] | None => [] end.

(** Field splitting of the value of an unquoted expansion at blanks, tabs
    and newlines; [acc] are the fields complete so far and [cur] the one
    being read.  Pathname expansion is not read: a glob character gives
    [None]. *)
Fixpoint split_chars (acc : list string) (cur : option string) (s : string)
  : option (list string * option string) :=
  match s with
  | EmptyString => Some (acc, cur)
  | String c s' =>
      if is_blank c then split_chars (acc ++ option_list cur) None s'
      else if is_glob c then None
      else split_chars acc (Some (default "" cur +:+ String c "")) s'
  end.


(** [$( )] takes the trailing newlines off what the command prints. *)
Fixpoint drop_newlines (s : string) : string :=
  match s with
  | String c s' => if Ascii.eqb c "010" then drop_newlines s' else s
  | EmptyString => EmptyString
  end.

Definition strip (out : string) : string :=
  String.rev (drop_newlines (String.rev out)).

Definition value (vars : gmap string string) (name : string) : string :=
  default "" (vars !! name).

(** The fields of a word.  [sub] runs the body of a command substitution
    and gives what it prints on stdout and on stderr and its status;
    [errs] and [status] collect the second and the last third. *)
Fixpoint expand (sub : string → option (string * string * nat))
    (vars : gmap string string)
    (acc : list string) (cur : option string) (errs : string) (status : option nat)
    (w : word) : option (list string * string * option nat) :=
  match w with
  | [] => Some (acc ++ option_list cur, errs, status)
  | Mark :: w' => expand sub vars acc (Some (default "" cur)) errs status w'
  | Chr _ c :: w' =>
      expand sub vars acc (Some (default "" cur +:+ String c "")) errs status w'
  | Var true name :: w' =>
      expand sub vars acc (Some (default "" cur +:+ value vars name)) errs status w'
  | Var false name :: w' =>
      '(acc', cur') ← split_chars acc cur (value vars name);
      expand sub vars acc' cur' errs status w'
  | Sub q body :: w' =>
      '(o, e, n) ← sub body;
      if q
      then expand sub vars acc (Some (default "" cur +:+ strip o))
             (errs +:+ e) (Some n) w'
      else
        '(acc', cur') ← split_chars acc cur (strip o);
        expand sub vars acc' cur' (errs +:+ e) (Some n) w'
  end.

(** The text of a word where fields are not split: the value of an
    assignment. *)
Fixpoint text (sub : string → option (string * string * nat))
    (vars : gmap string string) (errs : string) (status : option nat) (w : word)
  : option (string * string * option nat) :=
  match w with
  | [] => Some ("", errs, status)
  | Mark :: w' => text sub vars errs status w'
  | Chr _ c :: w' =>
      '(t, errs', status') ← text sub vars errs status w';
      Some (String c t, errs', status')
  | Var _ name :: w' =>
      '(t, errs', status') ← text sub vars errs status w';
      Some (value vars name +:+ t, errs', status')
  | Sub _ body :: w' =>
      '(o, e, n) ← sub body;
      '(t, errs', status') ← text sub vars (errs +:+ e) (Some n) w';
      Some (strip o +:+ t, errs', status')
  end.

Fixpoint expands (sub : string → option (string * string * nat))
    (vars : gmap string string) (errs : string) (status : option nat)
    (ws : list word) : option (list string * string * option nat) :=
  match ws with
  | [] => Some ([], errs, status)
  | w :: ws' =>
      '(fs, errs', status') ← expand sub vars [] None errs status w;
      '(fs', errs'', status'') ← expands sub vars errs' status' ws';
      Some (fs ++ fs', errs'', status'')
  end.

(** *** Utilities and builtins *)

Fixpoint join (args : list string) : string :=
  match args with
  | [] => ""
  | [a] => a
  | a :: args' => a +:+ " " +:+ join args'
  end.

(** An argument that [echo] takes for options: a dash followed by one or
    more of n, e and E. *)
Fixpoint option_letters (s : string) : bool :=
  match s with
  | EmptyString => true
  | String c s' =>
      (Ascii.eqb c "110" || Ascii.eqb c "101" || Ascii.eqb c "069")
      && option_letters s'
  end.

Definition echo_option (arg : string) : bool :=
  match arg with
  | String c (String c' s) => Ascii.eqb c "045" && option_letters (String c' s)
  | _ => false
  end.

(** What a utility prints on stdout and on stderr, and its status. *)
Definition utility (m : machine) (name : string) (args : list string)
  : option (string * string * nat) :=
  if String.eqb name "cat" then
    match args with
    | [] => None                 (* reads its standard input *)
    | _ => Some (cat m args)
    end
  else if String.eqb name "echo" then
    match args with
    | a :: _ => if echo_option a then None else Some (join args +:+ nl, "", 0)
    | [] => Some (nl, "", 0)
    end
  else None.

(** The words of a line that is one command without redirection. *)
Fixpoint only_words (ts : list token) : option (list word) :=
  match ts with
  | [] => Some []
  | TWord w :: ts' => ws ← only_words ts'; Some (w :: ws)
  | _ => None
  end.

(** [$(body)]: [body] is one utility with its operands, none of them a
    command substitution. *)
Definition substitute (m : machine) (vars : gmap string string) (body : string)
  : option (string * string * nat) :=
  ts ← lex body;
  ws ← only_words ts;
  '(fs, _, _) ← expands (λ _, None) vars "" None ws;
  match fs with
  | name :: args => utility m name args
  | [] => None
  end.

(** [test] with two and with three operands. *)
Definition test2 (m : machine) (op a : string) : option bool :=
  if String.eqb op "-e" then Some (test_e m a)
  else if String.eqb op "-n" then Some (negb (String.eqb a ""))
  else if String.eqb op "-z" then Some (String.eqb a "")
  else None.

Definition test (m : machine) (args : list string) : option bool :=
  match args with
  | [a; op; b] =>
      if String.eqb op "!=" then Some (negb (String.eqb a b))
      else if String.eqb op "=" then Some (String.eqb a b)
      else if String.eqb a "!" then negb <$> test2 m op b
      else None
  | [op; a] => test2 m op a
  | _ => None
  end.

Fixpoint number (n : nat) (s : string) : option nat :=
  match s with
  | EmptyString => Some n
  | String c s' =>
      if between 48 57 c then number (10 * n + (nat_of_ascii c - 48)) s'
      else None
  end.

(** A word that is an assignment: a name, the equals sign, the value. *)
Fixpoint assignment_from (name : string) (w : word) : option (string * word) :=
  match w with
  | Chr false c :: w' =>
      if Ascii.eqb c "061" then Some (name, w')
      else if is_name_char c then assignment_from (name +:+ String c "") w'
      else None
  | _ => None
  end.

Definition assignment (w : word) : option (string * word) :=
  match w with
  | Chr false c :: w' =>
      if is_name_start c then assignment_from (String c "") w' else None
  | _ => None
  end.

Record state := {
  vars : gmap string string;
  out : string;
  err : string;
  status : nat
}.

(** A simple command; the second component is the status the shell exits
    with, when the command is [exit]. *)
Definition simple_command (m : machine) (st : state) (c : simple)
  : option (state * option nat) :=
  match words c with
  | [w] =>
      match assignment w with
      | Some (name, v) =>
          '(t, errs, n) ← text (substitute m (vars st)) (vars st) (err st) None v;
          Some ({| vars := <[name := t]> (vars st); out := out st; err := errs;
                   status := default 0 n |}, None)
      | None =>
          '(fs, errs, _) ← expand (substitute m (vars st)) (vars st) [] None
                             (err st) None w;
          match fs with
          | [] => None
          | name :: args =>
              if String.eqb name "exit" then
                match args with
                | [] => Some ({| vars := vars st; out := out st; err := errs;
                                 status := status st |}, Some (status st))
                | _ => None
                end
              else
                '(o, e, n) ← utility m name args;
                Some ({| vars := vars st;
                         out := if to_stderr c then out st else out st +:+ o;
                         err := if to_stderr c then errs +:+ o +:+ e else errs +:+ e;
                         status := n |}, None)
          end
      end
  | ws =>
      match head ws ≫= assignment with
      | Some _ => None          (* an assignment before a command *)
      | None =>
          '(fs, errs, _) ← expands (substitute m (vars st)) (vars st) (err st) None ws;
          match fs with
          | [] => None
          | name :: args =>
              if String.eqb name "[" then
                match reverse args with
                | close :: rargs =>
                    if String.eqb close "]" then
                      b ← test m (reverse rargs);
                      Some ({| vars := vars st; out := out st; err := errs;
                               status := if b : bool then 0 else 1 |}, None)
                    else None
                | [] => None
                end
              else if String.eqb name "exit" then
                match args with
                | [a] =>
                    n ← number 0 a;
                    Some ({| vars := vars st; out := out st; err := errs;
                             status := n |}, Some n)
                | _ => None
                end
              else
                '(o, e, n) ← utility m name args;
                Some ({| vars := vars st;
                         out := if to_stderr c then out st else out st +:+ o;
                         err := if to_stderr c then errs +:+ o +:+ e else errs +:+ e;
                         status := n |}, None)
          end
      end
  end.

Fixpoint simples (m : machine) (st : state) (cs : list simple)
  : option (state * option nat) :=
  match cs with
  | [] => Some (st, None)
  | c :: cs' =>
      '(st', ex) ← simple_command m st c;
      match ex with
      | Some n => Some (st', Some n)
      | None => simples m st' cs'
      end
  end.

Definition with_status (st : state) (n : nat) : state :=
  {| vars := vars st; out := out st; err := err st; status := n |}.

Definition command_ (m : machine) (st : state) (c : command)
  : option (state * option nat) :=
  match c with
  | Simple c => simple_command m st c
  | If cond body =>
      '(st1, ex) ← simple_command m st cond;
      match ex with
      | Some n => Some (st1, Some n)
      | None =>
          if status st1 =? 0 then simples m st1 body
          else Some (with_status st1 0, None)
      end
  end.

Fixpoint commands (m : machine) (st : state) (cs : list command)
  : option (state * option nat) :=
  match cs with
  | [] => Some (st, None)
  | c :: cs' =>
      '(st', ex) ← command_ m st c;
      match ex with
      | Some n => Some (st', Some n)
      | None => commands m st' cs'
      end
  end.

End sh.

(** How a run of the shell ends. *)
Record finished := { exit_status : nat; stdout_text : string; stderr_text : string }.

(** [/bin/bash] reading the script from its standard input, on the machine
    [m]; [None] when the script is outside what is read here. *)
Definition bash (m : machine) (script : string) : option finished :=
  ts ← sh.lex script;
  cs ← sh.parse ts;
  '(st, ex) ← sh.commands m
                {| sh.vars := ∅; sh.out := ""; sh.err := ""; sh.status := 0 |} cs;
  Some {| exit_status := default (sh.status st) ex;
          stdout_text := sh.out st; stderr_text := sh.err st |}.

(** [cat] over the regular files [fs]: the contents of the operands that
    are there, in order, and a complaint for each one that is not. *)
Fixpoint cat_files (fs : gmap string string) (paths : list string)
  : string * string * nat :=
  match paths with
  | [] => ("", "", 0)
  | p :: paths' =>
      let '(o, e, n) := cat_files fs paths' in
      match fs !! p with
      | Some content => (content +:+ o, e, n)
      | None => (o, "cat: " +:+ p +:+ ": No such file or directory" +:+ nl +:+ e, 1)
      end
  end.

(** A machine with the regular files [fs]. *)
Definition machine_of_files (fs : gmap string string) : machine :=
  {| test_e path := bool_decide (is_Some (fs !! path));
     cat paths := cat_files fs paths |}.




(** ** Bootstrap (bootstrap.go:36-85) *)

Module environs.

Record BootstrapParams (T : Type) := {
  Constraints : string;
  Placement : string;
  AvailableTools : T
}.
Arguments Constraints {T} b.
Arguments Placement {T} b.
Arguments AvailableTools {T} b.

(** [cloudinit.MachineConfig], the two fields [Bootstrap] sets and the
    rest. *)
Record MachineConfig (M : Type) := {
  rest : M;
  EnableOSRefreshUpdate : bool;
  EnableOSUpgrade : bool
}.
Arguments rest {M} m.
Arguments EnableOSRefreshUpdate {M} m.
Arguments EnableOSUpgrade {M} m.

Record StartInstanceParams (T M : Type) := {
  sip_Constraints : string;
  sip_Tools : T;
  sip_MachineConfig : MachineConfig M;
  sip_Placement : string
}.
Arguments sip_Constraints {T M} s.
Arguments sip_Tools {T M} s.
Arguments sip_MachineConfig {T M} s.
Arguments sip_Placement {T M} s.

End environs.

(** [instance.HardwareCharacteristics], the field [Bootstrap] reads. *)
Record HardwareCharacteristics := { Arch : option string }.

(** What [Bootstrap] does to the outside: the text written to
    [ctx.GetStderr()] and the instances started. *)
Record effects (T M : Type) := {
  written : list string;
  launched : list (environs.StartInstanceParams T M)
}.
Arguments written {T M} e.
Arguments launched {T M} e.

(** The [finalize] closure, by what it captures. *)
Record BootstrapFinalizer (E C : Type) := {
  fin_env : E;
  fin_client : C;
  fin_inst : string;
  fin_hw : option HardwareCharacteristics
}.

(** The environment and the package-level functions [Bootstrap] calls. *)
Class Environ (E T M : Type) := {
  (* config.PreferredSeries(env.Config()) *)
  PreferredSeries : E → string;
  (* args.AvailableTools.Match(coretools.Filter{Series: series}) *)
  Match : T → string → T * option error;
  (* environs.NewBootstrapMachineConfig(args.Constraints, series) *)
  NewBootstrapMachineConfig : string → string → M * option error;
  (* env.Config().EnableOSRefreshUpdate(), env.Config().EnableOSUpgrade() *)
  ConfigEnableOSRefreshUpdate : E → bool;
  ConfigEnableOSUpgrade : E → bool;
  (* env.StartInstance(params): inst.Id(), hw and err *)
  StartInstance :
    E → environs.StartInstanceParams T M →
    string * option HardwareCharacteristics * option error
}.

Section Bootstrap.
Context {E T M C : Type} `{Environ E T M}.

(** [ssh.DefaultClient] *)
Variable DefaultClient : option C.

Definition Bootstrap (w : effects T M) (env : E) (args : environs.BootstrapParams T)
  : outcome (string * string * option (BootstrapFinalizer E C) * option error)
    * effects T M :=
  let series := PreferredSeries env in
  let '(availableTools, err) := Match (environs.AvailableTools args) series in
  match err with
  | Some e => (Ok ("", "", None, Some e), w)
  | None =>
  match DefaultClient with
  | None => (Ok ("", "", None, Some (Errorf "no SSH client available")), w)
  | Some client =>
  let '(mc, err) := NewBootstrapMachineConfig (environs.Constraints args) series in
  match err with
  | Some e => (Ok ("", "", None, Some e), w)
  | None =>
  let machineConfig :=
    {| environs.rest := mc;
       environs.EnableOSRefreshUpdate := ConfigEnableOSRefreshUpdate env;
       environs.EnableOSUpgrade := ConfigEnableOSUpgrade env |} in
  let w1 := {| written := written w ++ ["Launching instance" +:+ nl];
               launched := launched w |} in
  let params :=
    {| environs.sip_Constraints := environs.Constraints args;
       environs.sip_Tools := availableTools;
       environs.sip_MachineConfig := machineConfig;
       environs.sip_Placement := environs.Placement args |} in
  let '(inst, hw, err) := StartInstance env params in
  let w2 := {| written := written w1; launched := launched w1 ++ [params] |} in
  match err with
  | Some e =>
      (Ok ("", "", None, Some (Errorf ("cannot start bootstrap instance: " +:+ Error e))), w2)
  | None =>
  let w3 := {| written := written w2 ++ [" - " +:+ inst +:+ nl];
               launched := launched w2 |} in
  let finalize :=
    {| fin_env := env; fin_client := client; fin_inst := inst; fin_hw := hw |} in
  match hw with
  | Some {| Arch := Some arch |} => (Ok (arch, series, Some finalize, None), w3)
  | _ => (Panic "invalid memory address or nil pointer dereference", w3)
  end end end end end.

End Bootstrap.

(** An environment for examples: tools are named by their series, and
    [Match] keeps those of the series asked for and fails when none is
    left. *)
Record fixedEnviron := {
  fe_series : string;
  fe_start : string * option HardwareCharacteristics * option error
}.

#[global] Instance fixedEnviron_Environ : Environ fixedEnviron (list string) unit := {|
  PreferredSeries e := fe_series e;
  Match tools series :=
    let matching := filter (λ t, t = series) tools in
    (matching,
     match matching with
     | [] => Some (Err "no matching tools available")
     | _ => None
     end);
  NewBootstrapMachineConfig _ _ := (tt, None);
  ConfigEnableOSRefreshUpdate _ := true;
  ConfigEnableOSUpgrade _ := true;
  StartInstance e _ := fe_start e
|}.

(** ** Counting what a probe and a run do *)

Definition is_attempt (a : hostChecker.action) : bool :=
  match a with hostChecker.Attempt _ _ => true | hostChecker.Sleep _ => false end.

(** The attempts a probe has started and the delays it has slept in full. *)
Definition started (g : hostChecker.goroutine) : nat :=
  length (filter (λ a, Is_true (is_attempt a)) (hostChecker.did g)).

Definition slept (g : hostChecker.goroutine) : nat :=
  length (filter (λ a, Is_true (hostChecker.is_sleep a)) (hostChecker.did g)).

(** The attempts whose result the probe has received, and those of them
    that failed. *)
Fixpoint completed (hs : list hostChecker.happening) : nat :=
  match hs with
  | [] => 0
  | hostChecker.Take (hostChecker.Done _) :: hs' => S (completed hs')
  | _ :: hs' => completed hs'
  end.

Fixpoint failed (hs : list hostChecker.happening) : nat :=
  match hs with
  | [] => 0
  | hostChecker.Take (hostChecker.Done (Some _)) :: hs' => S (failed hs')
  | _ :: hs' => failed hs'
  end.

(** While the probe is in an attempt, one attempt more has been started
    than has completed; in the delay, as many; once it has returned, as many
    or one more. *)
Definition in_flight (g : hostChecker.goroutine) (n : nat) : Prop :=
  match hostChecker.at_ g with
  | hostChecker.InAttempt => started g = n + 1
  | hostChecker.InDelay => started g = n
  | hostChecker.Returned _ => n ≤ started g ≤ n + 1
  end.

(** In the delay one failure has not been slept on yet. *)
Definition delays_due (g : hostChecker.goroutine) (n : nat) : Prop :=
  match hostChecker.at_ g with
  | hostChecker.InDelay => slept g + 1 ≤ n
  | _ => slept g ≤ n
  end.

(** The probes of a Try that have returned, and those still running. *)
Definition returned_probes (tr : Try.t) : nat :=
  length (filter (λ g, Is_true (hostChecker.returned g)) (Try.procs tr)).

Definition running_probes (tr : Try.t) : nat :=
  length (filter (λ g, ¬ Is_true (hostChecker.returned g)) (Try.procs tr)).

(** The address a probe is for. *)
Definition probe_addr (g : hostChecker.goroutine) : Address :=
  hostChecker.addr (hostChecker.self g).

Section Runs.
Context {I : Type} `{addresser I} `{DurationString}.
Variable timeout : SSHTimeoutOpts.

(** The address whose attempt an event sees succeed. *)
Definition verifies (s : waitSSH.state I) (ev : waitSSH.event) : list Address :=
  match ev with
  | waitSSH.Probe i (hostChecker.Done None) =>
      match Try.procs (parallelHostChecker.Try (waitSSH.checker s)) !! i with
      | Some g => [probe_addr g]
      | None => []
      end
  | _ => []
  end.

(** The addresses on which an attempt succeeded in a run. *)
Fixpoint verified (s : waitSSH.state I) (evs : list waitSSH.event) : list Address :=
  match evs with
  | [] => []
  | ev :: evs' =>
      verifies s ev ++
      match waitSSH.step timeout s ev with
      | Some s' => verified s' evs'
      | None => []
      end
  end.

(** The events in which the [i]th probe stops on the signal [r]. *)
Definition stop_probe (g : hostChecker.goroutine) (i : nat) (r : hostChecker.recv)
  : list waitSSH.event :=
  waitSSH.Probe i <$>
    match hostChecker.at_ g with
    | hostChecker.InDelay => [r; r]
    | hostChecker.InAttempt => [r]
    | hostChecker.Returned _ => []
    end.

(** [waitSSH] has returned: its [return] has run and the deferred
    [checker.wg.Wait()] has seen the counter at zero. *)
Definition waitSSH_returned (s : waitSSH.state I) : option (string * option error) :=
  match waitSSH.at_ s with
  | waitSSH.Exit addr err =>
      if bool_decide (parallelHostChecker.wg (waitSSH.checker s) = 0)
      then Some (addr, err) else None
  | _ => None
  end.

End Runs.

(** ** The coordinator's books *)

(** What a probe has done so far is its own business: attempts on its own
    address with its own script and sleeps of its own delay. *)
Definition own_actions (g : hostChecker.goroutine) : Prop :=
  Forall (λ a, a = hostChecker.attempt (hostChecker.self g)
               ∨ a = hostChecker.Sleep (hostChecker.checkDelay (hostChecker.self g)))
         (hostChecker.did g).

(** What every case of [waitSSH] and of the probes keeps of the coordinator.
    Each probe was built by [UpdateAddresses] for a tracked address from the
    coordinator's delay and script, holds the very signal stored in [active]
    under its address, and is the only probe for that address; every signal
    in [active] was made; [wg] counts the tracked addresses less the probes
    that have returned. *)
Definition tidy (delay : Duration) (script : string) (p : parallelHostChecker.t) : Prop :=
  parallelHostChecker.checkDelay p = delay
  ∧ parallelHostChecker.checkHostScript p = script
  ∧ NoDup (probe_addr <$> Try.procs (parallelHostChecker.Try p))
  ∧ (∀ i g, Try.procs (parallelHostChecker.Try p) !! i = Some g →
       parallelHostChecker.active p !! probe_addr g
         = Some (hostChecker.closed (hostChecker.self g))
       ∧ hostChecker.checkDelay (hostChecker.self g) = delay
       ∧ hostChecker.checkHostScript (hostChecker.self g) = script
       ∧ own_actions g)
  ∧ (∀ a c, parallelHostChecker.active p !! a = Some c →
       c < length (parallelHostChecker.heap p))
  ∧ parallelHostChecker.wg p + returned_probes (parallelHostChecker.Try p)
    = size (parallelHostChecker.active p)
  ∧ length (Try.procs (parallelHostChecker.Try p))
    ≤ size (parallelHostChecker.active p).

(** The signal [r] is there for every probe to take: after [Close] every
    signal in [active] is closed, after [Kill] the Try is dying. *)
Definition signalled (r : hostChecker.recv) (p : parallelHostChecker.t) : Prop :=
  match r with
  | hostChecker.Closed =>
      ∀ a c, parallelHostChecker.active p !! a = Some c →
             parallelHostChecker.heap p !! c = Some true
  | hostChecker.Dying => Try.killed (parallelHostChecker.Try p) = true
  | _ => False
  end.

(** The texts an error of [waitSSH] starts with. *)
Definition waitSSH_error_prefixes (timeout : Duration) `{DurationString} : list string :=
  ["refreshing addresses: "; "getting addresses: "; "interrupted";
   "waited for " +:+ Duration_String timeout +:+ " without "].

(** ** ConfigureMachine and FinishBootstrap (bootstrap.go:91-156) *)

(** [coreCloudinit.Config]: the two settings [ConfigureMachine] makes, and
    in [body] all that the calls it is handed to put in it. *)
Record cloudcfg (G : Type) := {
  AptUpdate : bool;
  AptUpgrade : bool;
  body : G
}.
Arguments AptUpdate {G} c.
Arguments AptUpgrade {G} c.
Arguments body {G} c.

(** [sshinit.ConfigureParams].  Its [ProgressWriter] is [ctx.GetStderr()];
    what is written there is what [RunConfigureScript] returns below. *)
Record ConfigureParams (C G : Type) := {
  Host : string;
  cp_Client : C;
  cp_Config : cloudcfg G
}.
Arguments Host {C G} c.
Arguments cp_Client {C G} c.
Arguments cp_Config {C G} c.

(** The packages [ConfigureMachine] and [FinishBootstrap] call, and the
    fields of the machine config they read.  [cloudcfg] is a pointer shared
    with these calls, so each of them returns what it leaves of it. *)
Class Configuring (M C G U : Type) := {
  (* coreCloudinit.New() *)
  cloudinit_New : G;
  (* cloudinit.NewUserdataConfig(machineConfig, cloudcfg) *)
  NewUserdataConfig :
    environs.MachineConfig M → cloudcfg G → U * cloudcfg G * option error;
  (* udata.ConfigureJuju() *)
  ConfigureJuju : U → cloudcfg G → cloudcfg G * option error;
  (* sshinit.ConfigureScript(cloudcfg) *)
  ConfigureScript : cloudcfg G → string * option error;
  (* shell.DumpFileOnErrorScript(machineConfig.CloudInitOutputLog) *)
  DumpFileOnErrorScript : string → string;
  CloudInitOutputLog : M → string;
  (* sshinit.RunConfigureScript(script, params): what it writes to the
     progress writer and its error *)
  RunConfigureScript : string → ConfigureParams C G → list string * option error;
  (* path.Join(machineConfig.DataDir, cloudinit.NonceFile) *)
  NonceFilePath : M → string;
  MachineNonce : M → string;
  (* machineConfig.Config.BootstrapSSHOpts() *)
  BootstrapSSHOpts : M → SSHTimeoutOpts
}.

(** The [environs.BootstrapContext] and what was done through it: what its
    stderr holds, how many channels are registered with [InterruptNotify],
    and the scripts [sshinit.RunConfigureScript] has run. *)
Record context (C G : Type) := {
  ctx_stderr : list string;
  ctx_interrupts : nat;
  ctx_runs : list (string * ConfigureParams C G)
}.
Arguments ctx_stderr {C G} c.
Arguments ctx_interrupts {C G} c.
Arguments ctx_runs {C G} c.

Section FinishBootstrap.
Context {M C G U I : Type} `{Configuring M C G U} `{addresser I} `{DurationString}.

(** [ConfigureMachine] (bootstrap.go:127-156). *)
Definition ConfigureMachine (ctx : context C G) (client : C) (host : string)
    (machineConfig : environs.MachineConfig M) : option error * context C G :=
  let cloudcfg :=
    {| AptUpdate := environs.EnableOSRefreshUpdate machineConfig;
       AptUpgrade := environs.EnableOSUpgrade machineConfig;
       body := cloudinit_New |} in
  let '(udata, cloudcfg, err) := NewUserdataConfig machineConfig cloudcfg in
  match err with
  | Some e => (Some e, ctx)
  | None =>
  let '(cloudcfg, err) := ConfigureJuju udata cloudcfg in
  match err with
  | Some e => (Some e, ctx)
  | None =>
  let '(configScript, err) := ConfigureScript cloudcfg in
  match err with
  | Some e => (Some e, ctx)
  | None =>
  let script :=
    DumpFileOnErrorScript (CloudInitOutputLog (environs.rest machineConfig))
    +:+ configScript in
  let params :=
    {| Host := "ubuntu@" +:+ host; cp_Client := client; cp_Config := cloudcfg |} in
  let '(progress, err) := RunConfigureScript script params in
  (err, {| ctx_stderr := ctx_stderr ctx ++ progress;
           ctx_interrupts := ctx_interrupts ctx;
           ctx_runs := ctx_runs ctx ++ [(script, params)] |})
  end end end.


End FinishBootstrap.

(** ** Data for the examples *)

Definition addr_public : Address :=
  {| Value := "54.1.2.3"; AddressScope := ScopePublic |}.
Definition addr_private : Address :=
  {| Value := "10.0.0.5"; AddressScope := ScopeCloudLocal |}.

Definition hc_private : hostChecker.t :=
  {| hostChecker.addr := addr_private;
     hostChecker.checkDelay := 5000000000%Z;
     hostChecker.checkHostScript := "exit 1";
     hostChecker.closed := 0 |}.

(** The probe of [hc_private] after one failed attempt and the delay. *)
Definition g_retrying : hostChecker.goroutine :=
  {| hostChecker.self := hc_private;
     hostChecker.lastErr := Some (Err "nonce.txt does not exist");
     hostChecker.at_ := hostChecker.InAttempt;
     hostChecker.did :=
       [hostChecker.Attempt "10.0.0.5" "exit 1";
        hostChecker.Sleep 5000000000%Z;
        hostChecker.Attempt "10.0.0.5" "exit 1"] |}.

(** A coordinator that tracks nothing yet. *)
Definition checker0 : parallelHostChecker.t :=
  {| parallelHostChecker.Try := Try.NewTry;
     parallelHostChecker.stderr := [];
     parallelHostChecker.wg := 0;
     parallelHostChecker.active := ∅;
     parallelHostChecker.checkDelay := 5000000000%Z;
     parallelHostChecker.checkHostScript := "exit 1";
     parallelHostChecker.heap := [] |}.



(** How durations of whole seconds below a minute print. *)
Definition seconds : DurationString :=
  λ d, pretty (d `div` 1000000000)%Z +:+ "s".

Definition timeout30 : SSHTimeoutOpts :=
  {| Timeout := 30000000000%Z; RetryDelay := 5000000000%Z;
     AddressesDelay := 10000000000%Z |}.

Definition no_calls (answers : list (option error * (list Address * option error)))
  : scripted :=
  {| script := answers; calls := [] |}.

(** Scenario A: no address at the first poll, the private address at the
    second; its first attempt fails, its second succeeds. *)
Definition start_A : waitSSH.state scripted :=
  waitSSH.init timeout30 [] "exit 1"
    (no_calls [(None, ([], None)); (None, ([addr_private], None))]).

Definition events_A : list waitSSH.event :=
  [waitSSH.PollAddresses; waitSSH.PollAddresses;
   waitSSH.Probe 0 (hostChecker.Done (Some (Err "nonce.txt does not exist")));
   waitSSH.Probe 0 hostChecker.After;
   waitSSH.Probe 0 (hostChecker.Done None);
   waitSSH.Dead].

Definition end_A : waitSSH.state scripted :=
  default start_A (waitSSH.run (H0 := seconds) timeout30 start_A events_A).

(** Scenario B: the addresser never has an address and the deadline
    passes. *)
Definition start_B : waitSSH.state scripted :=
  waitSSH.init timeout30 [] "exit 1" (no_calls []).

Definition events_B : list waitSSH.event :=
  [waitSSH.PollAddresses; waitSSH.PollAddresses; waitSSH.GlobalTimeout].

Definition waiting_B : waitSSH.state scripted :=
  default start_B (waitSSH.run (H0 := seconds) timeout30 start_B events_B).

(** Scenario C: two addresses, every attempt fails, the deadline passes and
    both probes take their closed signal. *)
Definition start_C : waitSSH.state scripted :=
  waitSSH.init timeout30 [] "exit 1"
    (no_calls [(None, ([addr_public; addr_private], None))]).

Definition events_C : list waitSSH.event :=
  [waitSSH.PollAddresses;
   waitSSH.Probe 0 (hostChecker.Done (Some (Err "connection refused")));
   waitSSH.Probe 1 (hostChecker.Done (Some (Err "nonce.txt does not exist")));
   waitSSH.GlobalTimeout;
   waitSSH.Probe 0 hostChecker.Closed; waitSSH.Probe 0 hostChecker.Closed;
   waitSSH.Probe 1 hostChecker.Closed; waitSSH.Probe 1 hostChecker.Closed].

Definition waiting_C : waitSSH.state scripted :=
  default start_C (waitSSH.run (H0 := seconds) timeout30 start_C events_C).

(** Scenario D: [Refresh] fails at the second poll. *)
Definition polling_D : waitSSH.state scripted :=
  default start_B
    (waitSSH.run (H0 := seconds) timeout30
       (waitSSH.init timeout30 [] "exit 1"
          (no_calls [(None, ([addr_private], None));
                     (Some (Err "instance not found"), ([], None))]))
       [waitSSH.PollAddresses]).

(** Scenario E: two addresses, the attempt on the first has failed and the
    second is still being tried when the deadline passes. *)
Definition events_E : list waitSSH.event :=
  [waitSSH.PollAddresses;
   waitSSH.Probe 0 (hostChecker.Done (Some (Err "connection refused")));
   waitSSH.GlobalTimeout].

Definition waiting_E : waitSSH.state scripted :=
  default start_C (waitSSH.run (H0 := seconds) timeout30 start_C events_E).

(** Scenario F: two addresses, the attempt on the second succeeds while the
    first is still being tried. *)
Definition events_F : list waitSSH.event :=
  [waitSSH.PollAddresses; waitSSH.Probe 1 (hostChecker.Done None); waitSSH.Dead].

Definition end_F : waitSSH.state scripted :=
  default start_C (waitSSH.run (H0 := seconds) timeout30 start_C events_F).

(** Scenario B to its end: the deadline passes without an address. *)
Definition end_B : waitSSH.state scripted :=
  default start_B
    (waitSSH.run (H0 := seconds) timeout30 start_B (events_B ++ [waitSSH.Drained])).


(** Packages for examples: every preparation succeeds, the script made is
    one line, and running it writes one line of progress. *)
#[global] Instance example_Configuring : Configuring unit unit unit unit := {|
  cloudinit_New := tt;
  NewUserdataConfig _ cfg := (tt, cfg, None);
  ConfigureJuju _ cfg := (cfg, None);
  ConfigureScript _ := ("apt-get install juju" +:+ nl, None);
  DumpFileOnErrorScript log := "trap 'cat " +:+ log +:+ "' ERR" +:+ nl;
  CloudInitOutputLog _ := "/var/log/cloud-init-output.log";
  RunConfigureScript _ params := (["Installing on " +:+ Host params +:+ nl], None);
  NonceFilePath _ := "/var/lib/juju/nonce.txt";
  MachineNonce _ := "user-admin:bootstrap";
  BootstrapSSHOpts _ := timeout30
|}.

Definition mcfg_example : environs.MachineConfig unit :=
  {| environs.rest := tt; environs.EnableOSRefreshUpdate := true;
     environs.EnableOSUpgrade := false |}.

Definition ctx_example : context unit unit :=
  {| ctx_stderr := []; ctx_interrupts := 0; ctx_runs := [] |}.

(** What [ConfigureMachine] leaves of [ctx_example] for the private
    address, and what [FinishBootstrap] leaves of it in scenario G. *)
Definition ctx_configured : context unit unit :=
  (ConfigureMachine ctx_example tt "10.0.0.5" mcfg_example).2.




(** Scenario H: the private address comes in and its first attempt
    succeeds; before the [checker.Dead()] case is taken a second poll brings
    the public address as well. *)
Definition start_H : waitSSH.state scripted :=
  waitSSH.init timeout30 [] "exit 1"
    (no_calls [(None, ([addr_private], None));
               (None, ([addr_private; addr_public], None))]).

Definition events_H : list waitSSH.event :=
  [waitSSH.PollAddresses; waitSSH.Probe 0 (hostChecker.Done None);
   waitSSH.PollAddresses; waitSSH.Dead].

Definition stuck_H : waitSSH.state scripted :=
  default start_H (waitSSH.run (H0 := seconds) timeout30 start_H events_H).

(** Only the private address passes verification. *)
Definition passes_private (a : Address) : bool := bool_decide (a = addr_private).

Definition machine_blank : machine :=
  machine_of_files {[ "/var/lib/my juju/nonce.txt" := "user-admin:bootstrap" +:+ nl ]}.

(** An environment with tools for trusty only that starts instance i-1234. *)
Definition env_trusty (series : string) : fixedEnviron :=
  {| fe_series := series;
     fe_start := ("i-1234", Some {| Arch := Some "amd64" |}, None) |}.

Definition args_trusty : environs.BootstrapParams (list string) :=
  {| environs.Constraints := "mem=2G"; environs.Placement := "";
     environs.AvailableTools := ["trusty"] |}.

Definition nothing_done : effects (list string) unit :=
  {| written := []; launched := [] |}.

(** What is written and started once [Bootstrap] has run for trusty. *)
Definition done_trusty : effects (list string) unit :=
  (Bootstrap (Some tt) nothing_done (env_trusty "trusty") args_trusty).2.

(** * Properties *)

(** ** Strings *)

Lemma append_cons (x : ascii) (a b : string) :
  String x a +:+ b = String x (a +:+ b).
Proof. reflexivity. Qed.

Lemma append_assoc (a b c : string) : (a +:+ b) +:+ c = a +:+ b +:+ c.
Proof. induction a as [|x a IH]; [done|]. rewrite !append_cons. by f_equal. Qed.

Lemma append_empty_r (a : string) : a +:+ "" = a.
Proof. induction a as [|x a IH]; [done|]. rewrite append_cons. by f_equal. Qed.

Lemma length_append (a b : string) :
  String.length (a +:+ b) = String.length a + String.length b.
Proof. induction a as [|x a IH]; [done|]. rewrite append_cons. simpl. by f_equal. Qed.

Lemma length_zero_empty (a : string) : String.length a = 0 ↔ a = "".
Proof. by destruct a. Qed.

Lemma Contains_infix (pre sub post : string) : Contains (pre +:+ sub +:+ post) sub.
Proof. by exists pre, post. Qed.

Lemma append_neq_self (a b : string) : b ≠ "" → a +:+ b ≠ a.
Proof.
  intros Hb Heq. apply (f_equal String.length) in Heq.
  rewrite length_append in Heq.
  apply Hb, length_zero_empty. lia.
Qed.

(** ** connectSSH *)

Section ConnectSSH_properties.
Context {C : Type} `{Client C}.
Variable TrimSpace : string → string.

(** C5.  When the remote run fails, [connectSSH] returns an error whose text
    is the trimmed combined output if the output is not empty, and the
    transport error itself, unchanged, if it is empty; when the run exits
    zero (no transport error) it returns nil. *)
Theorem connectSSH_reports (client : C) (host checkHostScript output : string)
    (err : option error) :
  CombinedOutput client ("ubuntu@" +:+ host) ["/bin/bash"] checkHostScript
    = (output, err) →
  connectSSH TrimSpace client host checkHostScript =
    match err with
    | None => None
    | Some e => if decide (output = "") then Some e
                else Some (Errorf (TrimSpace output))
    end.
Proof.
  intros Hrun. unfold connectSSH. rewrite Hrun.
  destruct err as [e|]; [|done].
  destruct (decide (output = "")) as [->|Hne]; [done|].
  rewrite bool_decide_eq_true_2; [done|].
  destruct output; [done | simpl; lia].
Qed.

End ConnectSSH_properties.

Lemma connectSSH_reports_witness :
  CombinedOutput {| cc_output := "  /var/lib/juju/nonce.txt does not exist" +:+ nl;
                    cc_err := Some (Err "exit status 1") |}
    ("ubuntu@" +:+ "10.0.0.5") ["/bin/bash"] "exit 1"
    = ("  /var/lib/juju/nonce.txt does not exist" +:+ nl, Some (Err "exit status 1"))
  ∧ connectSSH TrimSpaceASCII
      {| cc_output := "  /var/lib/juju/nonce.txt does not exist" +:+ nl;
         cc_err := Some (Err "exit status 1") |} "10.0.0.5" "exit 1"
    = Some (Err "/var/lib/juju/nonce.txt does not exist").
Proof.
  split; [reflexivity|].
  exact (connectSSH_reports TrimSpaceASCII
           {| cc_output := "  /var/lib/juju/nonce.txt does not exist" +:+ nl;
              cc_err := Some (Err "exit status 1") |}
           "10.0.0.5" "exit 1"
           ("  /var/lib/juju/nonce.txt does not exist" +:+ nl)
           (Some (Err "exit status 1")) eq_refl).
Defined.

(** The three cases on scripted clients. *)
Example connectSSH_empty_output :
  connectSSH TrimSpaceASCII {| cc_output := ""; cc_err := Some (Err "exit status 255") |}
    "10.0.0.5" "exit 1" = Some (Err "exit status 255").
Proof. reflexivity. Qed.

Example connectSSH_zero_exit :
  connectSSH TrimSpaceASCII {| cc_output := "ok" +:+ nl; cc_err := None |}
    "10.0.0.5" "exit 0" = None.
Proof. reflexivity. Qed.

(** Output that is only white space is not empty: the error text is then the
    empty string. *)
Example connectSSH_blank_output :
  connectSSH TrimSpaceASCII {| cc_output := nl; cc_err := Some (Err "exit status 1") |}
    "10.0.0.5" "exit 1" = Some (Err "").
Proof. reflexivity. Qed.

(** The command is run as ubuntu on the host, with the script on the standard
    input of /bin/bash. *)
Example connectSSH_command :
  connectSSH TrimSpaceASCII {| ec_err := Some (Err "exit status 1") |}
    "10.0.0.5" "exit 1" = Some (Err "ubuntu@10.0.0.5 /bin/bash exit 1").
Proof. reflexivity. Qed.

(** ** hostChecker.loop *)

Section Loop_properties.
Import hostChecker.

Lemma loop_returned_stuck cr dr g r :
  returned g = true → loop cr dr g r = None.
Proof. unfold returned, loop. by destruct (at_ g), r. Qed.

Lemma run_after_return g cr dr hs g' cr' dr' :
  returned g = true → run (g, cr, dr) hs = Some (g', cr', dr') →
  g' = g ∧ Forall (λ h, is_signal h = true) hs.
Proof.
  intros Hg. revert cr dr. induction hs as [|h hs IH]; intros cr dr Hrun.
  { by simplify_eq/=. }
  destruct h as [r| |]; simpl in Hrun.
  - by rewrite loop_returned_stuck in Hrun.
  - destruct (IH _ _ Hrun). by split; [|constructor].
  - destruct (IH _ _ Hrun). by split; [|constructor].
Qed.

Lemma loop_lastErr cr dr g r g' :
  loop cr dr g r = Some g' → returned g' = false →
  lastErr g' = match r with Done e => e | _ => lastErr g end.
Proof.
  unfold loop, returned.
  destruct (at_ g), r as [| |[e|]|], cr, dr; intros; by simplify_eq/=.
Qed.

Lemma loop_return cr dr g r g' e :
  loop cr dr g r = Some g' → at_ g' = Returned e →
  (r = Done None ∧ e = None)
  ∨ (r = Closed ∧ cr = true ∧ e = lastErr g)
  ∨ (r = Dying ∧ dr = true ∧ e = lastErr g).
Proof.
  unfold loop.
  destruct (at_ g), r as [| |[e'|]|], cr, dr; intros; simplify_eq/=; eauto.
Qed.

Lemma run_return g cr dr hs g' cr' dr' e :
  run (g, cr, dr) hs = Some (g', cr', dr') →
  returned g = false → at_ g' = Returned e →
  ∃ hs1 r hs2,
    hs = hs1 ++ Take r :: hs2 ∧ Forall (λ h, is_signal h = true) hs2 ∧
    ((r = Done None ∧ e = None)
     ∨ (r = Closed ∧ (cr = true ∨ CloseSignal ∈ hs1) ∧ e = observed (lastErr g) hs1)
     ∨ (r = Dying ∧ (dr = true ∨ KillSignal ∈ hs1) ∧ e = observed (lastErr g) hs1)).
Proof.
  revert g cr dr. induction hs as [|h hs IH]; intros g cr dr Hrun Hg Hret.
  { simplify_eq/=. unfold returned in Hg. by rewrite Hret in Hg. }
  destruct h as [r| |]; simpl in Hrun.
  - destruct (loop cr dr g r) as [g1|] eqn:Hloop; [|done].
    destruct (returned g1) eqn:Hg1.
    + destruct (run_after_return _ _ _ _ _ _ _ Hg1 Hrun) as [-> Hsig].
      exists [], r, hs. split_and!; [done..|].
      destruct (loop_return _ _ _ _ _ _ Hloop Hret) as [?|[(?&?&?)|(?&?&?)]];
        naive_solver.
    + destruct (IH _ _ _ Hrun Hg1 Hret) as (hs1 & r' & hs2 & -> & Hsig & Hcase).
      exists (Take r :: hs1), r', hs2. split_and!; [done..|].
      assert (observed (lastErr g) (Take r :: hs1) = observed (lastErr g1) hs1) as ->.
      { rewrite (loop_lastErr _ _ _ _ _ Hloop Hg1). by destruct r. }
      set_solver.
  - destruct (IH _ _ _ Hrun Hg Hret) as (hs1 & r' & hs2 & -> & Hsig & Hcase).
    exists (CloseSignal :: hs1), r', hs2. split_and!; [done..|].
    simpl. set_solver.
  - destruct (IH _ _ _ Hrun Hg Hret) as (hs1 & r' & hs2 & -> & Hsig & Hcase).
    exists (KillSignal :: hs1), r', hs2. split_and!; [done..|].
    simpl. set_solver.
Qed.

Lemma run_lastErr g0 cr0 dr0 hs g cr dr :
  run (g0, cr0, dr0) hs = Some (g, cr, dr) → returned g = false →
  lastErr g = observed (lastErr g0) hs.
Proof.
  revert g0 cr0 dr0. induction hs as [|h hs IH]; intros g0 cr0 dr0 Hrun Hg.
  { by simplify_eq/=. }
  destruct h as [r| |]; simpl in Hrun; [|by eapply IH..].
  destruct (loop cr0 dr0 g0 r) as [g1|] eqn:Hloop; [|done].
  destruct (returned g1) eqn:Hg1.
  - destruct (run_after_return _ _ _ _ _ _ _ Hg1 Hrun) as [? _]. congruence.
  - rewrite (IH _ _ _ Hrun Hg), (loop_lastErr _ _ _ _ _ Hloop Hg1). by destruct r.
Qed.

Lemma run_signals g0 cr0 dr0 hs g cr dr :
  run (g0, cr0, dr0) hs = Some (g, cr, dr) →
  (cr = true ↔ cr0 = true ∨ CloseSignal ∈ hs)
  ∧ (dr = true ↔ dr0 = true ∨ KillSignal ∈ hs).
Proof.
  revert g0 cr0 dr0. induction hs as [|h hs IH]; intros g0 cr0 dr0 Hrun.
  { simplify_eq/=. set_solver. }
  destruct h as [r| |]; simpl in Hrun.
  - destruct (loop cr0 dr0 g0 r) as [g1|]; [|done].
    destruct (IH _ _ _ Hrun) as [-> ->]. set_solver.
  - destruct (IH _ _ _ Hrun) as [-> ->]. set_solver.
  - destruct (IH _ _ _ Hrun) as [-> ->]. set_solver.
Qed.

Lemma run_failures g cr dr es :
  at_ g = InAttempt →
  run (g, cr, dr) (failures es) =
    Some ({| self := self g;
             lastErr := from_option Some (lastErr g) (last es);
             at_ := InAttempt;
             did := did g ++ (es ≫= λ _, [Sleep (checkDelay (self g)); attempt (self g)]) |},
          cr, dr).
Proof.
  revert g. induction es as [|e es IH]; intros g Hg.
  { simpl. rewrite app_nil_r. by destruct g; simplify_eq/=. }
  unfold failures. rewrite bind_cons. simpl. unfold loop at 1. rewrite Hg. simpl.
  fold (failures es). rewrite IH; [|done]. simpl.
  do 3 f_equal.
  assert (from_option Some (Some e) (last es)
          = from_option Some (lastErr g) (last (e :: es))) as ->.
  { destruct es as [|e' es]; [done|]. rewrite last_cons_cons.
    destruct (last (e' :: es)) eqn:Hlast; [done|]. by apply last_None in Hlast. }
  by rewrite <- app_assoc.
Qed.

Lemma run_app s hs1 hs2 :
  run s (hs1 ++ hs2) = run s hs1 ≫= λ s', run s' hs2.
Proof.
  revert s. induction hs1 as [|h hs1 IH]; intros s; [done|].
  simpl. by destruct (happen s h).
Qed.

Lemma run_cancel g cr dr r :
  returned g = false →
  (r = Closed ∧ cr = true) ∨ (r = Dying ∧ dr = true) →
  ∃ g', run (g, cr, dr) (cancel r g) = Some (g', cr, dr)
        ∧ at_ g' = Returned (lastErr g)
        ∧ filter (λ a, Is_true (is_sleep a)) (did g')
          = filter (λ a, Is_true (is_sleep a)) (did g).
Proof.
  unfold returned, cancel. intros Hg [[-> ->]|[-> ->]];
    destruct (at_ g) eqn:Hat; try done; simpl; unfold loop; rewrite Hat; simpl;
    eexists; (split_and!; [reflexivity|done|]); simpl;
    rewrite ?filter_app, ?app_nil_r; done.
Qed.

End Loop_properties.

Lemma run_self g0 cr0 dr0 hs g cr dr :
  hostChecker.run (g0, cr0, dr0) hs = Some (g, cr, dr) →
  hostChecker.self g = hostChecker.self g0.
Proof.
  revert g0 cr0 dr0. induction hs as [|h hs IH]; intros g0 cr0 dr0 Hrun.
  { by simplify_eq/=. }
  destruct h as [r| |]; simpl in Hrun; [|by eapply IH..].
  destruct (hostChecker.loop cr0 dr0 g0 r) as [g1|] eqn:Hloop; [|done].
  rewrite (IH _ _ _ Hrun). unfold hostChecker.loop in Hloop.
  by destruct (hostChecker.at_ g0), r as [| |[e|]|], cr0, dr0; simplify_eq/=.
Qed.

(** C4.  A probe retries without end: after any number of failed attempts,
    each followed by the full [checkDelay], it is in its next attempt; a
    failed attempt, whenever it comes, takes the probe to the delay with that
    error as its last.  A successful attempt ends the probe: its [loop]
    returns nil, whatever failed before, and takes no case afterwards.  The
    [loop] returns only in that way, or when it takes its [closed] or the
    [dying] signal after that signal was closed, and then with the result of
    the last attempt it saw complete, nil if it saw none.  Once a signal is
    closed the probe can return from where it is without sleeping. *)
Theorem hostChecker_loop_retries_until_stopped (hc : hostChecker.t) :
  (∀ es : list error,
     hostChecker.run (hostChecker.fresh hc) (hostChecker.failures es) =
       Some ({| hostChecker.self := hc;
                hostChecker.lastErr := last es;
                hostChecker.at_ := hostChecker.InAttempt;
                hostChecker.did :=
                  hostChecker.attempt hc ::
                  (es ≫= λ _, [hostChecker.Sleep (hostChecker.checkDelay hc);
                                hostChecker.attempt hc]) |},
             false, false))
  ∧ (∀ hs g cr dr e,
       hostChecker.run (hostChecker.fresh hc) hs = Some (g, cr, dr) →
       hostChecker.at_ g = hostChecker.Returned e →
       ∃ hs1 r hs2,
         hs = hs1 ++ hostChecker.Take r :: hs2
         ∧ Forall (λ h, hostChecker.is_signal h = true) hs2
         ∧ ((r = hostChecker.Done None ∧ e = None)
            ∨ (r = hostChecker.Closed ∧ hostChecker.CloseSignal ∈ hs1
               ∧ e = hostChecker.observed None hs1)
            ∨ (r = hostChecker.Dying ∧ hostChecker.KillSignal ∈ hs1
               ∧ e = hostChecker.observed None hs1)))
  ∧ (∀ hs g cr dr r,
       hostChecker.run (hostChecker.fresh hc) hs = Some (g, cr, dr) →
       hostChecker.returned g = false →
       (r = hostChecker.Closed ∧ hostChecker.CloseSignal ∈ hs)
       ∨ (r = hostChecker.Dying ∧ hostChecker.KillSignal ∈ hs) →
       ∃ g',
         hostChecker.run (hostChecker.fresh hc) (hs ++ hostChecker.cancel r g)
           = Some (g', cr, dr)
         ∧ hostChecker.at_ g' = hostChecker.Returned (hostChecker.observed None hs)
         ∧ filter (λ a, Is_true (hostChecker.is_sleep a)) (hostChecker.did g')
           = filter (λ a, Is_true (hostChecker.is_sleep a)) (hostChecker.did g))
  ∧ (∀ hs, (∀ e, hostChecker.Take (hostChecker.Done e) ∉ hs) →
           hostChecker.observed None hs = None)
  ∧ (∀ hs g cr dr,
       hostChecker.run (hostChecker.fresh hc) hs = Some (g, cr, dr) →
       hostChecker.at_ g = hostChecker.InAttempt →
       hostChecker.run (hostChecker.fresh hc)
         (hs ++ [hostChecker.Take (hostChecker.Done None)])
       = Some ({| hostChecker.self := hc;
                  hostChecker.lastErr := None;
                  hostChecker.at_ := hostChecker.Returned None;
                  hostChecker.did := hostChecker.did g |}, cr, dr)
       ∧ (∀ r hs',
            hostChecker.run (hostChecker.fresh hc)
              (hs ++ hostChecker.Take (hostChecker.Done None)
                  :: hostChecker.Take r :: hs') = None)
       ∧ ∀ e,
           hostChecker.run (hostChecker.fresh hc)
             (hs ++ [hostChecker.Take (hostChecker.Done (Some e))])
           = Some ({| hostChecker.self := hc;
                      hostChecker.lastErr := Some e;
                      hostChecker.at_ := hostChecker.InDelay;
                      hostChecker.did := hostChecker.did g |}, cr, dr)).
Proof.
  split_and!.
  5:{ intros hs g cr dr Hrun Hat.
      pose proof (run_self _ _ _ _ _ _ _ Hrun) as Hself. simpl in Hself.
      split_and!.
      - rewrite run_app, Hrun. simpl. unfold hostChecker.loop. by rewrite Hat, Hself.
      - intros r hs'. rewrite run_app, Hrun. simpl.
        unfold hostChecker.loop at 1. rewrite Hat. simpl.
        unfold hostChecker.loop. simpl. by destruct r.
      - intros e. rewrite run_app, Hrun. simpl.
        unfold hostChecker.loop. by rewrite Hat, Hself. }
  - intros es. unfold hostChecker.fresh.
    rewrite run_failures; [|done]. simpl. by destruct (last es).
  - intros hs g cr dr e Hrun Hret.
    destruct (run_return _ _ _ _ _ _ _ _ Hrun eq_refl Hret)
      as (hs1 & r & hs2 & -> & Hsig & Hcase).
    exists hs1, r, hs2. split_and!; [done..|]. naive_solver.
  - intros hs g cr dr r Hrun Hg Hr.
    pose proof (run_lastErr _ _ _ _ _ _ _ Hrun Hg) as Hlast.
    destruct (run_signals _ _ _ _ _ _ _ Hrun) as [Hcr Hdr].
    destruct (run_cancel g cr dr r Hg) as (g' & Hrun' & Hret & Hdid).
    { destruct Hr as [[-> ?]|[-> ?]]; [left|right]; naive_solver. }
    simpl in Hlast. exists g'. rewrite run_app, Hrun. simpl.
    split_and!; [done| |done]. by rewrite <- Hlast.
  - intros hs Hhs. induction hs as [|h hs IH]; [done|].
    destruct h as [[| |e|]| |]; simpl; try (apply IH; set_solver).
    exfalso. apply (Hhs e). set_solver.
Qed.

Lemma hostChecker_loop_retries_until_stopped_witness :
  let failed := [hostChecker.Take (hostChecker.Done (Some (Err "nonce.txt does not exist")));
                 hostChecker.Take hostChecker.After] in
  let hs := failed ++ [hostChecker.CloseSignal] in
  hostChecker.run (hostChecker.fresh hc_private) hs = Some (g_retrying, true, false)
  ∧ hostChecker.returned g_retrying = false
  ∧ hostChecker.CloseSignal ∈ hs
  ∧ (∃ g',
      hostChecker.run (hostChecker.fresh hc_private)
        (hs ++ [hostChecker.Take hostChecker.Closed]) = Some (g', true, false)
      ∧ hostChecker.at_ g' = hostChecker.Returned (Some (Err "nonce.txt does not exist"))
      ∧ filter (λ a, Is_true (hostChecker.is_sleep a)) (hostChecker.did g')
        = [hostChecker.Sleep 5000000000%Z])
  ∧ hostChecker.run (hostChecker.fresh hc_private) failed
    = Some (g_retrying, false, false)
  ∧ hostChecker.at_ g_retrying = hostChecker.InAttempt
  ∧ hostChecker.run (hostChecker.fresh hc_private)
      (failed ++ [hostChecker.Take (hostChecker.Done None)])
    = Some ({| hostChecker.self := hc_private;
               hostChecker.lastErr := None;
               hostChecker.at_ := hostChecker.Returned None;
               hostChecker.did := hostChecker.did g_retrying |}, false, false).
Proof.
  intros failed hs.
  assert (hostChecker.CloseSignal ∈ hs) as Hin by (do 2 right; left).
  destruct (hostChecker_loop_retries_until_stopped hc_private)
    as (_ & _ & Hcancel & _ & Hsuccess).
  split_and!; [reflexivity | reflexivity | exact Hin | | reflexivity | reflexivity |].
  - exact (Hcancel hs g_retrying true false hostChecker.Closed
             eq_refl eq_refl (or_introl (conj eq_refl Hin))).
  - exact (proj1 (Hsuccess failed g_retrying false false eq_refl eq_refl)).
Defined.

(** Stopped before any attempt has completed, the probe returns nil; stopped
    in the delay after a failure, it returns that failure. *)
Example loop_stopped_early :
  hostChecker.run (hostChecker.fresh hc_private)
    [hostChecker.KillSignal; hostChecker.Take hostChecker.Dying]
  = Some (hostChecker.ret (hostChecker.start hc_private) None, false, true)
  ∧ ∃ g, hostChecker.run (hostChecker.fresh hc_private)
           [hostChecker.Take (hostChecker.Done (Some (Err "connection refused")));
            hostChecker.CloseSignal;
            hostChecker.Take hostChecker.Closed; hostChecker.Take hostChecker.Closed]
         = Some (g, true, false)
         ∧ hostChecker.at_ g = hostChecker.Returned (Some (Err "connection refused"))
         ∧ hostChecker.did g = [hostChecker.Attempt "10.0.0.5" "exit 1";
                                hostChecker.Attempt "10.0.0.5" "exit 1"].
Proof. split; [reflexivity|]. eexists. by vm_compute. Qed.

(** ** parallelHostChecker.UpdateAddresses *)

Section UpdateAddresses_properties.
Import parallelHostChecker.

Lemma UpdateAddress_tracked p a :
  a ∈ dom (active p) → UpdateAddress p a = p.
Proof.
  intros [c Hc]%elem_of_dom. unfold UpdateAddress. by rewrite Hc.
Qed.


Lemma untracked_spec seen addrs :
  NoDup (untracked seen addrs)
  ∧ ∀ a, a ∈ untracked seen addrs ↔ a ∈ addrs ∧ a ∉ seen.
Proof.
  revert seen. induction addrs as [|b addrs IH]; intros seen; simpl.
  { split; [constructor | set_solver]. }
  destruct (decide (b ∈ seen)) as [Hb|Hb].
  - destruct (IH seen) as [Hnd Hin]. split; [done|]. set_solver.
  - destruct (IH ({[b]} ∪ seen)) as [Hnd Hin]. split.
    + constructor; [|done]. rewrite Hin. set_solver.
    + intros a. rewrite elem_of_cons, Hin.
      destruct (decide (a = b)); set_solver.
Qed.

(** [UpdateAddresses] in closed form. *)
Lemma UpdateAddresses_closed_form p addrs :
  let new := untracked (dom (active p)) addrs in
  UpdateAddresses p addrs =
    {| Try := foldl Try.Start (Try p) (checkers_for p new);
       stderr := stderr p ++ (notice <$> new);
       wg := wg p + length new;
       active := list_to_map (imap (λ i a, (a, length (heap p) + i)) new) ∪ active p;
       checkDelay := checkDelay p;
       checkHostScript := checkHostScript p;
       heap := heap p ++ replicate (length new) false |}.
Proof.
  unfold UpdateAddresses, checkers_for.
  revert p. induction addrs as [|a addrs IH]; intros p; simpl.
  { rewrite !app_nil_r, Nat.add_0_r, (left_id_L ∅ (∪)). by destruct p. }
  destruct (decide (a ∈ dom (active p))) as [Ha|Ha].
  { rewrite UpdateAddress_tracked by done. apply IH. }
  apply not_elem_of_dom in Ha.
  assert (UpdateAddress p a =
    {| Try := Try.Start (Try p) (checker_for p a (length (heap p)));
       stderr := stderr p ++ [notice a];
       wg := S (wg p);
       active := <[a := length (heap p)]> (active p);
       checkDelay := checkDelay p;
       checkHostScript := checkHostScript p;
       heap := heap p ++ [false] |}) as ->.
  { unfold UpdateAddress. by rewrite Ha. }
  rewrite IH. simpl.
  rewrite dom_insert_L, length_app, Nat.add_0_r. simpl.
  set (new := untracked ({[a]} ∪ dom (active p)) addrs).
  f_equal.
  - f_equal. apply imap_ext. intros i b _. simpl. unfold checker_for. simpl.
    f_equal. lia.
  - by rewrite <- app_assoc.
  - lia.
  - rewrite <- insert_union_l.
    assert (a ∉ new) as Hnew.
    { intros Hin. apply untracked_spec in Hin. set_solver. }
    rewrite <- insert_union_r.
    + do 3 f_equal. apply imap_ext. intros i b _. simpl. f_equal. lia.
    + apply not_elem_of_list_to_map_1. intros Hin. apply Hnew. revert Hin. clear.
      generalize (length (heap p) + 1). induction new as [|b new IH]; intros n; [done|].
      rewrite imap_cons. simpl. rewrite !elem_of_cons. intros [->|Hin]; [by left|].
      right. eapply (IH (S n)). erewrite imap_ext; [exact Hin|].
      intros; simpl; f_equal; lia.
  - by rewrite <- app_assoc.
Qed.

Lemma fst_imap_pair {A B} (f : nat → A → B) (l : list A) :
  (imap (λ i a, (a, f i a)) l).*1 = l.
Proof.
  revert f. induction l as [|a l IH]; intros f; [done|].
  rewrite imap_cons. simpl. f_equal. apply (IH (λ i, f (S i))).
Qed.



Lemma UpdateAddresses_active p addrs :
  dom (active (UpdateAddresses p addrs)) = dom (active p) ∪ list_to_set addrs
  ∧ (∀ a c, active p !! a = Some c → active (UpdateAddresses p addrs) !! a = Some c)
  ∧ untracked (dom (active p)) addrs ⊆ addrs.
Proof.
  destruct (untracked_spec (dom (active p)) addrs) as [_ Hin].
  rewrite UpdateAddresses_closed_form. simpl. split_and!.
  - rewrite dom_union_L, dom_list_to_map_L, fst_imap_pair.
    apply set_eq. intros a. rewrite !elem_of_union, !elem_of_list_to_set, Hin.
    destruct (decide (a ∈ dom (active p))); naive_solver.
  - intros a c Hac. rewrite lookup_union_r; [done|].
    apply not_elem_of_list_to_map_1. rewrite fst_imap_pair.
    intros Ha%Hin. apply Ha, elem_of_dom. eauto.
  - intros a Ha%Hin. tauto.
Qed.

End UpdateAddresses_properties.




(** The claim of C6 fails where the Try has a result.  In a run of
    [waitSSH] the private address comes in and its first attempt succeeds;
    [waitSSH] is still in its [select], where a poll can come before the
    [checker.Dead()] case.  [UpdateAddresses] with the public address then
    writes the line, counts the address and makes it a key, and no probe is
    started for it. *)
Lemma UpdateAddresses_no_probe_after_success :
  ∃ s,
    waitSSH.run (H0 := seconds) timeout30
      (waitSSH.init timeout30 [] "exit 1" (no_calls [(None, ([addr_private], None))]))
      [waitSSH.PollAddresses; waitSSH.Probe 0 (hostChecker.Done None)] = Some s
    ∧ waitSSH.at_ s = waitSSH.Select
    ∧ parallelHostChecker.active (waitSSH.checker s) !! addr_public = None
    ∧ let p' := parallelHostChecker.UpdateAddresses (waitSSH.checker s) [addr_public] in
      parallelHostChecker.active p' !! addr_public = Some 1
      ∧ parallelHostChecker.stderr p'
        = parallelHostChecker.stderr (waitSSH.checker s)
          ++ ["Attempting to connect to 54.1.2.3:22" +:+ nl]
      ∧ parallelHostChecker.wg p' = S (parallelHostChecker.wg (waitSSH.checker s))
      ∧ Try.procs (parallelHostChecker.Try p')
        = Try.procs (parallelHostChecker.Try (waitSSH.checker s))
      ∧ (hostChecker.addr ∘ hostChecker.self
           <$> Try.procs (parallelHostChecker.Try p')) = [addr_private].
Proof. eexists. split; [by vm_compute|]. by vm_compute. Qed.

(** Two addresses, one of them twice: two notices, two probes, two keys. *)
Example UpdateAddresses_twice_in_list :
  let p := parallelHostChecker.UpdateAddresses checker0
             [addr_private; addr_public; addr_private] in
  parallelHostChecker.stderr p
    = ["Attempting to connect to 10.0.0.5:22" +:+ nl;
       "Attempting to connect to 54.1.2.3:22" +:+ nl]
  ∧ (hostChecker.self <$> Try.procs (parallelHostChecker.Try p))
    = [hc_private;
       {| hostChecker.addr := addr_public; hostChecker.checkDelay := 5000000000%Z;
          hostChecker.checkHostScript := "exit 1"; hostChecker.closed := 1 |}]
  ∧ parallelHostChecker.wg p = 2
  ∧ parallelHostChecker.heap p = [false; false]
  ∧ parallelHostChecker.active p !! addr_private = Some 0
  ∧ parallelHostChecker.active p !! addr_public = Some 1.
Proof. vm_compute. done. Qed.

(** The same value under two scopes is two addresses: each is tracked and
    probed, and the two notices read the same. *)
Example UpdateAddresses_same_value_two_scopes :
  parallelHostChecker.stderr
    (parallelHostChecker.UpdateAddresses checker0
       [{| Value := "10.0.0.5"; AddressScope := ScopePublic |};
        {| Value := "10.0.0.5"; AddressScope := ScopeCloudLocal |}])
  = ["Attempting to connect to 10.0.0.5:22" +:+ nl;
     "Attempting to connect to 10.0.0.5:22" +:+ nl].
Proof. vm_compute. done. Qed.

(** ** parallelHostChecker.Close *)

Section Close_properties.
Import parallelHostChecker.

Lemma close_all_open h cs :
  NoDup cs → (∀ c, c ∈ cs → h !! c = Some false) →
  ∃ h', close_all h cs = Ok h'
        ∧ ∀ c, h' !! c = if decide (c ∈ cs) then Some true else h !! c.
Proof.
  revert h. induction cs as [|c cs IH]; intros h Hnd Hopen.
  { exists h. split; [done|]. intros c. case_decide; [set_solver|done]. }
  apply NoDup_cons in Hnd as [Hc Hnd].
  simpl. unfold close. rewrite (Hopen c) by set_solver.
  destruct (IH (<[c := true]> h) Hnd) as (h' & -> & Hh').
  { intros c' Hc'. rewrite list_lookup_insert_ne by set_solver.
    apply Hopen. set_solver. }
  exists h'. split; [done|]. intros x. rewrite Hh'.
  destruct (decide (x = c)) as [->|Hx].
  - rewrite list_lookup_insert_eq
      by (eapply lookup_lt_Some, (Hopen c); set_solver).
    repeat case_decide; set_solver.
  - rewrite list_lookup_insert_ne by done.
    repeat case_decide; set_solver.
Qed.

Lemma close_all_inv h cs h' :
  close_all h cs = Ok h' →
  NoDup cs ∧ (∀ c, c ∈ cs → h !! c = Some false).
Proof.
  revert h. induction cs as [|c cs IH]; intros h Hok; simpl in Hok.
  { split; [constructor | set_solver]. }
  unfold close in Hok. destruct (h !! c) as [[]|] eqn:Hc; try done.
  destruct (IH _ Hok) as [Hnd Hopen].
  assert (c ∉ cs) as Hfresh.
  { intros Hin. specialize (Hopen c Hin).
    rewrite list_lookup_insert_eq in Hopen; [done|]. by eapply lookup_lt_Some. }
  split; [by constructor|].
  intros c' [->|Hc']%elem_of_cons; [done|].
  rewrite <- (Hopen c' Hc'). symmetry. apply list_lookup_insert_ne. set_solver.
Qed.

(** The order in which the signals are closed does not matter. *)
Lemma close_all_Permutation h cs cs' h' :
  cs ≡ₚ cs' → close_all h cs = Ok h' → close_all h cs' = Ok h'.
Proof.
  intros Hperm Hok. destruct (close_all_inv _ _ _ Hok) as [Hnd Hopen].
  destruct (close_all_open h cs Hnd Hopen) as (h1 & Hh1 & Hlook1).
  destruct (close_all_open h cs') as (h2 & Hh2 & Hlook2).
  { by rewrite <- Hperm. }
  { intros c Hc. apply Hopen. by rewrite Hperm. }
  rewrite Hh2. rewrite Hok in Hh1. simplify_eq. f_equal.
  apply list_eq. intros c. rewrite Hlook1, Hlook2.
  destruct (decide (c ∈ cs)) as [Hc|Hc], (decide (c ∈ cs')) as [Hc'|Hc'];
    try done; exfalso.
  - apply Hc'. by rewrite <- Hperm.
  - apply Hc. by rewrite Hperm.
Qed.

Lemma tracked_signals p :
  signals_open p →
  NoDup (map_to_list (active p)).*2
  ∧ ∀ c, c ∈ (map_to_list (active p)).*2 ↔ ∃ a, active p !! a = Some c.
Proof.
  intros [Hopen Hinj]. split.
  - apply NoDup_fmap_2_strong; [|apply NoDup_map_to_list].
    intros [a c] [b c'] Ha%elem_of_map_to_list Hb%elem_of_map_to_list ?.
    simplify_eq/=. f_equal. eauto.
  - intros c. rewrite list_elem_of_fmap. split.
    + intros ([a c'] & -> & Ha%elem_of_map_to_list). eauto.
    + intros [a Ha]. exists (a, c). by rewrite elem_of_map_to_list.
Qed.


Lemma UpdateAddress_signals_open p a :
  signals_open p → signals_open (UpdateAddress p a).
Proof.
  intros [Hopen Hinj]. unfold UpdateAddress.
  destruct (active p !! a) as [c|] eqn:Ha; [done|].
  split; simpl.
  - intros b c. rewrite lookup_insert. case_decide as Hab.
    + intros [= <-]. by rewrite lookup_app_r, Nat.sub_diag.
    + intros Hb%Hopen. by rewrite lookup_app_l by (by eapply lookup_lt_Some).
  - intros b b' c. rewrite !lookup_insert.
    repeat case_decide; intros Hb Hb'; simplify_eq; try done.
    + apply Hopen, lookup_lt_Some in Hb'. lia.
    + apply Hopen, lookup_lt_Some in Hb. lia.
    + eauto.
Qed.


Lemma Close_signals_open p :
  signals_open p →
  ∃ p1, Close p = Ok (p1, None) ∧ active p1 = active p
        ∧ Try p1 = Try.Close (Try p) ∧ stderr p1 = stderr p.
Proof.
  intros Hp. destruct (tracked_signals p Hp) as [Hnd Hin].
  destruct (close_all_open (heap p) (map_to_list (active p)).*2 Hnd)
    as (h' & Hh' & _).
  { intros c [a Ha]%Hin. by apply (proj1 Hp a). }
  eexists. unfold Close. simpl. rewrite Hh'. done.
Qed.

End Close_properties.




(** With nothing tracked, closing twice is closing once. *)
Example Close_twice_nothing_tracked :
  ∃ p1, parallelHostChecker.Close checker0 = Ok (p1, None)
        ∧ parallelHostChecker.Close p1 = Ok (p1, None).
Proof. eexists. split; vm_compute; reflexivity. Qed.

(** ** waitSSH *)

Section WaitSSH_properties.
Context {I : Type} `{addresser I} `{DurationString}.
Variable timeout : SSHTimeoutOpts.
Import waitSSH.

Lemma step_Step s ev s' : step timeout s ev = Some s' ↔ Step timeout s ev s'.
Proof.
  split.
  - unfold step. intros Hstep.
    destruct ev, (at_ s) eqn:Hat; try done;
      repeat match type of Hstep with
             | context [let '(_, _) := ?x in _] => destruct x as [? ?] eqn:?
             | context [match ?x with _ => _ end] => destruct x eqn:?
             | (_ ≫= _) = Some _ => apply bind_Some in Hstep as (? & ? & Hstep)
             end; simplify_eq/=;
      try (by eauto using Step); rewrite <- Hat; eauto using Step.
  - destruct 1; unfold step;
      repeat match goal with
             | H : _ = _ |- _ => rewrite H; clear H
             end; simpl; try done;
      repeat match goal with
             | |- context [match ?x with _ => _ end] => destruct x
             end; done.
Qed.

Lemma loop_self cr dr g r g' :
  hostChecker.loop cr dr g r = Some g' → hostChecker.self g' = hostChecker.self g.
Proof.
  unfold hostChecker.loop.
  destruct (hostChecker.at_ g), r as [| |[e|]|], cr, dr; intros; by simplify_eq/=.
Qed.

Lemma probe_inv p i r p' :
  parallelHostChecker.probe p i r = Some p' →
  ∃ g g',
    Try.procs (parallelHostChecker.Try p) !! i = Some g
    ∧ hostChecker.loop
        (bool_decide (parallelHostChecker.heap p !! hostChecker.closed (hostChecker.self g)
                      = Some true))
        (Try.Dying (parallelHostChecker.Try p)) g r = Some g'
    ∧ parallelHostChecker.active p' = parallelHostChecker.active p
    ∧ parallelHostChecker.heap p' = parallelHostChecker.heap p
    ∧ parallelHostChecker.stderr p' = parallelHostChecker.stderr p
    ∧ parallelHostChecker.Try p' =
        Try.with_procs
          (match hostChecker.at_ g' with
           | hostChecker.Returned e =>
               Try.report (parallelHostChecker.Try p) (hostChecker.self g') e
           | _ => parallelHostChecker.Try p
           end)
          (<[i := g']> (Try.procs (parallelHostChecker.Try p))).
Proof.
  unfold parallelHostChecker.probe. intros Hp.
  apply bind_Some in Hp as (g & Hg & Hp).
  apply bind_Some in Hp as (g' & Hg' & Hp).
  exists g, g'. split_and!; [done..| | | |];
    destruct (hostChecker.at_ g'); by simplify_eq/=.
Qed.

Lemma Dead_open tr :
  Try.closed tr = false → Try.killed tr = false →
  Try.Dead tr = bool_decide (is_Some (Try.result tr)).
Proof. unfold Try.Dead. intros -> ->. by rewrite !orb_false_r. Qed.

Lemma Start_open tr hc :
  Try.closed tr = false → Try.killed tr = false →
  Try.closed (Try.Start tr hc) = false
  ∧ Try.killed (Try.Start tr hc) = false
  ∧ Try.result (Try.Start tr hc) = Try.result tr
  ∧ (Try.procs (Try.Start tr hc) = Try.procs tr ++ [hostChecker.start hc]
     ∨ Try.procs (Try.Start tr hc) = Try.procs tr)
  ∧ (Try.result tr = None →
     Try.procs (Try.Start tr hc) = Try.procs tr ++ [hostChecker.start hc]).
Proof.
  intros Hc Hk. unfold Try.Start. rewrite Hc, (Dead_open tr Hc Hk). simpl.
  case_bool_decide as Hres; simpl; split_and!; auto.
  intros Hnone. rewrite Hnone in Hres. by destruct Hres.
Qed.

Lemma UpdateAddress_racing passes p a :
  racing passes p → racing passes (parallelHostChecker.UpdateAddress p a).
Proof.
  intros (Hc & Hk & Hopen & Hheap & Hprocs & Hres & Hrun).
  pose proof (UpdateAddress_signals_open p a Hopen) as Hopen'.
  unfold parallelHostChecker.UpdateAddress in *.
  destruct (parallelHostChecker.active p !! a) as [c|] eqn:Ha.
  { by split_and!. }
  set (hc := parallelHostChecker.checker_for p a _) in *.
  destruct (Start_open (parallelHostChecker.Try p) hc Hc Hk)
    as (Hc' & Hk' & Hres' & Hprocs' & Hrun').
  unfold racing. simpl. rewrite Hres', dom_insert_L.
  split_and!; try done.
  - intros c b [?|[_ Hb]]%lookup_app_Some; [by eauto|].
    by destruct (c - _); simplify_eq/=.
  - intros i g. destruct Hprocs' as [-> | ->].
    + intros [Hg|[_ Hg]]%lookup_app_Some.
      * apply Hprocs in Hg. set_solver.
      * destruct (i - _); simplify_eq/=. set_solver.
    + intros Hg%Hprocs. set_solver.
  - intros hc' [? ?]%Hres. split; [done | set_solver].
  - intros Hnone b Hb. rewrite (Hrun' Hnone).
    apply elem_of_union in Hb as [->%elem_of_singleton | Hb].
    + exists (length (Try.procs (parallelHostChecker.Try p))), (hostChecker.start hc).
      by rewrite lookup_app_r, Nat.sub_diag.
    + destruct (Hrun Hnone b Hb) as (i & g & Hg & ? & ?).
      exists i, g. split_and!; [|done..]. by apply lookup_app_l_Some.
Qed.

Lemma UpdateAddresses_racing passes p addrs :
  racing passes p → racing passes (parallelHostChecker.UpdateAddresses p addrs).
Proof.
  unfold parallelHostChecker.UpdateAddresses. revert p.
  induction addrs as [|a addrs IH]; intros p Hp; [done|].
  simpl. by apply IH, UpdateAddress_racing.
Qed.

Lemma insert_keeps_tracked (D : gset Address)
    (procs : list hostChecker.goroutine) (i : nat) g g' :
  procs !! i = Some g → hostChecker.self g' = hostChecker.self g →
  (∀ j gj, procs !! j = Some gj → hostChecker.addr (hostChecker.self gj) ∈ D) →
  ∀ j gj, <[i := g']> procs !! j = Some gj →
          hostChecker.addr (hostChecker.self gj) ∈ D.
Proof.
  intros Hg Hself Hprocs j gj. rewrite list_lookup_insert_Some.
  intros [(-> & -> & _)|[_ Hj]]; [rewrite Hself|]; eauto.
Qed.

Lemma insert_keeps_running (D : gset Address)
    (procs : list hostChecker.goroutine) (i : nat) g g' :
  procs !! i = Some g → hostChecker.self g' = hostChecker.self g →
  hostChecker.returned g' = false →
  (∀ a, a ∈ D → ∃ j gj, procs !! j = Some gj
                        ∧ hostChecker.addr (hostChecker.self gj) = a
                        ∧ hostChecker.returned gj = false) →
  ∀ a, a ∈ D → ∃ j gj, <[i := g']> procs !! j = Some gj
                       ∧ hostChecker.addr (hostChecker.self gj) = a
                       ∧ hostChecker.returned gj = false.
Proof.
  intros Hg Hself Hret Hrun a Ha.
  destruct (Hrun a Ha) as (j & gj & Hj & Haddr & Hretj).
  destruct (decide (j = i)) as [->|Hne].
  - exists i, g'. rewrite list_lookup_insert_eq by (by eapply lookup_lt_Some).
    split_and!; [done| |done]. rewrite Hself. congruence.
  - exists j, gj. by rewrite list_lookup_insert_ne.
Qed.

Lemma probe_racing passes p i r p' :
  racing passes p →
  (r = hostChecker.Done None →
   ∀ g, Try.procs (parallelHostChecker.Try p) !! i = Some g →
        passes (hostChecker.addr (hostChecker.self g)) = true) →
  parallelHostChecker.probe p i r = Some p' →
  racing passes p'.
Proof.
  intros (Hc & Hk & Hopen & Hheap & Hprocs & Hres & Hrun) Hallowed Hp.
  destruct (probe_inv _ _ _ _ Hp) as (g & g' & Hg & Hloop & Hact & Hh & _ & HTry).
  pose proof (loop_self _ _ _ _ _ Hloop) as Hself.
  assert (Try.Dying (parallelHostChecker.Try p) = false) as Hdying by done.
  rewrite Hdying, bool_decide_eq_false_2 in Hloop.
  2:{ intros Hclosed. by apply Hheap in Hclosed. }
  assert (parallelHostChecker.signals_open p') as Hopen'.
  { unfold parallelHostChecker.signals_open. by rewrite Hact, Hh. }
  pose proof (insert_keeps_tracked _ _ _ _ _ Hg Hself Hprocs) as Hprocs'.
  unfold racing. rewrite Hact, Hh, HTry.
  destruct (hostChecker.at_ g') as [| |e] eqn:Hat'.
  1-2: (* still running *)
    simpl; split_and!; try done;
    intros Hnone; eapply insert_keeps_running; eauto;
    unfold hostChecker.returned; by rewrite Hat'.
  (* returned: an attempt succeeded *)
  destruct (loop_return _ _ _ _ _ _ Hloop Hat') as [[-> ->]|[(_&?&_)|(_&?&_)]];
    [|done..].
  specialize (Hallowed eq_refl g Hg).
  unfold Try.report. rewrite (Dead_open _ Hc Hk).
  case_bool_decide as Hsome; simpl; split_and!; try done.
  - intros Hnone. rewrite Hnone in Hsome. by destruct Hsome.
  - intros hc [= <-]. rewrite Hself. eauto.
Qed.

Lemma good_init passes out checkHostScript (i : I) :
  good passes (init timeout out checkHostScript i).
Proof.
  unfold good, racing. simpl. by split_and!.
Qed.

Lemma good_step passes s ev s' :
  good passes s → allowed passes s ev = true → Step timeout s ev s' →
  good passes s'.
Proof.
  intros Hgood Hallowed Hstep. unfold good in *.
  destruct Hstep as [e i1 Hat ?|i1 ? e i2 Hat ? ?|i1 ? i2 Hat ? ?|p e Hat Hclose
    |msg Hat Hclose|Hat ?|Hat|r e Hat ? ?|hc Hat ? Hres|Hat ? Hres|i r p Hp];
    simpl; try done; try rewrite Hat in Hgood.
  - by apply UpdateAddresses_racing.
  - destruct Hgood as (_ & _ & Hopen & _).
    destruct (Close_signals_open _ Hopen) as (p1 & Hp1 & _). congruence.
  - destruct Hgood as (_ & _ & _ & _ & _ & Hresult & _).
    unfold Try.Result in Hres. simplify_eq.
    destruct (Hresult hc) as [? ?]; [done|]. by exists (hostChecker.addr hc).
  - unfold Try.Result, Try.Wait in Hres.
    destruct (Try.result (parallelHostChecker.Try (checker s)));
      [done|]. by destruct (Try.err (parallelHostChecker.Try (checker s))).
  - destruct (at_ s) as [| |v [e|]|msg] eqn:Hat; try done.
    + eapply probe_racing; [done| |done].
      intros -> g Hg. simpl in Hallowed. by rewrite Hg in Hallowed.
    + destruct (probe_inv _ _ _ _ Hp) as (_ & _ & _ & _ & Hact & _).
      by rewrite Hact.
Qed.

Lemma good_run passes s evs s' :
  good passes s → respects timeout passes s evs = true →
  run timeout s evs = Some s' → good passes s'.
Proof.
  revert s. induction evs as [|ev evs IH]; intros s Hgood Hresp Hrun.
  { by simplify_eq/=. }
  simpl in *. apply andb_prop in Hresp as [Hallowed Hresp].
  destruct (step timeout s ev) as [s1|] eqn:Hstep; [|done].
  eapply IH; [|done..]. eapply good_step; [done..|]. by apply step_Step.
Qed.

Lemma Close_active p p1 e :
  parallelHostChecker.Close p = Ok (p1, e) →
  parallelHostChecker.active p1 = parallelHostChecker.active p
  ∧ parallelHostChecker.stderr p1 = parallelHostChecker.stderr p.
Proof.
  unfold parallelHostChecker.Close. intros Hclose.
  destruct (parallelHostChecker.close_all _ _); by simplify_eq/=.
Qed.

Lemma step_active s ev s' :
  Step timeout s ev s' →
  (∀ a c, parallelHostChecker.active (checker s) !! a = Some c →
          parallelHostChecker.active (checker s') !! a = Some c)
  ∧ dom (parallelHostChecker.active (checker s'))
    = dom (parallelHostChecker.active (checker s))
      ∪ list_to_set (offers s ev).
Proof.
  intros Hstep.
  destruct Hstep as [e i1 Hat Hr|i1 ? e i2 Hat Hr Ha|i1 addrs i2 Hat Hr Ha
    |p e Hat Hclose|msg Hat Hclose|Hat ?|Hat|r e Hat ? ?|hc Hat ? Hres
    |Hat ? Hres|i r p Hp];
    unfold offers; try rewrite Hat; try rewrite Hr; try rewrite Ha; simpl;
    try (split; [done | set_solver]).
  - destruct (UpdateAddresses_active (checker s) addrs) as (Hdom & Hkeep & _).
    done.
  - destruct (Close_active _ _ _ Hclose) as [-> _]. split; [done | set_solver].
  - destruct (probe_inv _ _ _ _ Hp) as (_ & _ & _ & _ & -> & _).
    split; [done | set_solver].
Qed.

Lemma run_active s evs s' :
  run timeout s evs = Some s' →
  (∀ a c, parallelHostChecker.active (checker s) !! a = Some c →
          parallelHostChecker.active (checker s') !! a = Some c)
  ∧ dom (parallelHostChecker.active (checker s'))
    = dom (parallelHostChecker.active (checker s))
      ∪ list_to_set (offered timeout s evs).
Proof.
  revert s. induction evs as [|ev evs IH]; intros s Hrun; simpl in *.
  { simplify_eq. split; [done | set_solver]. }
  destruct (step timeout s ev) as [s1|] eqn:Hstep; [|done].
  apply step_Step in Hstep. destruct (step_active _ _ _ Hstep) as [Hkeep Hdom].
  destruct (IH _ Hrun) as [Hkeep' Hdom']. split; [by eauto|].
  rewrite Hdom', Hdom, list_to_set_app_L. set_solver.
Qed.

Lemma run_app_Some s evs1 evs2 :
  run timeout s (evs1 ++ evs2) = run timeout s evs1 ≫= λ s1, run timeout s1 evs2.
Proof.
  revert s. induction evs1 as [|ev evs1 IH]; intros s; [done|].
  simpl. by destruct (step timeout s ev).
Qed.

Lemma active_size_offered out checkHostScript (i : I) evs s :
  run timeout (init timeout out checkHostScript i) evs = Some s →
  size (parallelHostChecker.active (checker s)) = 0
  ↔ offered timeout (init timeout out checkHostScript i) evs = [].
Proof.
  intros Hrun. destruct (run_active _ _ _ Hrun) as [_ Hdom]. simpl in Hdom.
  rewrite dom_empty_L, (left_id_L ∅ (∪)) in Hdom.
  rewrite map_size_empty_iff, <- dom_empty_iff_L, Hdom.
  destruct (offered _ _ _) as [|a l]; [done|].
  split; [|done]. intros Hempty. exfalso.
  assert (a ∈ (∅ : gset Address)) as Ha by (rewrite <- Hempty; set_solver).
  set_solver.
Qed.

(** C9.  In a run of [waitSSH], the keys of [checker.active] are the
    addresses handed to [UpdateAddresses] so far: no event of the run, be it
    a probe succeeding or failing, [Close], or the return, takes a key away
    or changes the entry of a key.  So [len(checker.active) == 0] holds, at
    any point of the run, exactly when no address was handed over before. *)
Theorem active_only_grows
    (out : list string) (checkHostScript : string) (i : I)
    (evs : list event) (s : state I) :
  run timeout (init timeout out checkHostScript i) evs = Some s →
  dom (parallelHostChecker.active (checker s))
    = list_to_set (offered timeout (init timeout out checkHostScript i) evs)
  ∧ (size (parallelHostChecker.active (checker s)) = 0
     ↔ offered timeout (init timeout out checkHostScript i) evs = [])
  ∧ (∀ ev s', step timeout s ev = Some s' →
       parallelHostChecker.active (checker s)
       ⊆ parallelHostChecker.active (checker s'))
  ∧ (∀ evs1 evs2 s1,
       evs = evs1 ++ evs2 →
       run timeout (init timeout out checkHostScript i) evs1 = Some s1 →
       parallelHostChecker.active (checker s1)
       ⊆ parallelHostChecker.active (checker s)).
Proof.
  intros Hrun. destruct (run_active _ _ _ Hrun) as [_ Hdom]. simpl in Hdom.
  rewrite dom_empty_L, (left_id_L ∅ (∪)) in Hdom.
  split_and!.
  - done.
  - by apply active_size_offered.
  - intros ev s' Hstep%step_Step. apply map_subseteq_spec.
    by apply (step_active _ _ _ Hstep).
  - intros evs1 evs2 s1 -> Hrun1. rewrite run_app_Some, Hrun1 in Hrun.
    apply map_subseteq_spec. by apply (run_active _ _ _ Hrun).
Qed.

(** C8.  In the polling case an error of [Refresh] ends [waitSSH] with the
    error "refreshing addresses: ..." and [Addresses] is not called; an error
    of [Addresses] ends it with "getting addresses: ...".  In both cases
    nothing is written and no address is taken in, and the loop is over: no
    case of its [select] is taken again, so the fetch is not tried again. *)
Theorem fetch_error_is_fatal (s : state I) :
  at_ s = Select →
  ∃ s',
    step timeout s PollAddresses = Some s'
    ∧ (∀ e i1, Refresh (inst s) = (Some e, i1) →
         at_ s' = Exit "" (Some (Err ("refreshing addresses: " +:+ Error e)))
         ∧ inst s' = i1)
    ∧ (∀ i1 addresses e i2,
         Refresh (inst s) = (None, i1) →
         Addresses i1 = ((addresses, Some e), i2) →
         at_ s' = Exit "" (Some (Err ("getting addresses: " +:+ Error e)))
         ∧ inst s' = i2)
    ∧ (∀ v err, at_ s' = Exit v err →
         parallelHostChecker.stderr (checker s')
           = parallelHostChecker.stderr (checker s)
         ∧ parallelHostChecker.active (checker s')
           = parallelHostChecker.active (checker s)
         ∧ ∀ ev, (∀ j r, ev ≠ Probe j r) → step timeout s' ev = None).
Proof.
  intros Hat. unfold step. rewrite Hat.
  destruct (Refresh (inst s)) as [[e|] i1] eqn:Hr.
  - eexists. split; [done|]. split_and!.
    + by intros ?? [= <- <-].
    + by intros.
    + intros v err _. simpl. split_and!; [done..|].
      intros ev Hev. destruct ev as [| | | | |j r]; try done.
      by destruct (Hev j r).
  - destruct (Addresses i1) as [[addresses [e|]] i2] eqn:Ha.
    + eexists. split; [done|]. split_and!.
      * by intros.
      * intros ???? [= <-]. rewrite Ha. by intros [= <- <- <-].
      * intros v err _. simpl. split_and!; [done..|].
        intros ev Hev. destruct ev as [| | | | |j r]; try done.
        by destruct (Hev j r).
    + eexists. split; [done|]. split_and!.
      * by intros.
      * intros ???? [= <-]. by rewrite Ha.
      * by intros.
Qed.

(** C2.  When the global deadline has fired and [checker.Wait()] returns
    [lastErr], [waitSSH] returns an error whose text is "waited for D "
    followed by "without getting any addresses" when no address was handed
    to the coordinator in the whole run and by "without being able to
    connect" when one was; ": " and the text of [lastErr] follow exactly when
    [lastErr] is neither nil nor [ErrStopped]. *)
Theorem timeout_error_text
    (out : list string) (checkHostScript : string) (i : I)
    (evs : list event) (s : state I) :
  run timeout (init timeout out checkHostScript i) evs = Some s →
  at_ s = InWait →
  Try.Dead (parallelHostChecker.Try (checker s)) = true →
  let lastErr := Try.Wait (parallelHostChecker.Try (checker s)) in
  let reason :=
    if decide (offered timeout (init timeout out checkHostScript i) evs = [])
    then "without getting any addresses"
    else "without being able to connect" in
  let base := ("waited for " +:+ Duration_String (Timeout timeout) +:+ " ") +:+ reason in
  ∃ s' text,
    step timeout s Drained = Some s'
    ∧ at_ s' = Exit "" (Some (Err text))
    ∧ Contains text reason
    ∧ ((∃ e, lastErr = Some e ∧ e ≠ ErrStopped
             ∧ text = base +:+ ": " +:+ Error e ∧ text ≠ base)
       ∨ ((lastErr = None ∨ lastErr = Some ErrStopped) ∧ text = base)).
Proof.
  intros Hrun Hat Hdead lastErr reason base.
  pose proof (active_size_offered _ _ _ _ _ Hrun) as Hsize.
  unfold step. rewrite Hat, Hdead. fold lastErr.
  set (detail := match lastErr with
                 | Some e => if decide (e = ErrStopped) then ""
                             else ": " +:+ Error e
                 | None => ""
                 end).
  assert (timeoutError timeout (checker s) lastErr = Err (base +:+ detail)) as Herr.
  { unfold timeoutError, Errorf, base, reason, detail.
    destruct (decide (offered _ _ _ = [])) as [Hoff|Hoff].
    - rewrite bool_decide_eq_true_2 by (by apply Hsize).
      destruct lastErr as [e|]; [|by rewrite append_empty_r].
      destruct (decide (e = ErrStopped)) as [->|He].
      + by rewrite append_empty_r.
      + by rewrite bool_decide_eq_true_2.
    - rewrite bool_decide_eq_false_2 by (by rewrite Hsize).
      destruct lastErr as [e|]; [|by rewrite append_empty_r].
      destruct (decide (e = ErrStopped)) as [->|He].
      + by rewrite append_empty_r.
      + by rewrite bool_decide_eq_true_2. }
  rewrite Herr. eexists _, (base +:+ detail).
  split_and!; [done|done|..].
  - unfold base. rewrite append_assoc. apply Contains_infix.
  - unfold detail. destruct lastErr as [e|].
    + destruct (decide (e = ErrStopped)) as [->|He].
      * right. split; [by right | by rewrite append_empty_r].
      * left. exists e. split_and!; [done..|]. by apply append_neq_self.
    + right. split; [by left | by rewrite append_empty_r].
Qed.





End WaitSSH_properties.

(** ** The scenarios of the specification *)

Example scenario_A :
  waitSSH.run (H0 := seconds) timeout30 start_A events_A = Some end_A
  ∧ waitSSH.at_ end_A = waitSSH.Exit "10.0.0.5" None
  ∧ parallelHostChecker.stderr (waitSSH.checker end_A)
    = ["Waiting for address" +:+ nl; "Attempting to connect to 10.0.0.5:22" +:+ nl]
  ∧ calls (waitSSH.inst end_A)
    = [CallRefresh; CallAddresses; CallRefresh; CallAddresses].
Proof. vm_compute. done. Qed.

Example scenario_B :
  waitSSH.run (H0 := seconds) timeout30 start_B (events_B ++ [waitSSH.Drained])
  = Some (waitSSH.leave waiting_B (waitSSH.inst waiting_B) ""
            (Some (Err "waited for 30s without getting any addresses"))).
Proof. vm_compute. done. Qed.

Example scenario_C :
  waitSSH.run (H0 := seconds) timeout30 start_C (events_C ++ [waitSSH.Drained])
  = Some (waitSSH.leave waiting_C (waitSSH.inst waiting_C) ""
            (Some (Err "waited for 30s without being able to connect: nonce.txt does not exist"))).
Proof. vm_compute. done. Qed.

(** No priority: of two tracked addresses, the one taken in second wins when
    its attempt is the first to succeed. *)
Example second_address_first_success :
  ∃ s', waitSSH.run (H0 := seconds) timeout30 start_C
          [waitSSH.PollAddresses; waitSSH.Probe 1 (hostChecker.Done None);
           waitSSH.Dead] = Some s'
        ∧ waitSSH.at_ s' = waitSSH.Exit "10.0.0.5" None.
Proof. eexists. by vm_compute. Qed.

(** A failing [Refresh] is followed by no call of [Addresses]. *)
Example scenario_D :
  ∃ s', waitSSH.step (H0 := seconds) timeout30 polling_D waitSSH.PollAddresses = Some s'
        ∧ waitSSH.at_ s'
          = waitSSH.Exit "" (Some (Err "refreshing addresses: instance not found"))
        ∧ calls (waitSSH.inst s') = [CallRefresh; CallAddresses; CallRefresh].
Proof. eexists. vm_compute. done. Qed.

Lemma active_only_grows_witness :
  waitSSH.run (H0 := seconds) timeout30 start_C events_C = Some waiting_C
  ∧ (size (parallelHostChecker.active (waitSSH.checker waiting_C)) = 0
     ↔ waitSSH.offered (H0 := seconds) timeout30 start_C events_C = []).
Proof.
  assert (waitSSH.run (H0 := seconds) timeout30 start_C events_C = Some waiting_C)
    as Hrun by (vm_compute; reflexivity).
  split; [exact Hrun|].
  exact (proj1 (proj2 (active_only_grows (H0 := seconds) timeout30 [] "exit 1" _
                         events_C waiting_C Hrun))).
Defined.

Lemma fetch_error_is_fatal_witness :
  waitSSH.at_ polling_D = waitSSH.Select
  ∧ ∃ s', waitSSH.step (H0 := seconds) timeout30 polling_D waitSSH.PollAddresses = Some s'
          ∧ waitSSH.at_ s'
            = waitSSH.Exit "" (Some (Err "refreshing addresses: instance not found")).
Proof.
  split; [reflexivity|].
  destruct (fetch_error_is_fatal (H0 := seconds) timeout30 polling_D eq_refl)
    as (s' & Hstep & Hrefresh & _).
  exists s'. split; [exact Hstep|].
  exact (proj1 (Hrefresh (Err "instance not found") _ eq_refl)).
Defined.

Lemma timeout_error_text_witness :
  waitSSH.run (H0 := seconds) timeout30 start_C events_C = Some waiting_C
  ∧ waitSSH.at_ waiting_C = waitSSH.InWait
  ∧ Try.Dead (parallelHostChecker.Try (waitSSH.checker waiting_C)) = true
  ∧ ∃ s' text,
      waitSSH.step (H0 := seconds) timeout30 waiting_C waitSSH.Drained = Some s'
      ∧ waitSSH.at_ s' = waitSSH.Exit "" (Some (Err text))
      ∧ Contains text "without being able to connect".
Proof.
  assert (waitSSH.run (H0 := seconds) timeout30 start_C events_C = Some waiting_C)
    as Hrun by (vm_compute; reflexivity).
  split_and!; [exact Hrun | reflexivity | reflexivity |].
  destruct (timeout_error_text (H0 := seconds) timeout30 [] "exit 1" _
              events_C waiting_C Hrun eq_refl eq_refl)
    as (s' & text & Hstep & Hat & Hcontains & _).
  exists s', text. split_and!; [exact Hstep | exact Hat | exact Hcontains].
Defined.

(** ** The nonce check *)





























(** The claim of C7 fails for a data directory with a blank in its name.
    The nonce file is there and holds the nonce, and the script exits with
    status 1: [cat $noncefile] has the path unquoted, so [cat] is given the
    two halves of it. *)
Lemma checkNonce_blank_in_path :
  test_e machine_blank "/var/lib/my juju/nonce.txt" = true
  ∧ cat machine_blank ["/var/lib/my juju/nonce.txt"]
    = ("user-admin:bootstrap" +:+ nl, "", 0)
  ∧ bash machine_blank
      (FinishBootstrap_script "/var/lib/my juju/nonce.txt" "user-admin:bootstrap")
    = Some {| exit_status := 1; stdout_text := "";
              stderr_text :=
                "cat: /var/lib/my: No such file or directory" +:+ nl
                +:+ "cat: juju/nonce.txt: No such file or directory" +:+ nl
                +:+ "/var/lib/my juju/nonce.txt contents do not match machine nonce"
                +:+ nl |}.
Proof. by vm_compute. Qed.

(** The text of the script for the usual data directory. *)
Example FinishBootstrap_script_text :
  FinishBootstrap_script "/var/lib/juju/nonce.txt" "user-admin:bootstrap" =
  nl +:+
  tab +:+ "noncefile='/var/lib/juju/nonce.txt'" +:+ nl +:+
  tab +:+ "if [ ! -e " +:+ dq +:+ "$noncefile" +:+ dq +:+ " ]; then" +:+ nl +:+
  tab +:+ tab +:+ "echo " +:+ dq +:+ "$noncefile does not exist" +:+ dq +:+ " >&2" +:+ nl +:+
  tab +:+ tab +:+ "exit 1" +:+ nl +:+
  tab +:+ "fi" +:+ nl +:+
  tab +:+ "content=$(cat $noncefile)" +:+ nl +:+
  tab +:+ "if [ " +:+ dq +:+ "$content" +:+ dq +:+ " != 'user-admin:bootstrap' ]; then" +:+ nl +:+
  tab +:+ tab +:+ "echo " +:+ dq +:+ "$noncefile contents do not match machine nonce" +:+ dq +:+ " >&2" +:+ nl +:+
  tab +:+ tab +:+ "exit 1" +:+ nl +:+
  tab +:+ "fi" +:+ nl +:+
  tab.
Proof. by vm_compute. Qed.

(** ** Bootstrap *)

Section Bootstrap_properties.
Context {E T M C : Type} `{Environ E T M}.

(** C10, as the code has it.  With no default SSH client, [Bootstrap] fails
    without having written anything or started any instance.  Its error is
    "no SSH client available" when the tools match for the preferred series
    succeeds; the match is made first, and when it fails its error is the
    one returned. *)
Theorem Bootstrap_without_client
    (w : effects T M) (env : E) (args : environs.BootstrapParams T) :
  Bootstrap (C := C) None w env args =
    (Ok ("", "", None,
         Some (match (Match (environs.AvailableTools args) (PreferredSeries env)).2 with
               | Some e => e
               | None => Err "no SSH client available"
               end)),
     w).
Proof.
  unfold Bootstrap.
  destruct (Match _ _) as [tools [e|]]; done.
Qed.

End Bootstrap_properties.

(** The claim of C10 fails where no tools match: an environment that prefers
    precise, given tools for trusty only and no SSH client, gets the error of
    the match. *)
Lemma Bootstrap_without_client_or_tools :
  Bootstrap (C := unit) None nothing_done (env_trusty "precise") args_trusty
  = (Ok ("", "", None, Some (Err "no matching tools available")), nothing_done)
  ∧ Err "no matching tools available" ≠ Err "no SSH client available".
Proof. split; [by vm_compute | done]. Qed.

(** With tools and a client, the instance is started and two lines are
    written. *)
Example Bootstrap_starts_instance :
  ∃ finalize,
    Bootstrap (Some tt) nothing_done (env_trusty "trusty") args_trusty
    = (Ok ("amd64", "trusty", Some finalize, None),
       {| written := ["Launching instance" +:+ nl; " - i-1234" +:+ nl];
          launched :=
            [{| environs.sip_Constraints := "mem=2G";
                environs.sip_Tools := ["trusty"];
                environs.sip_MachineConfig :=
                  {| environs.rest := tt;
                     environs.EnableOSRefreshUpdate := true;
                     environs.EnableOSUpgrade := true |};
                environs.sip_Placement := "" |}] |}).
Proof. eexists. by vm_compute. Qed.

Example Bootstrap_without_client_with_tools :
  Bootstrap (C := unit) None nothing_done (env_trusty "trusty") args_trusty
  = (Ok ("", "", None, Some (Err "no SSH client available")), nothing_done).
Proof. by vm_compute. Qed.

(** * Further properties of the code *)

(** ** connectSSH *)

Section ConnectSSH_more.
Context {C : Type} `{Client C}.
Variable TrimSpace : string → string.

(** X1.  [connectSSH] returns nil exactly when the remote run returns no
    transport error: whatever the command printed, and whatever trimming
    leaves of it, a failed run is never reported as a success and a
    successful run is never reported as a failure. *)
Theorem connectSSH_nil_iff_run_ok (client : C) (host checkHostScript : string) :
  connectSSH TrimSpace client host checkHostScript = None
  ↔ (CombinedOutput client ("ubuntu@" +:+ host) ["/bin/bash"] checkHostScript).2 = None.
Proof.
  unfold connectSSH.
  destruct (CombinedOutput _ _ _ _) as [output [e|]]; simpl; [|done].
  by case_bool_decide.
Qed.

End ConnectSSH_more.

(** ** hostChecker.loop *)

Section Loop_more.
Import hostChecker.

Lemma loop_did cr dr g r g' :
  loop cr dr g r = Some g' →
  did g' = did g
  ∨ did g' = did g ++ [attempt (self g)]
  ∨ did g' = did g ++ [Sleep (checkDelay (self g)); attempt (self g)].
Proof.
  unfold loop, again, ret.
  destruct (at_ g), r as [| |[e|]|], cr, dr; intros; simplify_eq/=; auto.
Qed.

Lemma run_targets g0 cr0 dr0 hs g cr dr :
  run (g0, cr0, dr0) hs = Some (g, cr, dr) →
  self g = self g0
  ∧ ∃ more, did g = did g0 ++ more
            ∧ Forall (λ a, a = attempt (self g0) ∨ a = Sleep (checkDelay (self g0))) more.
Proof.
  revert g0 cr0 dr0. induction hs as [|h hs IH]; intros g0 cr0 dr0 Hrun.
  { simplify_eq/=. split; [done|]. exists []. by rewrite app_nil_r. }
  destruct h as [r| |]; simpl in Hrun; [|by eapply IH..].
  destruct (loop cr0 dr0 g0 r) as [g1|] eqn:Hloop; [|done].
  destruct (IH _ _ _ Hrun) as (Hself & more & Hdid & Hmore).
  pose proof (loop_self _ _ _ _ _ Hloop) as Hself1.
  rewrite Hself1 in Hself, Hmore. split; [done|].
  destruct (loop_did _ _ _ _ _ Hloop) as [Hd|[Hd|Hd]]; rewrite Hd in Hdid.
  - by exists more.
  - exists (attempt (self g0) :: more). rewrite Hdid, <- app_assoc.
    split; [done|]. constructor; auto.
  - exists (Sleep (checkDelay (self g0)) :: attempt (self g0) :: more).
    rewrite Hdid, <- app_assoc. split; [done|].
    constructor; [by right|]. constructor; [by left | done].
Qed.


Lemma loop_in_flight cr dr g r g' n :
  loop cr dr g r = Some g' → in_flight g n →
  in_flight g' (n + match r with Done _ => 1 | _ => 0 end).
Proof.
  unfold loop, in_flight, started, again, ret.
  destruct (at_ g), r as [| |[e|]|], cr, dr; intros; simplify_eq/=;
    rewrite ?filter_app, ?length_app; simpl; lia.
Qed.

Lemma loop_delays_due cr dr g r g' n :
  loop cr dr g r = Some g' → delays_due g n →
  delays_due g' (n + match r with Done (Some _) => 1 | _ => 0 end).
Proof.
  unfold loop, delays_due, slept, again, ret.
  destruct (at_ g), r as [| |[e|]|], cr, dr; intros; simplify_eq/=;
    rewrite ?filter_app, ?length_app; simpl; lia.
Qed.

Lemma run_in_flight g0 cr0 dr0 hs g cr dr n m :
  run (g0, cr0, dr0) hs = Some (g, cr, dr) →
  in_flight g0 n → delays_due g0 m →
  in_flight g (n + completed hs) ∧ delays_due g (m + failed hs).
Proof.
  revert g0 cr0 dr0 n m. induction hs as [|h hs IH]; intros g0 cr0 dr0 n m Hrun Hn Hm.
  { simplify_eq/=. by rewrite !Nat.add_0_r. }
  destruct h as [r| |]; simpl in Hrun; [|by eapply IH..].
  destruct (loop cr0 dr0 g0 r) as [g1|] eqn:Hloop; [|done].
  pose proof (loop_in_flight _ _ _ _ _ _ Hloop Hn) as Hn1.
  pose proof (loop_delays_due _ _ _ _ _ _ Hloop Hm) as Hm1.
  destruct (IH _ _ _ _ _ Hrun Hn1 Hm1) as [Hn' Hm'].
  destruct r as [| |[e|]|]; simpl in *;
    rewrite ?Nat.add_0_r in *; rewrite <- ?Nat.add_assoc in *; done.
Qed.

End Loop_more.

(** X2.  A probe only ever contacts its own address with its own script, and
    only ever sleeps for its own [checkDelay]: whatever happens to it, each
    thing it has done is an attempt on [hc.addr.Value] with
    [hc.checkHostScript] or a sleep of [hc.checkDelay], the first being an
    attempt. *)
Theorem probe_keeps_its_target (hc : hostChecker.t)
    (hs : list hostChecker.happening) (g : hostChecker.goroutine) (cr dr : bool) :
  hostChecker.run (hostChecker.fresh hc) hs = Some (g, cr, dr) →
  hostChecker.self g = hc
  ∧ ∃ more,
      hostChecker.did g
      = hostChecker.Attempt (Value (hostChecker.addr hc)) (hostChecker.checkHostScript hc)
        :: more
      ∧ Forall (λ a, a = hostChecker.Attempt (Value (hostChecker.addr hc))
                          (hostChecker.checkHostScript hc)
                     ∨ a = hostChecker.Sleep (hostChecker.checkDelay hc)) more.
Proof.
  intros Hrun. destruct (run_targets _ _ _ _ _ _ _ Hrun) as (Hself & more & Hdid & Hmore).
  split; [done|]. by exists more.
Qed.

Lemma probe_keeps_its_target_witness :
  hostChecker.run (hostChecker.fresh hc_private)
    [hostChecker.Take (hostChecker.Done (Some (Err "nonce.txt does not exist")));
     hostChecker.Take hostChecker.After; hostChecker.CloseSignal]
  = Some (g_retrying, true, false)
  ∧ hostChecker.self g_retrying = hc_private.
Proof.
  split; [reflexivity|].
  exact (proj1 (probe_keeps_its_target hc_private
                  [hostChecker.Take (hostChecker.Done (Some (Err "nonce.txt does not exist")));
                   hostChecker.Take hostChecker.After; hostChecker.CloseSignal]
                  g_retrying true false eq_refl)).
Defined.

(** X3.  A probe never has more than one attempt unfinished, and never
    sleeps more often than attempts have failed: at any point the attempts
    started are the attempts completed or one more (exactly one more while it
    waits for an attempt, none while it sleeps), so the one-place [done]
    channel always has room for the result of the attempt in flight. *)
Theorem probe_one_attempt_in_flight (hc : hostChecker.t)
    (hs : list hostChecker.happening) (g : hostChecker.goroutine) (cr dr : bool) :
  hostChecker.run (hostChecker.fresh hc) hs = Some (g, cr, dr) →
  completed hs ≤ started g ≤ completed hs + 1
  ∧ slept g ≤ failed hs
  ∧ (hostChecker.at_ g = hostChecker.InAttempt → started g = completed hs + 1)
  ∧ (hostChecker.at_ g = hostChecker.InDelay →
     started g = completed hs ∧ slept g < failed hs).
Proof.
  intros Hrun.
  assert (in_flight (hostChecker.start hc) 0) as H0 by reflexivity.
  assert (delays_due (hostChecker.start hc) 0) as H1 by (cbv; lia).
  destruct (run_in_flight _ _ _ _ _ _ _ 0 0 Hrun H0 H1) as [Hn Hm].
  unfold in_flight, delays_due in Hn, Hm. simpl in Hn, Hm.
  destruct (hostChecker.at_ g); split_and!; try done; try lia.
Qed.

Lemma probe_one_attempt_in_flight_witness :
  hostChecker.run (hostChecker.fresh hc_private)
    [hostChecker.Take (hostChecker.Done (Some (Err "nonce.txt does not exist")));
     hostChecker.Take hostChecker.After; hostChecker.CloseSignal]
  = Some (g_retrying, true, false)
  ∧ started g_retrying = 2 ∧ slept g_retrying ≤ 1.
Proof.
  split; [reflexivity|].
  destruct (probe_one_attempt_in_flight hc_private
              [hostChecker.Take (hostChecker.Done (Some (Err "nonce.txt does not exist")));
               hostChecker.Take hostChecker.After; hostChecker.CloseSignal]
              g_retrying true false eq_refl) as (_ & Hslept & Hstarted & _).
  split; [exact (Hstarted eq_refl) | exact Hslept].
Defined.

(** ** waitSSH: what a run can and cannot end in *)

Section WaitSSH_more.
Context {I : Type} `{addresser I} `{DurationString}.
Variable timeout : SSHTimeoutOpts.
Import waitSSH.

Lemma run_invariant (P : state I → Prop) s evs s' :
  P s → (∀ s1 ev s2, P s1 → Step timeout s1 ev s2 → P s2) →
  run timeout s evs = Some s' → P s'.
Proof.
  intros Hs Hstep. revert s Hs. induction evs as [|ev evs IH]; intros s Hs Hrun.
  { by simplify_eq/=. }
  simpl in Hrun. destruct (step timeout s ev) as [s1|] eqn:Hs1; [|done].
  eapply IH; [|done]. eapply Hstep; [done|]. by apply step_Step.
Qed.

Lemma allowed_any (s : state I) ev : allowed (λ _, true) s ev = true.
Proof.
  destruct ev as [| | | | |i r]; try done. destruct r as [| |[e|]|]; try done.
  simpl. by destruct (_ !! i).
Qed.

Lemma respects_any s evs : respects timeout (λ _, true) s evs = true.
Proof.
  revert s. induction evs as [|ev evs IH]; intros s; [done|].
  simpl. rewrite allowed_any. simpl. by destruct (step timeout s ev).
Qed.

Lemma respects_verified (V : list Address) s evs :
  (∀ a, a ∈ verified timeout s evs → a ∈ V) →
  respects timeout (λ a, bool_decide (a ∈ V)) s evs = true.
Proof.
  revert s. induction evs as [|ev evs IH]; intros s HV; [done|].
  simpl in *. apply andb_true_intro. split.
  - destruct ev as [| | | | |i r]; try done. destruct r as [| |[e|]|]; try done.
    simpl in *. destruct (_ !! i) as [g|]; [|done].
    apply bool_decide_eq_true_2, HV. set_solver.
  - destruct (step timeout s ev) as [s1|]; [|done]. apply IH.
    intros a Ha. apply HV. set_solver.
Qed.

Lemma timeoutError_prefix p lastErr :
  ∃ rest, timeoutError timeout p lastErr
          = Err (("waited for " +:+ Duration_String (Timeout timeout) +:+ " without ")
                 +:+ rest).
Proof.
  unfold timeoutError, Errorf.
  assert (∀ rest, ("waited for " +:+ Duration_String (Timeout timeout) +:+ " ")
                  +:+ "without " +:+ rest
                  = ("waited for " +:+ Duration_String (Timeout timeout) +:+ " without ")
                    +:+ rest) as Hre.
  { intros rest. rewrite !append_assoc. do 2 f_equal. }
  case_bool_decide.
  - change "without getting any addresses" with ("without " +:+ "getting any addresses").
    rewrite Hre. destruct lastErr as [e|]; [case_bool_decide|];
      rewrite ?(append_assoc (_ +:+ _ +:+ " without ")); eauto.
  - change "without being able to connect" with ("without " +:+ "being able to connect").
    rewrite Hre. destruct lastErr as [e|]; [case_bool_decide|];
      rewrite ?(append_assoc (_ +:+ _ +:+ " without ")); eauto.
Qed.

Lemma run_good out checkHostScript (i : I) evs s :
  run timeout (init timeout out checkHostScript i) evs = Some s →
  good (λ _, true) s.
Proof.
  intros Hrun. eapply good_run; [apply good_init | apply respects_any | done].
Qed.

(** X4.  [waitSSH] never panics.  In no run, whatever the addresser answers
    and in whatever order the cases of the [select]s are taken, does
    [checker.Close()] close a channel that is closed already, or does the
    type assertion on the result of the Try meet a nil result; and while
    [waitSSH] is in its [select], [checker.Close()] would go through. *)
Theorem waitSSH_never_panics
    (out : list string) (checkHostScript : string) (i : I)
    (evs : list event) (s : state I) :
  run timeout (init timeout out checkHostScript i) evs = Some s →
  (∀ msg, at_ s ≠ Panicked msg)
  ∧ (at_ s = Select →
     ∃ p, parallelHostChecker.Close (checker s) = Ok (p, None)
          ∧ ∃ s', step timeout s GlobalTimeout = Some s' ∧ at_ s' = InWait).
Proof.
  intros Hgood%run_good. unfold good in Hgood. split.
  - intros msg Hat. by rewrite Hat in Hgood.
  - intros Hat. rewrite Hat in Hgood. destruct Hgood as (_ & _ & Hopen & _).
    destruct (Close_signals_open _ Hopen) as (p & Hp & _).
    exists p. split; [done|]. unfold step. rewrite Hat, Hp. eauto.
Qed.

Lemma run_good_verified out checkHostScript (i : I) evs s :
  run timeout (init timeout out checkHostScript i) evs = Some s →
  good (λ a, bool_decide
               (a ∈ verified timeout (init timeout out checkHostScript i) evs)) s.
Proof.
  intros Hrun.
  eapply good_run; [apply good_init | by apply respects_verified | done].
Qed.


(** X5.  An address that [waitSSH] returns with a nil error is the value of
    an address that the instance reported in this run and on which an
    attempt succeeded in this run: the result is never made up, and never
    that of a probe that was merely told to stop. *)
Theorem waitSSH_returns_verified_address
    (out : list string) (checkHostScript : string) (i : I)
    (evs : list event) (s : state I) (v : string) :
  run timeout (init timeout out checkHostScript i) evs = Some s →
  at_ s = Exit v None →
  ∃ a, v = Value a
       ∧ a ∈ offered timeout (init timeout out checkHostScript i) evs
       ∧ a ∈ verified timeout (init timeout out checkHostScript i) evs.
Proof.
  intros Hrun Hat.
  (* along the run, only attempts on addresses verified in it succeed *)
  pose proof (run_good_verified _ _ _ _ _ Hrun) as Hgood.
  unfold good in Hgood. rewrite Hat in Hgood.
  destruct Hgood as (a & Ha%bool_decide_eq_true_1 & Hin & ->).
  exists a. split_and!; [done| |done].
  (* the keys of [active] are the addresses reported *)
  destruct (run_active _ _ _ _ Hrun) as [_ Hdom]. simpl in Hdom.
  rewrite Hdom, dom_empty_L, (left_id_L ∅ (∪)) in Hin.
  by apply elem_of_list_to_set in Hin.
Qed.

Lemma exit_error_step s ev s' v e :
  good (λ _, true) s → Step timeout s ev s' → at_ s' = Exit v (Some e) →
  at_ s = Exit v (Some e)
  ∨ (v = "" ∧ ∃ prefix rest, prefix ∈ waitSSH_error_prefixes (Timeout timeout)
                             ∧ e = Err (prefix +:+ rest)).
Proof.
  intros Hgood Hstep.
  destruct Hstep as [e' i1 Hat ?|i1 ? e' i2 Hat ? ?|i1 ? i2 Hat ? ?|p e' Hat Hclose
    |msg Hat Hclose|Hat ?|Hat|r e' Hat Hdead Hres|hc Hat ? Hres|Hat ? Hres|j r p Hp];
    simpl; intros Hexit; simplify_eq; unfold waitSSH_error_prefixes.
  - right. split; [done|]. eexists _, _. split; [|done]. set_solver.
  - right. split; [done|]. eexists _, _. split; [|done]. set_solver.
  - right. split; [done|].
    destruct (timeoutError_prefix (checker s)
                (Try.Wait (parallelHostChecker.Try (checker s)))) as [rest ->].
    eexists _, rest. split; [|done]. set_solver.
  - right. split; [done|]. exists "interrupted", "". split; [set_solver|done].
  - (* the Try is dead while nothing is closed or killed: it has a result *)
    exfalso. unfold good in Hgood. rewrite Hat in Hgood.
    destruct Hgood as (Hc & Hk & _).
    rewrite (Dead_open _ Hc Hk) in Hdead. apply bool_decide_eq_true_1 in Hdead.
    destruct Hdead as [hc Hhc]. unfold Try.Result, Try.Wait in Hres.
    by rewrite Hhc in Hres.
  - by left.
Qed.

(** X6.  When [waitSSH] returns an error, the address it returns is empty
    and the error is one of four: "refreshing addresses: ...", "getting
    addresses: ...", "interrupted" or "waited for D without ...".  The
    error of a failed attempt is never returned as it is: the [return] of
    [err] in the [checker.Dead()] case is not reached, since
    before [Close] and [Kill] the Try is dead only when an attempt has
    succeeded. *)
Theorem waitSSH_error_kinds
    (out : list string) (checkHostScript : string) (i : I)
    (evs : list event) (s : state I) (v : string) (e : error) :
  run timeout (init timeout out checkHostScript i) evs = Some s →
  at_ s = Exit v (Some e) →
  v = ""
  ∧ ∃ prefix rest, prefix ∈ waitSSH_error_prefixes (Timeout timeout)
                   ∧ e = Err (prefix +:+ rest).
Proof.
  intros Hrun.
  apply (run_invariant
    (λ s, good (λ _, true) s
          ∧ (at_ s = Exit v (Some e) →
             v = "" ∧ ∃ prefix rest, prefix ∈ waitSSH_error_prefixes (Timeout timeout)
                                     ∧ e = Err (prefix +:+ rest))) _ _ _) in Hrun.
  - by destruct Hrun.
  - split; [apply good_init | done].
  - intros s1 ev s2 [Hgood IH] Hstep. split.
    + eapply good_step; [done | apply allowed_any | done].
    + intros Hexit.
      destruct (exit_error_step _ _ _ _ _ Hgood Hstep Hexit) as [?|?]; auto.
Qed.

Lemma untracked_app seen l1 l2 :
  parallelHostChecker.untracked seen (l1 ++ l2)
  = parallelHostChecker.untracked seen l1
    ++ parallelHostChecker.untracked (seen ∪ list_to_set l1) l2.
Proof.
  revert seen. induction l1 as [|b l1 IH]; intros seen; simpl.
  { by rewrite (right_id_L ∅ (∪)). }
  destruct (decide (b ∈ seen)) as [Hb|Hb].
  - rewrite IH. do 2 f_equal. set_solver.
  - rewrite IH. simpl. do 3 f_equal. set_solver.
Qed.

Lemma step_stderr s ev s' :
  Step timeout s ev s' →
  parallelHostChecker.stderr (checker s')
  = parallelHostChecker.stderr (checker s)
    ++ (parallelHostChecker.notice <$>
          parallelHostChecker.untracked (dom (parallelHostChecker.active (checker s)))
            (offers s ev)).
Proof.
  intros Hstep.
  destruct Hstep as [e i1 Hat Hr|i1 ? e i2 Hat Hr Ha|i1 addrs i2 Hat Hr Ha
    |p e Hat Hclose|msg Hat Hclose|Hat ?|Hat|r e Hat ? ?|hc Hat ? Hres
    |Hat ? Hres|j r p Hp];
    unfold offers; try rewrite Hat; try rewrite Hr; try rewrite Ha; simpl;
    rewrite ?app_nil_r; try done.
  - by rewrite UpdateAddresses_closed_form.
  - by destruct (Close_active _ _ _ Hclose) as [_ ->].
  - destruct (probe_inv _ _ _ _ Hp) as (_ & _ & _ & _ & _ & _ & -> & _).
    by destruct r, (at_ s); rewrite ?app_nil_r.
Qed.

Lemma run_stderr s evs s' :
  run timeout s evs = Some s' →
  parallelHostChecker.stderr (checker s')
  = parallelHostChecker.stderr (checker s)
    ++ (parallelHostChecker.notice <$>
          parallelHostChecker.untracked (dom (parallelHostChecker.active (checker s)))
            (offered timeout s evs)).
Proof.
  revert s. induction evs as [|ev evs IH]; intros s Hrun; simpl in *.
  { simplify_eq. by rewrite app_nil_r. }
  destruct (step timeout s ev) as [s1|] eqn:Hstep; [|done].
  apply step_Step in Hstep. destruct (step_active _ _ _ _ Hstep) as [_ Hdom].
  rewrite (IH _ Hrun), (step_stderr _ _ _ Hstep), Hdom, untracked_app, fmap_app.
  by rewrite <- app_assoc.
Qed.

(** X7.  What [waitSSH] writes to [ctx.GetStderr()] is, after what was
    there, the line "Waiting for address" and then one line "Attempting to
    connect to V:22" for each address the instance reported in the run, in
    the order in which the addresses were first reported; an address that is
    reported again, in the same answer or at a later poll, gets no second
    line, and no other case of the run writes anything. *)
Theorem waitSSH_writes_one_line_per_address
    (out : list string) (checkHostScript : string) (i : I)
    (evs : list event) (s : state I) :
  run timeout (init timeout out checkHostScript i) evs = Some s →
  let reported := offered timeout (init timeout out checkHostScript i) evs in
  let new := parallelHostChecker.untracked ∅ reported in
  parallelHostChecker.stderr (checker s)
  = out ++ ["Waiting for address" +:+ nl]
        ++ ((λ a, "Attempting to connect to " +:+ Value a +:+ ":22" +:+ nl) <$> new)
  ∧ NoDup new
  ∧ (∀ a, a ∈ new ↔ a ∈ reported)
  ∧ length new = size (parallelHostChecker.active (checker s)).
Proof.
  intros Hrun reported new.
  destruct (untracked_spec ∅ reported) as [Hnd Hin].
  split_and!.
  - rewrite (run_stderr _ _ _ Hrun). simpl. by rewrite dom_empty_L, <- app_assoc.
  - done.
  - intros a. unfold new. rewrite Hin. set_solver.
  - destruct (run_active _ _ _ _ Hrun) as [_ Hdom]. simpl in Hdom.
    rewrite dom_empty_L, (left_id_L ∅ (∪)) in Hdom.
    rewrite <- size_dom, Hdom. fold reported.
    assert ((list_to_set reported : gset Address) = list_to_set new) as ->.
    { apply set_eq. intros a. unfold new. rewrite !elem_of_list_to_set, Hin.
      set_solver. }
    by rewrite size_list_to_set.
Qed.

Lemma count_insert {A} (f : A → bool) (l : list A) (i : nat) (x y : A) :
  l !! i = Some x →
  length (filter (λ a, Is_true (f a)) (<[i:=y]> l)) + (if f x then 1 else 0)
  = length (filter (λ a, Is_true (f a)) l) + (if f y then 1 else 0).
Proof.
  revert i. induction l as [|z l IH]; intros [|i] Hx; simplify_eq/=.
  - rewrite !filter_cons. destruct (f x), (f y); simpl; lia.
  - rewrite !filter_cons. specialize (IH i Hx).
    destruct (decide (Is_true (f z))); simpl; lia.
Qed.

Lemma running_returned tr :
  running_probes tr + returned_probes tr = length (Try.procs tr).
Proof.
  unfold running_probes, returned_probes.
  induction (Try.procs tr) as [|g l IH]; [done|].
  rewrite !filter_cons. destruct (hostChecker.returned g); simpl in *; lia.
Qed.

Lemma loop_own_actions cr dr g r g' :
  hostChecker.loop cr dr g r = Some g' → own_actions g → own_actions g'.
Proof.
  intros Hloop Hown. unfold own_actions in *.
  rewrite (loop_self _ _ _ _ _ Hloop).
  destruct (loop_did _ _ _ _ _ Hloop) as [->|[->| ->]]; [done|..];
    apply Forall_app; (split; [done|]).
  - constructor; [by left | done].
  - constructor; [by right|]. constructor; [by left | done].
Qed.

Lemma loop_not_returned cr dr g r g' :
  hostChecker.loop cr dr g r = Some g' → hostChecker.returned g = false.
Proof.
  unfold hostChecker.loop, hostChecker.returned. by destruct (hostChecker.at_ g).
Qed.

Lemma tidy_init out checkHostScript (i : I) :
  tidy (RetryDelay timeout) checkHostScript
    (checker (init timeout out checkHostScript i)).
Proof.
  unfold tidy. simpl. split_and!; try done; try constructor.
  all: rewrite ?map_size_empty; try done.
Qed.

Lemma Start_procs tr hc :
  (Try.procs (Try.Start tr hc) = Try.procs tr
   ∨ Try.procs (Try.Start tr hc) = Try.procs tr ++ [hostChecker.start hc]).
Proof. unfold Try.Start. destruct (_ || _); auto. Qed.

Lemma UpdateAddress_tidy delay script p a :
  tidy delay script p → tidy delay script (parallelHostChecker.UpdateAddress p a).
Proof.
  intros (Hd & Hs & Hnd & Hprocs & Hmade & Hwg & Hlen).
  unfold parallelHostChecker.UpdateAddress.
  destruct (parallelHostChecker.active p !! a) as [c|] eqn:Ha.
  { by split_and!. }
  set (hc := parallelHostChecker.checker_for p a _).
  assert (∀ g, g ∈ Try.procs (parallelHostChecker.Try p) → probe_addr g ≠ a) as Hfresh.
  { intros g [j Hj]%list_elem_of_lookup Heq.
    destruct (Hprocs j g Hj) as (Hact & _). congruence. }
  unfold tidy. simpl. rewrite map_size_insert_None by done.
  destruct (Start_procs (parallelHostChecker.Try p) hc) as [Hsame|Hmore].
  - unfold returned_probes in *. rewrite Hsame. split_and!; try done; try lia.
    + intros j g Hj. destruct (Hprocs j g Hj) as (Hact & ? & ? & ?).
      split_and!; try done. rewrite lookup_insert_ne; [done|].
      intros Heq. apply (Hfresh g); [|done]. by eapply list_elem_of_lookup_2.
    + intros b c. rewrite lookup_insert. case_decide.
      * intros [= <-]. rewrite length_app. simpl. lia.
      * intros Hb%Hmade. rewrite length_app. simpl. lia.
  - unfold returned_probes in *. rewrite Hmore. split_and!; try done.
    + rewrite fmap_app. apply NoDup_app. split_and!; [done| |].
      * intros b (g & -> & Hg)%list_elem_of_fmap [Heq|[]%elem_of_nil]%elem_of_cons.
        by apply (Hfresh g).
      * simpl. apply NoDup_singleton.
    + intros j g [Hj|[_ Hj]]%lookup_app_Some.
      * destruct (Hprocs j g Hj) as (Hact & ? & ? & ?).
        split_and!; try done. rewrite lookup_insert_ne; [done|].
        intros Heq. apply (Hfresh g); [|done]. by eapply list_elem_of_lookup_2.
      * destruct (j - _); simplify_eq/=. unfold probe_addr. simpl.
        rewrite lookup_insert_eq. split_and!; try done.
        unfold own_actions. simpl. constructor; [by left | done].
    + intros b c. rewrite lookup_insert. case_decide.
      * intros [= <-]. rewrite length_app. simpl. lia.
      * intros Hb%Hmade. rewrite length_app. simpl. lia.
    + rewrite filter_app, length_app. simpl. lia.
    + rewrite length_app. simpl. lia.
Qed.

Lemma UpdateAddresses_tidy delay script p addrs :
  tidy delay script p → tidy delay script (parallelHostChecker.UpdateAddresses p addrs).
Proof.
  unfold parallelHostChecker.UpdateAddresses. revert p.
  induction addrs as [|a addrs IH]; intros p Hp; [done|].
  simpl. by apply IH, UpdateAddress_tidy.
Qed.

Lemma report_flags tr hc e :
  Try.procs (Try.report tr hc e) = Try.procs tr
  ∧ Try.closed (Try.report tr hc e) = Try.closed tr
  ∧ Try.killed (Try.report tr hc e) = Try.killed tr.
Proof. unfold Try.report. by destruct (Try.Dead tr), e. Qed.

Lemma probe_books p j r p' :
  parallelHostChecker.probe p j r = Some p' →
  ∃ g g',
    Try.procs (parallelHostChecker.Try p) !! j = Some g
    ∧ hostChecker.loop
        (bool_decide (parallelHostChecker.heap p !! hostChecker.closed (hostChecker.self g)
                      = Some true))
        (Try.Dying (parallelHostChecker.Try p)) g r = Some g'
    ∧ parallelHostChecker.active p' = parallelHostChecker.active p
    ∧ parallelHostChecker.heap p' = parallelHostChecker.heap p
    ∧ parallelHostChecker.checkDelay p' = parallelHostChecker.checkDelay p
    ∧ parallelHostChecker.checkHostScript p' = parallelHostChecker.checkHostScript p
    ∧ parallelHostChecker.wg p'
      = (if hostChecker.returned g' then pred (parallelHostChecker.wg p)
         else parallelHostChecker.wg p)
    ∧ Try.procs (parallelHostChecker.Try p')
      = <[j := g']> (Try.procs (parallelHostChecker.Try p))
    ∧ Try.closed (parallelHostChecker.Try p') = Try.closed (parallelHostChecker.Try p)
    ∧ Try.killed (parallelHostChecker.Try p') = Try.killed (parallelHostChecker.Try p).
Proof.
  unfold parallelHostChecker.probe. intros Hp.
  apply bind_Some in Hp as (g & Hg & Hp).
  apply bind_Some in Hp as (g' & Hg' & Hp).
  exists g, g'. unfold hostChecker.returned.
  destruct (hostChecker.at_ g') as [| |e]; simplify_eq/=; split_and!; try done;
    by destruct (report_flags (parallelHostChecker.Try p) (hostChecker.self g') e)
      as (? & ? & ?).
Qed.

Lemma probe_tidy delay script p j r p' :
  parallelHostChecker.probe p j r = Some p' →
  tidy delay script p → tidy delay script p'.
Proof.
  intros Hp (Hd & Hs & Hnd & Hprocs & Hmade & Hwg & Hlen).
  destruct (probe_books _ _ _ _ Hp)
    as (g & g0' & Hg & Hloop & Hact & Hh & Hd' & Hs' & Hwg' & Hprocs' & _).
  pose proof (loop_self _ _ _ _ _ Hloop) as Hself.
  pose proof (loop_not_returned _ _ _ _ _ Hloop) as Hrun.
  assert (probe_addr <$> <[j := g0']> (Try.procs (parallelHostChecker.Try p))
          = probe_addr <$> Try.procs (parallelHostChecker.Try p)) as Haddrs.
  { rewrite list_fmap_insert. apply list_insert_id.
    rewrite list_lookup_fmap, Hg. unfold probe_addr. simpl. by rewrite Hself. }
  pose proof (count_insert hostChecker.returned _ _ _ g0' Hg) as Hcount.
  rewrite Hrun in Hcount.
  pose proof (running_returned (parallelHostChecker.Try p)) as Hall.
  assert (0 < running_probes (parallelHostChecker.Try p)) as Hsome.
  { unfold running_probes. apply list_elem_of_lookup_2 in Hg.
    assert (g ∈ filter (λ g1, ¬ hostChecker.returned g1)
                  (Try.procs (parallelHostChecker.Try p))) as Hin.
    { apply list_elem_of_filter. split; [|done]. rewrite Hrun. by intros []. }
    apply list_elem_of_lookup_1 in Hin as [k Hk]. apply lookup_lt_Some in Hk. lia. }
  unfold tidy, returned_probes in *.
  rewrite Hact, Hh, Hd', Hs', Hwg', Hprocs', Haddrs, length_insert.
  split_and!; try done.
  - intros k gk. rewrite list_lookup_insert_Some.
    intros [(-> & -> & _)|[_ Hk]]; [|by apply (Hprocs k)].
    destruct (Hprocs _ _ Hg) as (Ha & ? & ? & Hown).
    unfold probe_addr in *. rewrite Hself.
    split_and!; try done. by eapply loop_own_actions.
  - destruct (hostChecker.returned g0'); lia.
Qed.

Lemma Close_books p p1 e :
  parallelHostChecker.Close p = Ok (p1, e) →
  e = None
  ∧ parallelHostChecker.Try p1 = Try.Close (parallelHostChecker.Try p)
  ∧ parallelHostChecker.active p1 = parallelHostChecker.active p
  ∧ parallelHostChecker.wg p1 = parallelHostChecker.wg p
  ∧ parallelHostChecker.checkDelay p1 = parallelHostChecker.checkDelay p
  ∧ parallelHostChecker.checkHostScript p1 = parallelHostChecker.checkHostScript p
  ∧ (∀ a c, parallelHostChecker.active p !! a = Some c →
            parallelHostChecker.heap p !! c = Some false
            ∧ parallelHostChecker.heap p1 !! c = Some true).
Proof.
  unfold parallelHostChecker.Close. intros Hclose. simpl in Hclose.
  destruct (parallelHostChecker.close_all _ _) as [h|] eqn:Hall; simplify_eq/=.
  split_and!; try done. intros a c Hac.
  destruct (close_all_inv _ _ _ Hall) as [Hnd Hopen].
  destruct (close_all_open _ _ Hnd Hopen) as (h' & Hh' & Hlook).
  rewrite Hall in Hh'. simplify_eq.
  assert (c ∈ (map_to_list (parallelHostChecker.active p)).*2) as Hin.
  { apply list_elem_of_fmap. exists (a, c). by rewrite elem_of_map_to_list. }
  split; [by apply Hopen|]. rewrite Hlook. by rewrite decide_True.
Qed.

Lemma step_tidy delay script s ev s' :
  Step timeout s ev s' →
  tidy delay script (checker s) → tidy delay script (checker s').
Proof.
  intros Hstep Htidy.
  destruct Hstep as [e i1 Hat Hr|i1 ? e i2 Hat Hr Ha|i1 addrs i2 Hat Hr Ha
    |p e Hat Hclose|msg Hat Hclose|Hat ?|Hat|r e Hat ? ?|hc Hat ? Hres
    |Hat ? Hres|j r p Hp]; simpl; try done.
  - by apply UpdateAddresses_tidy.
  - destruct (Close_books _ _ _ Hclose) as (_ & HTry & Hact & Hwg & Hd & Hs & Hheap).
    destruct Htidy as (Hd0 & Hs0 & Hnd & Hprocs & Hmade & Hwg0 & Hlen).
    unfold tidy, returned_probes in *. rewrite HTry, Hact, Hwg, Hd, Hs. simpl.
    split_and!; try done.
    intros a c Hac. destruct (Hheap a c Hac) as [_ Hc]. by eapply lookup_lt_Some.
  - by eapply probe_tidy.
Qed.

Lemma run_tidy out checkHostScript (i : I) evs s :
  run timeout (init timeout out checkHostScript i) evs = Some s →
  tidy (RetryDelay timeout) checkHostScript (checker s).
Proof.
  apply (run_invariant (λ s, tidy (RetryDelay timeout) checkHostScript (checker s))).
  - apply tidy_init.
  - intros s1 ev s2 Htidy Hstep. by eapply step_tidy.
Qed.

Lemma running_none tr :
  running_probes tr = 0 → forallb hostChecker.returned (Try.procs tr) = true.
Proof.
  unfold running_probes. induction (Try.procs tr) as [|g l IH]; [done|].
  rewrite filter_cons. simpl. destruct (hostChecker.returned g); simpl; [done|].
  intros; lia.
Qed.

Lemma running_some tr :
  0 < running_probes tr →
  ∃ j g, Try.procs tr !! j = Some g ∧ hostChecker.returned g = false.
Proof.
  unfold running_probes. induction (Try.procs tr) as [|g l IH]; simpl; [lia|].
  rewrite filter_cons. destruct (hostChecker.returned g) eqn:Hg; simpl.
  - intros (j & g' & ? & ?)%IH. by exists (S j), g'.
  - intros _. by exists 0, g.
Qed.

(** X8.  The counter [checker.wg] is kept right: it is the number of
    tracked addresses less the number of probes that have returned, so it
    is at least the number of probes still running.  [wg.Done()] therefore
    never takes it below zero, and when [checker.wg.Wait()] sees it at zero
    no probe goroutine is left running. *)
Theorem wg_counts_running_probes
    (out : list string) (checkHostScript : string) (i : I)
    (evs : list event) (s : state I) :
  run timeout (init timeout out checkHostScript i) evs = Some s →
  parallelHostChecker.wg (checker s)
    + returned_probes (parallelHostChecker.Try (checker s))
  = size (parallelHostChecker.active (checker s))
  ∧ running_probes (parallelHostChecker.Try (checker s))
    ≤ parallelHostChecker.wg (checker s)
  ∧ (parallelHostChecker.wg (checker s) = 0 →
     ∀ j g, Try.procs (parallelHostChecker.Try (checker s)) !! j = Some g →
            hostChecker.returned g = true).
Proof.
  intros (_ & _ & _ & _ & _ & Hwg & Hlen)%run_tidy.
  pose proof (running_returned (parallelHostChecker.Try (checker s))) as Hall.
  split_and!; [done | lia |].
  intros Hzero j g Hg.
  assert (running_probes (parallelHostChecker.Try (checker s)) = 0) as Hnone by lia.
  apply running_none in Hnone. rewrite forallb_forall in Hnone.
  apply Hnone, list_elem_of_In. by eapply list_elem_of_lookup_2.
Qed.

(** X9.  Every probe of a run of [waitSSH] is what [UpdateAddresses] made
    it: it is for an address the instance reported, no two probes are for
    the same address, its [closed] channel is the one stored in
    [checker.active] under its address, and all it ever does is run the
    script given to [waitSSH] against the value of its address and sleep
    for [timeout.RetryDelay]. *)
Theorem one_probe_per_address
    (out : list string) (checkHostScript : string) (i : I)
    (evs : list event) (s : state I) :
  run timeout (init timeout out checkHostScript i) evs = Some s →
  NoDup (probe_addr <$> Try.procs (parallelHostChecker.Try (checker s)))
  ∧ ∀ j g, Try.procs (parallelHostChecker.Try (checker s)) !! j = Some g →
      probe_addr g ∈ offered timeout (init timeout out checkHostScript i) evs
      ∧ parallelHostChecker.active (checker s) !! probe_addr g
        = Some (hostChecker.closed (hostChecker.self g))
      ∧ hostChecker.checkDelay (hostChecker.self g) = RetryDelay timeout
      ∧ hostChecker.checkHostScript (hostChecker.self g) = checkHostScript
      ∧ Forall (λ a, a = hostChecker.Attempt (Value (probe_addr g)) checkHostScript
                     ∨ a = hostChecker.Sleep (RetryDelay timeout))
               (hostChecker.did g).
Proof.
  intros Hrun.
  destruct (run_tidy _ _ _ _ _ Hrun) as (_ & _ & Hnd & Hprocs & _).
  split; [done|]. intros j g Hg.
  destruct (Hprocs j g Hg) as (Hact & Hd & Hs & Hown).
  split_and!; try done.
  - destruct (run_active _ _ _ _ Hrun) as [_ Hdom]. simpl in Hdom.
    assert (probe_addr g ∈ dom (parallelHostChecker.active (checker s))) as Hin.
    { apply elem_of_dom. eauto. }
    rewrite Hdom in Hin. set_solver.
  - unfold own_actions, hostChecker.attempt in Hown.
    by rewrite Hd, Hs in Hown.
Qed.

Lemma run_keeps_tidy delay script s evs s' :
  run timeout s evs = Some s' →
  tidy delay script (checker s) → tidy delay script (checker s').
Proof.
  intros Hrun Htidy.
  apply (run_invariant (λ s, tidy delay script (checker s)) s evs s' Htidy); [|done].
  intros s1 ev s2 ? Hstep. by eapply step_tidy.
Qed.

Lemma signal_ready delay script r p j g :
  r = hostChecker.Closed ∨ r = hostChecker.Dying →
  signalled r p → tidy delay script p →
  Try.procs (parallelHostChecker.Try p) !! j = Some g →
  hostChecker.returned g = false →
  ∃ g', hostChecker.loop
          (bool_decide (parallelHostChecker.heap p !! hostChecker.closed (hostChecker.self g)
                        = Some true))
          (Try.Dying (parallelHostChecker.Try p)) g r = Some g'
        ∧ match hostChecker.at_ g with
          | hostChecker.InDelay => hostChecker.at_ g' = hostChecker.InAttempt
          | _ => hostChecker.returned g' = true
          end.
Proof.
  intros Hr Hsig (_ & _ & _ & Hprocs & _) Hg Hrun.
  destruct (Hprocs j g Hg) as (Hact & _).
  unfold hostChecker.loop, hostChecker.returned in *.
  destruct Hr as [-> | ->]; simpl in Hsig.
  - rewrite bool_decide_eq_true_2 by eauto.
    destruct (hostChecker.at_ g); try done; eauto.
  - unfold Try.Dying. rewrite Hsig.
    destruct (hostChecker.at_ g); try done; eauto.
Qed.

Lemma probe_keeps_signal r p j r' p' :
  parallelHostChecker.probe p j r' = Some p' → signalled r p → signalled r p'.
Proof.
  intros Hp Hsig.
  destruct (probe_books _ _ _ _ Hp)
    as (g & g' & _ & _ & Hact & Hh & _ & _ & _ & _ & _ & Hk).
  destruct r; simpl in *; try done; by rewrite ?Hact, ?Hh, ?Hk.
Qed.

Lemma probe_running p j r p' g :
  parallelHostChecker.probe p j r = Some p' →
  Try.procs (parallelHostChecker.Try p) !! j = Some g →
  ∃ g', Try.procs (parallelHostChecker.Try p') !! j = Some g'
        ∧ hostChecker.loop
            (bool_decide (parallelHostChecker.heap p !! hostChecker.closed (hostChecker.self g)
                          = Some true))
            (Try.Dying (parallelHostChecker.Try p)) g r = Some g'
        ∧ length (Try.procs (parallelHostChecker.Try p'))
          = length (Try.procs (parallelHostChecker.Try p))
        ∧ running_probes (parallelHostChecker.Try p')
            + (if hostChecker.returned g' then 1 else 0)
          = running_probes (parallelHostChecker.Try p).
Proof.
  intros Hp Hg.
  destruct (probe_books _ _ _ _ Hp)
    as (g0 & g' & Hg0 & Hloop & _ & _ & _ & _ & _ & Hprocs & _).
  simplify_eq. exists g'.
  pose proof (loop_not_returned _ _ _ _ _ Hloop) as Hrun.
  pose proof (count_insert hostChecker.returned _ _ _ g' Hg) as Hcount.
  rewrite Hrun in Hcount.
  pose proof (running_returned (parallelHostChecker.Try p)) as Hall.
  pose proof (running_returned (parallelHostChecker.Try p')) as Hall'.
  unfold returned_probes in *. rewrite Hprocs in *. rewrite length_insert in *.
  split_and!; [|done|done|].
  - apply list_lookup_insert_eq. by eapply lookup_lt_Some.
  - destruct (hostChecker.returned g'); lia.
Qed.

(** A running probe takes the signal [r]: one or two of its steps, and it
    has returned; nothing else of [waitSSH] moves. *)
Lemma stop_running delay script r s j g :
  r = hostChecker.Closed ∨ r = hostChecker.Dying →
  signalled r (checker s) → tidy delay script (checker s) →
  Try.procs (parallelHostChecker.Try (checker s)) !! j = Some g →
  hostChecker.returned g = false →
  ∃ s', run timeout s (stop_probe g j r) = Some s'
        ∧ at_ s' = at_ s ∧ inst s' = inst s
        ∧ parallelHostChecker.active (checker s') = parallelHostChecker.active (checker s)
        ∧ Try.closed (parallelHostChecker.Try (checker s'))
          = Try.closed (parallelHostChecker.Try (checker s))
        ∧ length (Try.procs (parallelHostChecker.Try (checker s')))
          = length (Try.procs (parallelHostChecker.Try (checker s)))
        ∧ S (running_probes (parallelHostChecker.Try (checker s')))
          = running_probes (parallelHostChecker.Try (checker s))
        ∧ signalled r (checker s').
Proof.
  intros Hr Hsig Htidy Hg Hrun.
  assert (∀ s1 g1,
    signalled r (checker s1) → tidy delay script (checker s1) →
    Try.procs (parallelHostChecker.Try (checker s1)) !! j = Some g1 →
    hostChecker.returned g1 = false →
    ∃ s2 g2, step timeout s1 (Probe j r) = Some s2
          ∧ Try.procs (parallelHostChecker.Try (checker s2)) !! j = Some g2
          ∧ match hostChecker.at_ g1 with
            | hostChecker.InDelay => hostChecker.at_ g2 = hostChecker.InAttempt
            | _ => hostChecker.returned g2 = true
            end
          ∧ at_ s2 = at_ s1 ∧ inst s2 = inst s1
          ∧ parallelHostChecker.active (checker s2)
            = parallelHostChecker.active (checker s1)
          ∧ Try.closed (parallelHostChecker.Try (checker s2))
            = Try.closed (parallelHostChecker.Try (checker s1))
          ∧ length (Try.procs (parallelHostChecker.Try (checker s2)))
            = length (Try.procs (parallelHostChecker.Try (checker s1)))
          ∧ running_probes (parallelHostChecker.Try (checker s2))
              + (if hostChecker.returned g2 then 1 else 0)
            = running_probes (parallelHostChecker.Try (checker s1))
          ∧ signalled r (checker s2)
          ∧ tidy delay script (checker s2)) as Hone.
  { intros s1 g1 Hsig1 Htidy1 Hg1 Hrun1.
    destruct (signal_ready _ _ _ _ _ _ Hr Hsig1 Htidy1 Hg1 Hrun1) as (g2 & Hloop & Hat2).
    destruct (parallelHostChecker.probe (checker s1) j r) as [p2|] eqn:Hp.
    2:{ unfold parallelHostChecker.probe in Hp. rewrite Hg1 in Hp. simpl in Hp.
        rewrite Hloop in Hp. simpl in Hp. by destruct (hostChecker.at_ g2). }
    destruct (probe_running _ _ _ _ _ Hp Hg1) as (g2' & Hg2 & Hloop' & Hlen & Hcount).
    rewrite Hloop in Hloop'. simplify_eq.
    destruct (probe_books _ _ _ _ Hp)
      as (_ & _ & _ & _ & Hact & _ & _ & _ & _ & _ & Hc & _).
    exists {| checker := p2; inst := inst s1; at_ := at_ s1 |}, g2'.
    split_and!; try done.
    - unfold step. rewrite Hp. simpl. by destruct (at_ s1).
    - by eapply probe_keeps_signal.
    - by eapply probe_tidy. }
  unfold stop_probe.
  destruct (Hone s g Hsig Htidy Hg Hrun)
    as (s1 & g1 & Hstep1 & Hg1 & Hat1 & ? & ? & Hact1 & Hc1 & Hlen1 & Hcount1 & Hsig1 & Htidy1).
  destruct (hostChecker.at_ g) eqn:Hatg.
  - exists s1. change (Probe j <$> [r]) with [Probe j r]. cbn [run].
    rewrite Hstep1. rewrite Hat1 in Hcount1.
    split_and!; try done. lia.
  - assert (hostChecker.returned g1 = false) as Hrun1.
    { unfold hostChecker.returned. by rewrite Hat1. }
    rewrite Hrun1 in Hcount1.
    destruct (Hone s1 g1 Hsig1 Htidy1 Hg1 Hrun1)
      as (s2 & g2 & Hstep2 & Hg2 & Hat2 & ? & ? & Hact2 & Hc2 & Hlen2 & Hcount2 & Hsig2 & _).
    rewrite Hat1 in Hat2. rewrite Hat2 in Hcount2.
    exists s2. change (Probe j <$> [r; r]) with [Probe j r; Probe j r]. cbn [run].
    rewrite Hstep1, Hstep2. split_and!; try congruence. lia.
  - unfold hostChecker.returned in Hrun. by rewrite Hatg in Hrun.
Qed.

Lemma stop_probes delay script r n : ∀ s,
  r = hostChecker.Closed ∨ r = hostChecker.Dying →
  signalled r (checker s) → tidy delay script (checker s) →
  running_probes (parallelHostChecker.Try (checker s)) = n →
  ∃ evs' s',
    Forall (λ ev, ∃ j, ev = Probe j r) evs'
    ∧ length evs' ≤ 2 * n
    ∧ run timeout s evs' = Some s'
    ∧ at_ s' = at_ s ∧ inst s' = inst s
    ∧ parallelHostChecker.active (checker s') = parallelHostChecker.active (checker s)
    ∧ Try.closed (parallelHostChecker.Try (checker s'))
      = Try.closed (parallelHostChecker.Try (checker s))
    ∧ length (Try.procs (parallelHostChecker.Try (checker s')))
      = length (Try.procs (parallelHostChecker.Try (checker s)))
    ∧ running_probes (parallelHostChecker.Try (checker s')) = 0.
Proof.
  induction n as [|n IH]; intros s Hr Hsig Htidy Hn.
  { exists [], s. by split_and!. }
  destruct (running_some (parallelHostChecker.Try (checker s))) as (j & g & Hg & Hrun);
    [lia|].
  destruct (stop_running _ _ _ _ _ _ Hr Hsig Htidy Hg Hrun)
    as (s1 & Hrun1 & Hat1 & Hinst1 & Hact1 & Hc1 & Hlen1 & Hcount1 & Hsig1).
  pose proof (run_keeps_tidy _ _ _ _ _ Hrun1 Htidy) as Htidy1.
  destruct (IH s1 Hr Hsig1 Htidy1) as
    (evs2 & s2 & Hall & Hlen & Hrun2 & Hat2 & Hinst2 & Hact2 & Hc2 & Hlen2 & Hnone);
    [lia|].
  exists (stop_probe g j r ++ evs2), s2.
  rewrite run_app_Some, Hrun1. simpl. split_and!; try congruence.
  - apply Forall_app. split; [|done]. unfold stop_probe.
    destruct (hostChecker.at_ g); simpl; repeat constructor; eauto.
  - rewrite length_app. unfold stop_probe.
    destruct (hostChecker.at_ g); simpl; lia.
Qed.

Lemma running_none_all tr :
  running_probes tr = 0 →
  ∀ j g, Try.procs tr !! j = Some g → hostChecker.returned g = true.
Proof.
  intros Hnone%running_none j g Hg. rewrite forallb_forall in Hnone.
  apply Hnone, list_elem_of_In. by eapply list_elem_of_lookup_2.
Qed.

Lemma run_phase out checkHostScript (i : I) evs s :
  run timeout (init timeout out checkHostScript i) evs = Some s →
  match at_ s with
  | InWait =>
      signalled hostChecker.Closed (checker s)
      ∧ Try.closed (parallelHostChecker.Try (checker s)) = true
  | Exit _ _ => signalled hostChecker.Dying (checker s)
  | _ => True
  end.
Proof.
  apply (run_invariant (λ s,
    match at_ s with
    | InWait =>
        signalled hostChecker.Closed (checker s)
        ∧ Try.closed (parallelHostChecker.Try (checker s)) = true
    | Exit _ _ => signalled hostChecker.Dying (checker s)
    | _ => True
    end)); [done|].
  intros s1 ev s2 Hphase Hstep.
  destruct Hstep as [e i1 Hat Hr|i1 ? e i2 Hat Hr Ha|i1 addrs i2 Hat Hr Ha
    |p e Hat Hclose|msg Hat Hclose|Hat ?|Hat|r e Hat ? ?|hc Hat ? Hres
    |Hat ? Hres|j r p Hp]; simpl; try done.
  - destruct (Close_books _ _ _ Hclose) as (_ & -> & Hact & _ & _ & _ & Hheap).
    split; [|done]. intros a c. rewrite Hact. intros Hac. by apply (Hheap a c).
  - destruct (probe_books _ _ _ _ Hp)
      as (_ & _ & _ & _ & _ & _ & _ & _ & _ & _ & Hc & _).
    destruct (at_ s1); try done.
    + destruct Hphase as [Hsig ?]. split; [|congruence].
      exact (probe_keeps_signal hostChecker.Closed _ _ _ _ Hp Hsig).
    + exact (probe_keeps_signal hostChecker.Dying _ _ _ _ Hp Hphase).
Qed.

(** X10.  The deadline case does not get stuck in [checker.Wait()].  Once
    [checker.Close()] has run, the [closed] channel of every probe is
    closed, so each probe that is still running can take its
    [case <-hc.closed]: from its first [select] it returns, from its second
    it starts one more attempt and returns from there.  After these steps,
    two for each running probe at most, all probes have returned, the Try is
    dead and [waitSSH] returns its "waited for" error. *)
Theorem timeout_wait_ends
    (out : list string) (checkHostScript : string) (i : I)
    (evs : list event) (s : state I) :
  run timeout (init timeout out checkHostScript i) evs = Some s →
  at_ s = InWait →
  (∀ j g, Try.procs (parallelHostChecker.Try (checker s)) !! j = Some g →
          parallelHostChecker.heap (checker s) !! hostChecker.closed (hostChecker.self g)
          = Some true)
  ∧ ∃ evs' s1 s',
      Forall (λ ev, ∃ j, ev = Probe j hostChecker.Closed) evs'
      ∧ length evs' ≤ 2 * running_probes (parallelHostChecker.Try (checker s))
      ∧ run timeout s evs' = Some s1
      ∧ (∀ j g, Try.procs (parallelHostChecker.Try (checker s1)) !! j = Some g →
                hostChecker.returned g = true)
      ∧ step timeout s1 Drained = Some s'
      ∧ at_ s'
        = Exit "" (Some (timeoutError timeout (checker s1)
                           (Try.Wait (parallelHostChecker.Try (checker s1))))).
Proof.
  intros Hrun Hat.
  pose proof (run_phase _ _ _ _ _ Hrun) as Hphase. rewrite Hat in Hphase.
  destruct Hphase as [Hsig Hclosed].
  pose proof (run_tidy _ _ _ _ _ Hrun) as Htidy.
  split.
  { intros j g Hg. destruct Htidy as (_ & _ & _ & Hprocs & _).
    destruct (Hprocs j g Hg) as (Hact & _). by apply (Hsig _ _ Hact). }
  destruct (stop_probes _ _ hostChecker.Closed _ s (or_introl eq_refl) Hsig Htidy eq_refl)
    as (evs' & s1 & Hall & Hlen & Hrun1 & Hat1 & _ & _ & Hc1 & _ & Hnone).
  exists evs', s1. eexists. split_and!; [done|done|done| | |].
  - by apply running_none_all.
  - unfold step. rewrite Hat1, Hat. unfold Try.Dead.
    rewrite Hc1, Hclosed, (running_none _ Hnone), orb_true_r. done.
  - done.
Qed.

(** X11.  A return of [waitSSH] stops every probe.  The deferred
    [checker.Kill()] has closed [dying], so each probe that is still
    running can take its [case <-dying] and return, in two steps at most;
    when all have, the counter of [checker.wg] is the number of tracked
    addresses less the number of probes started, and the deferred
    [checker.wg.Wait()] lets [waitSSH] return what it was returning when
    every tracked address had its probe started. *)
Theorem return_stops_every_probe
    (out : list string) (checkHostScript : string) (i : I)
    (evs : list event) (s : state I) (v : string) (err : option error) :
  run timeout (init timeout out checkHostScript i) evs = Some s →
  at_ s = Exit v err →
  Try.killed (parallelHostChecker.Try (checker s)) = true
  ∧ ∃ evs' s',
      Forall (λ ev, ∃ j, ev = Probe j hostChecker.Dying) evs'
      ∧ length evs' ≤ 2 * running_probes (parallelHostChecker.Try (checker s))
      ∧ run timeout s evs' = Some s'
      ∧ at_ s' = Exit v err
      ∧ (∀ j g, Try.procs (parallelHostChecker.Try (checker s')) !! j = Some g →
                hostChecker.returned g = true)
      ∧ parallelHostChecker.wg (checker s')
          + length (Try.procs (parallelHostChecker.Try (checker s)))
        = size (parallelHostChecker.active (checker s))
      ∧ (length (Try.procs (parallelHostChecker.Try (checker s)))
         = size (parallelHostChecker.active (checker s)) →
         waitSSH_returned s' = Some (v, err)).
Proof.
  intros Hrun Hat.
  pose proof (run_phase _ _ _ _ _ Hrun) as Hsig. rewrite Hat in Hsig.
  pose proof (run_tidy _ _ _ _ _ Hrun) as Htidy.
  split; [done|].
  destruct (stop_probes _ _ hostChecker.Dying _ s (or_intror eq_refl) Hsig Htidy eq_refl)
    as (evs' & s' & Hall & Hlen & Hrun1 & Hat1 & _ & Hact1 & _ & Hlen1 & Hnone).
  pose proof (run_keeps_tidy _ _ _ _ _ Hrun1 Htidy) as (_ & _ & _ & _ & _ & Hwg & _).
  pose proof (running_returned (parallelHostChecker.Try (checker s'))) as Hcount.
  rewrite Hnone, Hlen1 in Hcount. rewrite Hact1 in Hwg.
  assert (parallelHostChecker.wg (checker s')
          + length (Try.procs (parallelHostChecker.Try (checker s)))
          = size (parallelHostChecker.active (checker s))) as Hbooks by lia.
  exists evs', s'. split_and!; try done.
  - congruence.
  - by apply running_none_all.
  - intros Hevery. unfold waitSSH_returned. rewrite Hat1, Hat.
    rewrite bool_decide_eq_true_2; [done | lia].
Qed.

Lemma Start_result tr hc : Try.result (Try.Start tr hc) = Try.result tr.
Proof. unfold Try.Start. by destruct (_ || _). Qed.

Lemma UpdateAddress_patient p a :
  ((∀ j g e, Try.procs (parallelHostChecker.Try p) !! j = Some g →
             hostChecker.at_ g = hostChecker.Returned e → e = None)
   ∧ (Try.result (parallelHostChecker.Try p) = None
      ↔ ∀ j g, Try.procs (parallelHostChecker.Try p) !! j = Some g →
               hostChecker.returned g = false)) →
  let p' := parallelHostChecker.UpdateAddress p a in
  (∀ j g e, Try.procs (parallelHostChecker.Try p') !! j = Some g →
            hostChecker.at_ g = hostChecker.Returned e → e = None)
  ∧ (Try.result (parallelHostChecker.Try p') = None
     ↔ ∀ j g, Try.procs (parallelHostChecker.Try p') !! j = Some g →
              hostChecker.returned g = false).
Proof.
  intros [Hnil Hres] p'. subst p'. unfold parallelHostChecker.UpdateAddress.
  destruct (parallelHostChecker.active p !! a) as [c|]; [done|]. simpl.
  set (hc := parallelHostChecker.checker_for p a _).
  rewrite Start_result.
  destruct (Start_procs (parallelHostChecker.Try p) hc) as [-> | ->]; [done|].
  split.
  - intros j g e [Hg|[_ Hg]]%lookup_app_Some; [by eauto|].
    by destruct (j - _); simplify_eq/=.
  - rewrite Hres. split.
    + intros Hall j g [Hg|[_ Hg]]%lookup_app_Some; [by eauto|].
      by destruct (j - _); simplify_eq/=.
    + intros Hall j g Hg. apply (Hall j). by apply lookup_app_l_Some.
Qed.

Lemma UpdateAddresses_patient p addrs :
  ((∀ j g e, Try.procs (parallelHostChecker.Try p) !! j = Some g →
             hostChecker.at_ g = hostChecker.Returned e → e = None)
   ∧ (Try.result (parallelHostChecker.Try p) = None
      ↔ ∀ j g, Try.procs (parallelHostChecker.Try p) !! j = Some g →
               hostChecker.returned g = false)) →
  let p' := parallelHostChecker.UpdateAddresses p addrs in
  (∀ j g e, Try.procs (parallelHostChecker.Try p') !! j = Some g →
            hostChecker.at_ g = hostChecker.Returned e → e = None)
  ∧ (Try.result (parallelHostChecker.Try p') = None
     ↔ ∀ j g, Try.procs (parallelHostChecker.Try p') !! j = Some g →
              hostChecker.returned g = false).
Proof.
  unfold parallelHostChecker.UpdateAddresses. revert p.
  induction addrs as [|a addrs IH]; intros p Hp; [done|].
  simpl. by apply IH, UpdateAddress_patient.
Qed.

Lemma probe_patient passes p j r p' :
  racing passes p →
  parallelHostChecker.probe p j r = Some p' →
  ((∀ k g e, Try.procs (parallelHostChecker.Try p) !! k = Some g →
             hostChecker.at_ g = hostChecker.Returned e → e = None)
   ∧ (Try.result (parallelHostChecker.Try p) = None
      ↔ ∀ k g, Try.procs (parallelHostChecker.Try p) !! k = Some g →
               hostChecker.returned g = false)) →
  (∀ k g e, Try.procs (parallelHostChecker.Try p') !! k = Some g →
            hostChecker.at_ g = hostChecker.Returned e → e = None)
  ∧ (Try.result (parallelHostChecker.Try p') = None
     ↔ ∀ k g, Try.procs (parallelHostChecker.Try p') !! k = Some g →
              hostChecker.returned g = false).
Proof.
  intros (Hc & Hk & _ & Hheap & _) Hp [Hnil Hres].
  destruct (probe_inv _ _ _ _ Hp) as (g & g' & Hg & Hloop & _ & _ & _ & HTry).
  pose proof (loop_not_returned _ _ _ _ _ Hloop) as Hrun.
  assert (Try.Dying (parallelHostChecker.Try p) = false) as Hdying by done.
  rewrite Hdying, bool_decide_eq_false_2 in Hloop.
  2:{ intros Hclosed. by apply Hheap in Hclosed. }
  assert (∀ e, hostChecker.at_ g' = hostChecker.Returned e → e = None) as Hnil'.
  { intros e He.
    by destruct (loop_return _ _ _ _ _ _ Hloop He) as [[_ ->]|[(_&?&_)|(_&?&_)]]. }
  rewrite HTry. simpl. split.
  - intros k gk e. rewrite list_lookup_insert_Some.
    intros [(-> & -> & _)|[_ Hgk]]; [by apply Hnil' | by eauto].
  - destruct (hostChecker.at_ g') as [| |e] eqn:Hat'.
    1-2: rewrite Hres; split; intros Hall k gk.
    1,3: rewrite list_lookup_insert_Some;
         intros [(-> & -> & _)|[_ Hgk]];
         [unfold hostChecker.returned; by rewrite Hat' | by eauto].
    1-2: intros Hgk; destruct (decide (k = j)) as [->|Hne];
         [by simplify_eq | apply (Hall k); by rewrite list_lookup_insert_ne].
    rewrite (Hnil' e eq_refl). unfold Try.report. rewrite (Dead_open _ Hc Hk).
    split.
    + case_bool_decide as Hsome; simpl; [|done].
      intros Hnone. rewrite Hnone in Hsome. by destruct Hsome.
    + intros Hall. exfalso.
      specialize (Hall j g'). rewrite list_lookup_insert_eq in Hall
        by (by eapply lookup_lt_Some).
      specialize (Hall eq_refl). unfold hostChecker.returned in Hall.
      by rewrite Hat' in Hall.
Qed.

(** X17.  While [waitSSH] is in its [select], no probe gives up.  No
    [closed] channel is closed and the Try is not dying, so a probe that has
    returned has returned nil, after an attempt of its own succeeded; every
    other probe is still trying; and the Try has a result exactly when some
    probe has returned. *)
Theorem probes_never_give_up
    (out : list string) (checkHostScript : string) (i : I)
    (evs : list event) (s : state I) :
  run timeout (init timeout out checkHostScript i) evs = Some s →
  at_ s = Select →
  (∀ c b, parallelHostChecker.heap (checker s) !! c = Some b → b = false)
  ∧ Try.Dying (parallelHostChecker.Try (checker s)) = false
  ∧ (∀ j g e, Try.procs (parallelHostChecker.Try (checker s)) !! j = Some g →
              hostChecker.at_ g = hostChecker.Returned e → e = None)
  ∧ (Try.result (parallelHostChecker.Try (checker s)) = None
     ↔ ∀ j g, Try.procs (parallelHostChecker.Try (checker s)) !! j = Some g →
              hostChecker.returned g = false).
Proof.
  intros Hrun Hat.
  apply (run_invariant
    (λ s, good (λ _, true) s
          ∧ (at_ s = Select →
             (∀ j g e, Try.procs (parallelHostChecker.Try (checker s)) !! j = Some g →
                       hostChecker.at_ g = hostChecker.Returned e → e = None)
             ∧ (Try.result (parallelHostChecker.Try (checker s)) = None
                ↔ ∀ j g, Try.procs (parallelHostChecker.Try (checker s)) !! j = Some g →
                         hostChecker.returned g = false))) _ _ _) in Hrun.
  - destruct Hrun as [Hgood Hpatient]. unfold good in Hgood. rewrite Hat in Hgood.
    destruct Hgood as (_ & Hk & _ & Hheap & _).
    destruct (Hpatient Hat) as [Hnil Hres]. by split_and!.
  - split; [apply good_init|]. intros _. simpl. split; [done|]. split; [|done].
    by intros _ j g ?.
  - intros s1 ev s2 [Hgood IH] Hstep. split.
    { eapply good_step; [done | apply allowed_any | done]. }
    destruct Hstep as [e i1 Hat1 Hr|i1 ? e i2 Hat1 Hr Ha|i1 addrs i2 Hat1 Hr Ha
      |p e Hat1 Hclose|msg Hat1 Hclose|Hat1 ?|Hat1|r e Hat1 ? ?|hc Hat1 ? Hres
      |Hat1 ? Hres|j r p Hp]; simpl; try done.
    + intros _. by apply UpdateAddresses_patient, IH.
    + intros Hat1. unfold good in Hgood. rewrite Hat1 in Hgood.
      eapply probe_patient; [done..|]. by apply IH.
Qed.

End WaitSSH_more.

(** ** waitSSH: the winner and the return *)

Section WaitSSH_return.
Context {I : Type} `{addresser I} `{DurationString}.
Variable timeout : SSHTimeoutOpts.
Import waitSSH.







Lemma step_keeps_books (s : state I) ev s' :
  Step timeout s ev s' → ev ≠ PollAddresses →
  parallelHostChecker.active (checker s') = parallelHostChecker.active (checker s)
  ∧ length (Try.procs (parallelHostChecker.Try (checker s')))
    = length (Try.procs (parallelHostChecker.Try (checker s))).
Proof.
  intros Hstep Hev.
  destruct Hstep as [e i1 Hat1 Hr|i1 ? e i2 Hat1 Hr Ha|i1 addrs i2 Hat1 Hr Ha
    |p e Hat1 Hclose|msg Hat1 Hclose|Hat1 ?|Hat1|r e Hat1 ? ?|hc Hat1 ? Hres
    |Hat1 ? Hres|j r p Hp]; simpl; try done.
  - by destruct (Close_books _ _ _ Hclose) as (_ & -> & -> & _).
  - destruct (probe_books _ _ _ _ Hp)
      as (g & g' & _ & _ & -> & _ & _ & _ & _ & -> & _).
    by rewrite length_insert.
Qed.

Lemma run_keeps_books (s : state I) evs s' :
  run timeout s evs = Some s' → PollAddresses ∉ evs →
  parallelHostChecker.active (checker s') = parallelHostChecker.active (checker s)
  ∧ length (Try.procs (parallelHostChecker.Try (checker s')))
    = length (Try.procs (parallelHostChecker.Try (checker s))).
Proof.
  revert s. induction evs as [|ev evs IH]; intros s Hrun Hev.
  { by simplify_eq/=. }
  simpl in Hrun. destruct (step timeout s ev) as [s1|] eqn:Hstep; [|done].
  apply step_Step in Hstep.
  destruct (step_keeps_books _ _ _ Hstep) as [Hact Hlen]; [set_solver|].
  destruct (IH _ Hrun) as [Hact' Hlen']; [set_solver|].
  split; congruence.
Qed.

Lemma exit_stays (s : state I) evs s' v err :
  at_ s = Exit v err → run timeout s evs = Some s' →
  at_ s' = Exit v err ∧ PollAddresses ∉ evs.
Proof.
  revert s. induction evs as [|ev evs IH]; intros s Hat Hrun.
  { simplify_eq/=. split; [done | set_solver]. }
  simpl in Hrun. destruct (step timeout s ev) as [s1|] eqn:Hstep; [|done].
  assert (at_ s1 = Exit v err ∧ ev ≠ PollAddresses) as [Hat1 Hev].
  { unfold step in Hstep. rewrite Hat in Hstep.
    destruct ev as [| | | | |j r]; try done.
    apply bind_Some in Hstep as (p & _ & [= <-]). done. }
  destruct (IH _ Hat1 Hrun) as [Hat' Hevs]. split; [done | set_solver].
Qed.

(** When an address was taken in without its probe being started, the
    counter never comes back to zero and [checker.wg.Wait()] never
    returns. *)
Lemma exit_never_returns out checkHostScript (i : I) evs s v err :
  run timeout (init timeout out checkHostScript i) evs = Some s →
  at_ s = Exit v err →
  length (Try.procs (parallelHostChecker.Try (checker s)))
  < size (parallelHostChecker.active (checker s)) →
  ∀ evs' s', run timeout s evs' = Some s' →
             at_ s' = Exit v err
             ∧ 0 < parallelHostChecker.wg (checker s')
             ∧ waitSSH_returned s' = None.
Proof.
  intros Hrun Hat Hless evs' s' Hrun'.
  destruct (exit_stays _ _ _ _ _ Hat Hrun') as [Hat' Hevs].
  destruct (run_keeps_books _ _ _ Hrun' Hevs) as [Hact Hlen].
  pose proof (run_keeps_tidy _ _ _ _ _ _ Hrun' (run_tidy _ _ _ _ _ _ Hrun))
    as (_ & _ & _ & _ & _ & Hwg & _).
  pose proof (running_returned (parallelHostChecker.Try (checker s'))) as Hcount.
  rewrite Hact in Hwg. rewrite Hlen in Hcount.
  assert (0 < parallelHostChecker.wg (checker s')) as Hpos by lia.
  split_and!; [done..|].
  unfold waitSSH_returned. rewrite Hat'. rewrite bool_decide_eq_false_2; [done|lia].
Qed.




End WaitSSH_return.

Lemma waitSSH_never_panics_witness :
  waitSSH.run (H0 := seconds) timeout30 start_C events_E = Some waiting_E
  ∧ (∀ msg, waitSSH.at_ waiting_E ≠ waitSSH.Panicked msg).
Proof.
  assert (waitSSH.run (H0 := seconds) timeout30 start_C events_E = Some waiting_E)
    as Hrun by (vm_compute; reflexivity).
  split; [exact Hrun|].
  exact (proj1 (waitSSH_never_panics (H0 := seconds) timeout30 [] "exit 1" _
                  events_E waiting_E Hrun)).
Defined.

Lemma waitSSH_returns_verified_address_witness :
  waitSSH.run (H0 := seconds) timeout30 start_C events_F = Some end_F
  ∧ waitSSH.at_ end_F = waitSSH.Exit "10.0.0.5" None
  ∧ ∃ a, "10.0.0.5" = Value a
         ∧ a ∈ waitSSH.offered (H0 := seconds) timeout30 start_C events_F
         ∧ a ∈ verified (H0 := seconds) timeout30 start_C events_F.
Proof.
  assert (waitSSH.run (H0 := seconds) timeout30 start_C events_F = Some end_F)
    as Hrun by (vm_compute; reflexivity).
  split_and!; [exact Hrun | reflexivity |].
  exact (waitSSH_returns_verified_address (H0 := seconds) timeout30 [] "exit 1" _
           events_F end_F "10.0.0.5" Hrun eq_refl).
Defined.

Lemma waitSSH_error_kinds_witness :
  waitSSH.run (H0 := seconds) timeout30 start_B (events_B ++ [waitSSH.Drained])
  = Some end_B
  ∧ waitSSH.at_ end_B
    = waitSSH.Exit "" (Some (Err "waited for 30s without getting any addresses"))
  ∧ ∃ prefix rest,
      prefix ∈ waitSSH_error_prefixes (H := seconds) (Timeout timeout30)
      ∧ Err "waited for 30s without getting any addresses" = Err (prefix +:+ rest).
Proof.
  assert (waitSSH.run (H0 := seconds) timeout30 start_B (events_B ++ [waitSSH.Drained])
          = Some end_B) as Hrun by (vm_compute; reflexivity).
  split_and!; [exact Hrun | reflexivity |].
  exact (proj2 (waitSSH_error_kinds (H0 := seconds) timeout30 [] "exit 1" _
                  (events_B ++ [waitSSH.Drained]) end_B "" _ Hrun eq_refl)).
Defined.

Lemma waitSSH_writes_one_line_per_address_witness :
  waitSSH.run (H0 := seconds) timeout30 start_C events_C = Some waiting_C
  ∧ parallelHostChecker.stderr (waitSSH.checker waiting_C)
    = ["Waiting for address" +:+ nl;
       "Attempting to connect to 54.1.2.3:22" +:+ nl;
       "Attempting to connect to 10.0.0.5:22" +:+ nl].
Proof.
  assert (waitSSH.run (H0 := seconds) timeout30 start_C events_C = Some waiting_C)
    as Hrun by (vm_compute; reflexivity).
  split; [exact Hrun|].
  rewrite (proj1 (waitSSH_writes_one_line_per_address (H0 := seconds) timeout30 []
                    "exit 1" _ events_C waiting_C Hrun)).
  vm_compute. reflexivity.
Defined.

Lemma wg_counts_running_probes_witness :
  waitSSH.run (H0 := seconds) timeout30 start_C events_E = Some waiting_E
  ∧ running_probes (parallelHostChecker.Try (waitSSH.checker waiting_E))
    ≤ parallelHostChecker.wg (waitSSH.checker waiting_E).
Proof.
  assert (waitSSH.run (H0 := seconds) timeout30 start_C events_E = Some waiting_E)
    as Hrun by (vm_compute; reflexivity).
  split; [exact Hrun|].
  exact (proj1 (proj2 (wg_counts_running_probes (H0 := seconds) timeout30 [] "exit 1" _
                         events_E waiting_E Hrun))).
Defined.

Lemma one_probe_per_address_witness :
  waitSSH.run (H0 := seconds) timeout30 start_C events_E = Some waiting_E
  ∧ NoDup (probe_addr <$>
             Try.procs (parallelHostChecker.Try (waitSSH.checker waiting_E))).
Proof.
  assert (waitSSH.run (H0 := seconds) timeout30 start_C events_E = Some waiting_E)
    as Hrun by (vm_compute; reflexivity).
  split; [exact Hrun|].
  exact (proj1 (one_probe_per_address (H0 := seconds) timeout30 [] "exit 1" _
                  events_E waiting_E Hrun)).
Defined.

Lemma timeout_wait_ends_witness :
  waitSSH.run (H0 := seconds) timeout30 start_C events_E = Some waiting_E
  ∧ waitSSH.at_ waiting_E = waitSSH.InWait
  ∧ ∀ j g,
      Try.procs (parallelHostChecker.Try (waitSSH.checker waiting_E)) !! j = Some g →
      parallelHostChecker.heap (waitSSH.checker waiting_E)
        !! hostChecker.closed (hostChecker.self g) = Some true.
Proof.
  assert (waitSSH.run (H0 := seconds) timeout30 start_C events_E = Some waiting_E)
    as Hrun by (vm_compute; reflexivity).
  split_and!; [exact Hrun | reflexivity |].
  exact (proj1 (timeout_wait_ends (H0 := seconds) timeout30 [] "exit 1" _
                  events_E waiting_E Hrun eq_refl)).
Defined.

Lemma return_stops_every_probe_witness :
  waitSSH.run (H0 := seconds) timeout30 start_C events_F = Some end_F
  ∧ waitSSH.at_ end_F = waitSSH.Exit "10.0.0.5" None
  ∧ Try.killed (parallelHostChecker.Try (waitSSH.checker end_F)) = true.
Proof.
  assert (waitSSH.run (H0 := seconds) timeout30 start_C events_F = Some end_F)
    as Hrun by (vm_compute; reflexivity).
  split_and!; [exact Hrun | reflexivity |].
  exact (proj1 (return_stops_every_probe (H0 := seconds) timeout30 [] "exit 1" _
                  events_F end_F "10.0.0.5" None Hrun eq_refl)).
Defined.

(** ** Bootstrap: what it returns and what it leaves behind *)

Section Bootstrap_more.
Context {E T M C : Type} `{Environ E T M}.
Variable DefaultClient : option C.

(** The three ways [Bootstrap] can go. *)
Lemma Bootstrap_cases (w : effects T M) (env : E) (args : environs.BootstrapParams T) :
  let series := PreferredSeries env in
  let matched := Match (environs.AvailableTools args) series in
  let mc := NewBootstrapMachineConfig (environs.Constraints args) series in
  let params :=
    {| environs.sip_Constraints := environs.Constraints args;
       environs.sip_Tools := matched.1;
       environs.sip_MachineConfig :=
         {| environs.rest := mc.1;
            environs.EnableOSRefreshUpdate := ConfigEnableOSRefreshUpdate env;
            environs.EnableOSUpgrade := ConfigEnableOSUpgrade env |};
       environs.sip_Placement := environs.Placement args |} in
  let launching := written w ++ ["Launching instance" +:+ nl] in
  (* nothing was started *)
  (∃ e, Bootstrap DefaultClient w env args = (Ok ("", "", None, Some e), w)
        ∧ (matched.2 = Some e
           ∨ (matched.2 = None ∧ DefaultClient = None
              ∧ e = Err "no SSH client available")
           ∨ (matched.2 = None ∧ is_Some DefaultClient ∧ mc.2 = Some e)))
  (* the start failed *)
  ∨ (∃ e, matched.2 = None ∧ is_Some DefaultClient ∧ mc.2 = None
          ∧ (StartInstance env params).2 = Some e
          ∧ Bootstrap DefaultClient w env args
            = (Ok ("", "", None,
                   Some (Err ("cannot start bootstrap instance: " +:+ Error e))),
               {| written := launching; launched := launched w ++ [params] |}))
  (* the instance runs *)
  ∨ (∃ client inst hw,
       matched.2 = None ∧ DefaultClient = Some client ∧ mc.2 = None
       ∧ StartInstance env params = (inst, hw, None)
       ∧ Bootstrap DefaultClient w env args
         = (match hw with
            | Some {| Arch := Some arch |} =>
                Ok (arch, series,
                    Some {| fin_env := env; fin_client := client;
                            fin_inst := inst; fin_hw := hw |}, None)
            | _ => Panic "invalid memory address or nil pointer dereference"
            end,
            {| written := launching ++ [" - " +:+ inst +:+ nl];
               launched := launched w ++ [params] |})).
Proof.
  intros series matched mc params launching.
  unfold Bootstrap. fold series. fold matched.
  destruct matched as [tools [e|]] eqn:Hm; simpl.
  { left. exists e. split; [done | by left]. }
  destruct DefaultClient as [client|] eqn:Hc.
  2:{ left. eexists. split; [done|]. right. left. done. }
  fold mc. unfold params. clear params.
  destruct mc as [m [e|]] eqn:Hmc; simpl.
  { left. exists e. split; [done|]. right. right. split_and!; [done|by eexists|done]. }
  destruct (StartInstance env _) as [[inst hw] [e|]] eqn:Hstart; simpl.
  { right. left. exists e. split_and!; [done|by eexists|done|done|done]. }
  right. right. exists client, inst, hw. split_and!; try done.
  by destruct hw as [[[arch|]]|].
Qed.

(** X12.  [Bootstrap] starts at most one instance, and it starts it only
    after the tools have matched, an SSH client was found and the machine
    config was made; before that nothing is written and nothing started.
    The instance is asked for with the constraints and placement of the
    arguments, the tools that matched the preferred series and the two OS
    update settings of the environment's config.  "Launching instance" is
    written just before the start, and a second line only when the start
    succeeds. *)
Theorem Bootstrap_starts_at_most_one_instance
    (w : effects T M) (env : E) (args : environs.BootstrapParams T) :
  let series := PreferredSeries env in
  let matched := Match (environs.AvailableTools args) series in
  let mc := NewBootstrapMachineConfig (environs.Constraints args) series in
  let w' := (Bootstrap DefaultClient w env args).2 in
  (matched.2 = None ∧ is_Some DefaultClient ∧ mc.2 = None
   ∧ ∃ params more,
       launched w' = launched w ++ [params]
       ∧ written w' = written w ++ ["Launching instance" +:+ nl] ++ more
       ∧ (more = [] ↔ is_Some (StartInstance env params).2)
       ∧ environs.sip_Constraints params = environs.Constraints args
       ∧ environs.sip_Placement params = environs.Placement args
       ∧ environs.sip_Tools params = matched.1
       ∧ environs.rest (environs.sip_MachineConfig params) = mc.1
       ∧ environs.EnableOSRefreshUpdate (environs.sip_MachineConfig params)
         = ConfigEnableOSRefreshUpdate env
       ∧ environs.EnableOSUpgrade (environs.sip_MachineConfig params)
         = ConfigEnableOSUpgrade env)
  ∨ (w' = w ∧ (is_Some matched.2 ∨ DefaultClient = None ∨ is_Some mc.2)).
Proof.
  intros series matched mc w'. subst series matched mc w'.
  destruct (Bootstrap_cases w env args)
    as [(e & -> & Hwhy)
       |[(e & Hm & Hc & Hmc & Hstart & ->)
        |(client & inst & hw & Hm & Hc & Hmc & Hstart & ->)]];
    simpl.
  - right. split; [done|].
    destruct Hwhy as [Hm|[(_ & Hc & _)|(_ & _ & Hmc)]].
    + left. by rewrite Hm.
    + right. by left.
    + right. right. by rewrite Hmc.
  - left. split_and!; [done..|].
    eexists _, []. split_and!; try done.
    all: rewrite ?Hstart; try done.
  - left. split_and!; [done | by rewrite Hc | done |].
    eexists _, [_]. split_and!; try done.
    + by rewrite <- app_assoc.
    + rewrite Hstart. simpl. split; [done|]. by intros [? ?].
Qed.

(** X13.  When [Bootstrap] returns an error, the architecture and series
    it returns are empty and the finalizer is nil, and the error is that of
    the tools match, "no SSH client available", that of
    [NewBootstrapMachineConfig], or "cannot start bootstrap instance: "
    followed by the error of [StartInstance].  When it returns no error, the
    series is the preferred series of the environment's config, the
    architecture is the one in the hardware characteristics of the instance
    started, the finalizer holds that instance, these characteristics and
    the default client, and the id of the instance was written after
    "Launching instance". *)
Theorem Bootstrap_returns
    (w w' : effects T M) (env : E) (args : environs.BootstrapParams T)
    (arch series : string) (finalize : option (BootstrapFinalizer E C))
    (err : option error) :
  Bootstrap DefaultClient w env args = (Ok (arch, series, finalize, err), w') →
  match err with
  | Some e =>
      arch = "" ∧ series = "" ∧ finalize = None
      ∧ (((Match (environs.AvailableTools args) (PreferredSeries env)).2 = Some e
          ∨ e = Err "no SSH client available"
          ∨ (NewBootstrapMachineConfig (environs.Constraints args)
               (PreferredSeries env)).2 = Some e)
         ∧ w' = w
         ∨ ∃ params e',
             (StartInstance env params).2 = Some e'
             ∧ e = Err ("cannot start bootstrap instance: " +:+ Error e')
             ∧ launched w' = launched w ++ [params]
             ∧ written w' = written w ++ ["Launching instance" +:+ nl])
  | None =>
      series = PreferredSeries env
      ∧ ∃ client params inst hw,
          DefaultClient = Some client
          ∧ StartInstance env params = (inst, Some hw, None)
          ∧ Arch hw = Some arch
          ∧ finalize = Some {| fin_env := env; fin_client := client;
                               fin_inst := inst; fin_hw := Some hw |}
          ∧ launched w' = launched w ++ [params]
          ∧ written w'
            = written w ++ ["Launching instance" +:+ nl; " - " +:+ inst +:+ nl]
  end.
Proof.
  intros Hret.
  destruct (Bootstrap_cases w env args)
    as [(e & Heq & Hwhy)
       |[(e & Hm & Hc & Hmc & Hstart & Heq)
        |(client & inst & hw & Hm & Hc & Hmc & Hstart & Heq)]];
    rewrite Heq in Hret.
  - simplify_eq. split_and!; [done..|]. left. split; [|done]. naive_solver.
  - simplify_eq. split_and!; [done..|]. right. eexists _, e. by split_and!.
  - destruct hw as [[[arch0|]]|]; simplify_eq. split; [done|].
    eexists client, _, inst, _. split_and!; try done. by rewrite <- app_assoc.
Qed.

(** X14.  [Bootstrap] dereferences the architecture of the hardware
    characteristics without looking at it: it panics exactly when the tools
    matched, a client was found, the machine config was made and
    [StartInstance] returned no error together with nil characteristics or
    characteristics without an architecture.  By then the instance has been
    started and its id written, and no finalizer is returned for it. *)
Theorem Bootstrap_panics_on_unknown_architecture
    (w : effects T M) (env : E) (args : environs.BootstrapParams T) :
  (∃ msg, (Bootstrap DefaultClient w env args).1 = Panic msg)
  ↔ ∃ params inst hw,
      (Match (environs.AvailableTools args) (PreferredSeries env)).2 = None
      ∧ is_Some DefaultClient
      ∧ (NewBootstrapMachineConfig (environs.Constraints args)
           (PreferredSeries env)).2 = None
      ∧ StartInstance env params = (inst, hw, None)
      ∧ (hw = None ∨ hw = Some {| Arch := None |})
      ∧ launched (Bootstrap DefaultClient w env args).2 = launched w ++ [params]
      ∧ written (Bootstrap DefaultClient w env args).2
        = written w ++ ["Launching instance" +:+ nl; " - " +:+ inst +:+ nl].
Proof.
  destruct (Bootstrap_cases w env args)
    as [(e & Heq & Hwhy)
       |[(e & Hm & Hc & Hmc & Hstart & Heq)
        |(client & inst & hw & Hm & Hc & Hmc & Hstart & Heq)]];
    rewrite Heq; simpl.
  - split; [by intros [? ?]|].
    intros (params & inst & hw & Hm & Hc & Hmc & _ & _ & Hl & _). exfalso.
    apply (f_equal length) in Hl. rewrite length_app in Hl. simpl in Hl. lia.
  - split; [by intros [? ?]|].
    intros (params & inst & hw & _ & _ & _ & _ & _ & _ & Hw). exfalso.
    apply (f_equal length) in Hw. rewrite !length_app in Hw. simpl in Hw. lia.
  - split.
    + intros [msg Hpanic]. eexists _, inst, hw.
      split_and!; [done | by rewrite Hc | done | done | | done |by rewrite <- app_assoc].
      destruct hw as [[[arch|]]|]; [done | by right | by left].
    + intros (params & inst' & hw' & _ & _ & _ & Hstart' & Hhw & Hl & _).
      apply app_inj_tail in Hl as [_ <-]. rewrite Hstart in Hstart'. simplify_eq.
      destruct Hhw as [-> | ->]; eauto.
Qed.

End Bootstrap_more.

(** ** ConfigureMachine and FinishBootstrap *)

Section FinishBootstrap_properties.
Context {M C G U I : Type} `{Configuring M C G U} `{addresser I} `{DurationString}.

Lemma ConfigureMachine_cases (ctx : context C G) (client : C) (host : string)
    (machineConfig : environs.MachineConfig M) :
  let first :=
    {| AptUpdate := environs.EnableOSRefreshUpdate machineConfig;
       AptUpgrade := environs.EnableOSUpgrade machineConfig;
       body := cloudinit_New |} in
  let made := NewUserdataConfig machineConfig first in
  let filled := ConfigureJuju made.1.1 made.1.2 in
  let configScript := ConfigureScript filled.1 in
  let script :=
    DumpFileOnErrorScript (CloudInitOutputLog (environs.rest machineConfig))
    +:+ configScript.1 in
  let params :=
    {| Host := "ubuntu@" +:+ host; cp_Client := client; cp_Config := filled.1 |} in
  (∃ e, ConfigureMachine ctx client host machineConfig = (Some e, ctx)
        ∧ (made.2 = Some e
           ∨ (made.2 = None ∧ filled.2 = Some e)
           ∨ (made.2 = None ∧ filled.2 = None ∧ configScript.2 = Some e)))
  ∨ (made.2 = None ∧ filled.2 = None ∧ configScript.2 = None
     ∧ ConfigureMachine ctx client host machineConfig
       = ((RunConfigureScript script params).2,
          {| ctx_stderr := ctx_stderr ctx ++ (RunConfigureScript script params).1;
             ctx_interrupts := ctx_interrupts ctx;
             ctx_runs := ctx_runs ctx ++ [(script, params)] |})).
Proof.
  intros first made filled configScript script params.
  subst params script configScript filled made first. unfold ConfigureMachine.
  destruct (NewUserdataConfig _ _) as [[udata cfg1] [e|]]; simpl.
  { left. exists e. split; [done | by left]. }
  destruct (ConfigureJuju _ _) as [cfg2 [e|]]; simpl.
  { left. exists e. split; [done|]. right. by left. }
  destruct (ConfigureScript _) as [text [e|]]; simpl.
  { left. exists e. split; [done|]. right. by right. }
  right. split_and!; [done..|]. by destruct (RunConfigureScript _ _).
Qed.

(** X15.  [ConfigureMachine] makes a cloud config with the two OS update
    settings of the machine config and hands it to [NewUserdataConfig], then
    to [ConfigureJuju], then to [ConfigureScript].  The error of the first
    of the three to fail is what [ConfigureMachine] returns, and then no
    script is run and nothing is written.  Only when all three return nil is
    the configuration script run, once: it is [DumpFileOnErrorScript] for
    the machine's cloud-init output log followed by the script made, it is
    run against "ubuntu@" followed by the host, with the client given and
    the config as [ConfigureJuju] left it, and [ConfigureMachine] returns
    the error of that run.  The interrupt registrations stay as they
    are. *)
Theorem ConfigureMachine_runs_script_once
    (ctx : context C G) (client : C) (host : string)
    (machineConfig : environs.MachineConfig M) :
  let first :=
    {| AptUpdate := environs.EnableOSRefreshUpdate machineConfig;
       AptUpgrade := environs.EnableOSUpgrade machineConfig;
       body := cloudinit_New |} in
  let made := NewUserdataConfig machineConfig first in
  let filled := ConfigureJuju made.1.1 made.1.2 in
  let configScript := ConfigureScript filled.1 in
  let script :=
    DumpFileOnErrorScript (CloudInitOutputLog (environs.rest machineConfig))
    +:+ configScript.1 in
  let params :=
    {| Host := "ubuntu@" +:+ host; cp_Client := client; cp_Config := filled.1 |} in
  let ran := RunConfigureScript script params in
  let '(err, ctx') := ConfigureMachine ctx client host machineConfig in
  (∀ e, made.2 = Some e → err = Some e ∧ ctx' = ctx)
  ∧ (∀ e, made.2 = None → filled.2 = Some e → err = Some e ∧ ctx' = ctx)
  ∧ (∀ e, made.2 = None → filled.2 = None → configScript.2 = Some e →
          err = Some e ∧ ctx' = ctx)
  ∧ (made.2 = None → filled.2 = None → configScript.2 = None →
     err = ran.2
     ∧ ctx_runs ctx' = ctx_runs ctx ++ [(script, params)]
     ∧ ctx_stderr ctx' = ctx_stderr ctx ++ ran.1)
  ∧ (ctx_runs ctx' ≠ ctx_runs ctx
     ↔ made.2 = None ∧ filled.2 = None ∧ configScript.2 = None)
  ∧ length (ctx_runs ctx') ≤ S (length (ctx_runs ctx))
  ∧ ctx_interrupts ctx' = ctx_interrupts ctx.
Proof.
  intros first made filled configScript script params ran.
  subst ran params script configScript filled made first.
  destruct (ConfigureMachine_cases ctx client host machineConfig)
    as [(e & -> & Hwhy)|(Hmade & Hfilled & Hscript & ->)].
  - split_and!; try done.
    + intros e' He'. split; [|done].
      destruct Hwhy as [?|[[? ?]|(? & ? & ?)]]; congruence.
    + intros e' Hm He'. split; [|done].
      destruct Hwhy as [?|[[? ?]|(? & ? & ?)]]; congruence.
    + intros e' Hm Hf He'. split; [|done].
      destruct Hwhy as [?|[[? ?]|(? & ? & ?)]]; congruence.
    + intros Hm Hf Hs. destruct Hwhy as [?|[[? ?]|(? & ? & ?)]]; congruence.
    + split; [done|]. intros (Hm & Hf & Hs).
      destruct Hwhy as [?|[[? ?]|(? & ? & ?)]]; congruence.
    + lia.
  - simpl. split_and!; try congruence; try done.
    + split; [done|]. intros _ Heq. apply (f_equal length) in Heq.
      rewrite length_app in Heq. simpl in Heq. lia.
    + rewrite length_app. simpl. lia.
Qed.


End FinishBootstrap_properties.

Lemma Bootstrap_returns_witness :
  Bootstrap (Some tt) nothing_done (env_trusty "trusty") args_trusty
  = (Ok ("amd64", "trusty",
         Some {| fin_env := env_trusty "trusty"; fin_client := tt;
                 fin_inst := "i-1234"; fin_hw := Some {| Arch := Some "amd64" |} |},
         None), done_trusty)
  ∧ "trusty" = PreferredSeries (env_trusty "trusty").
Proof.
  assert (Bootstrap (Some tt) nothing_done (env_trusty "trusty") args_trusty
          = (Ok ("amd64", "trusty",
                 Some {| fin_env := env_trusty "trusty"; fin_client := tt;
                         fin_inst := "i-1234";
                         fin_hw := Some {| Arch := Some "amd64" |} |},
                 None), done_trusty)) as Hret by (vm_compute; reflexivity).
  split; [exact Hret|].
  exact (proj1 (Bootstrap_returns (Some tt) nothing_done done_trusty
                  (env_trusty "trusty") args_trusty _ _ _ None Hret)).
Defined.

Lemma ConfigureMachine_runs_script_once_witness :
  ConfigureMachine ctx_example tt "10.0.0.5" mcfg_example
  = (None,
     {| ctx_stderr := ["Installing on ubuntu@10.0.0.5" +:+ nl];
        ctx_interrupts := 0;
        ctx_runs :=
          [("trap 'cat /var/log/cloud-init-output.log' ERR" +:+ nl
              +:+ "apt-get install juju" +:+ nl,
            {| Host := "ubuntu@10.0.0.5"; cp_Client := tt;
               cp_Config := {| AptUpdate := true; AptUpgrade := false;
                               body := tt |} |})] |}).
Proof.
  pose proof (ConfigureMachine_runs_script_once ctx_example tt "10.0.0.5" mcfg_example)
    as Hcfg.
  destruct (ConfigureMachine ctx_example tt "10.0.0.5" mcfg_example)
    as [err [written interrupts runs]].
  destruct Hcfg as (_ & _ & _ & Hran & _ & _ & Hint).
  destruct (Hran eq_refl eq_refl eq_refl) as (-> & Hruns & Hwritten).
  simpl in *. by subst.
Defined.


Lemma probes_never_give_up_witness :
  waitSSH.run (H0 := seconds) timeout30
    (waitSSH.init timeout30 [] "exit 1"
       (no_calls [(None, ([addr_private], None));
                  (Some (Err "instance not found"), ([], None))]))
    [waitSSH.PollAddresses] = Some polling_D
  ∧ waitSSH.at_ polling_D = waitSSH.Select
  ∧ Try.Dying (parallelHostChecker.Try (waitSSH.checker polling_D)) = false.
Proof.
  assert (waitSSH.run (H0 := seconds) timeout30
            (waitSSH.init timeout30 [] "exit 1"
               (no_calls [(None, ([addr_private], None));
                          (Some (Err "instance not found"), ([], None))]))
            [waitSSH.PollAddresses] = Some polling_D)
    as Hrun by (vm_compute; reflexivity).
  split_and!; [exact Hrun | reflexivity |].
  exact (proj1 (proj2 (probes_never_give_up (H0 := seconds) timeout30 [] "exit 1" _
                         [waitSSH.PollAddresses] polling_D Hrun eq_refl))).
Defined.


(** The claim of C3 fails where an address comes in after the first
    success.  In scenario H only the private address passes and its attempt
    succeeds; [waitSSH] comes to return its value, with the counter of
    [checker.wg] at one for the public address, whose probe was never
    started: nothing can happen any more and [waitSSH] does not return. *)
Lemma success_without_return :
  waitSSH.run (H0 := seconds) timeout30 start_H events_H = Some stuck_H
  ∧ waitSSH.respects (H0 := seconds) timeout30 passes_private start_H events_H = true
  ∧ waitSSH.at_ stuck_H = waitSSH.Exit "10.0.0.5" None
  ∧ parallelHostChecker.wg (waitSSH.checker stuck_H) = 1
  ∧ waitSSH_returned stuck_H = None
  ∧ ∀ evs' s',
      waitSSH.run (H0 := seconds) timeout30 stuck_H evs' = Some s' →
      evs' = [] ∧ waitSSH_returned s' = None.
Proof.
  assert (waitSSH.run (H0 := seconds) timeout30 start_H events_H = Some stuck_H)
    as Hrun by (vm_compute; reflexivity).
  split_and!; [exact Hrun | by vm_compute | reflexivity | reflexivity | reflexivity |].
  intros evs' s' Hrun'.
  assert (length (Try.procs (parallelHostChecker.Try (waitSSH.checker stuck_H)))
          < size (parallelHostChecker.active (waitSSH.checker stuck_H))) as Hless.
  { vm_compute. lia. }
  destruct (exit_never_returns (H0 := seconds) timeout30 [] "exit 1" _ events_H
              stuck_H "10.0.0.5" None Hrun eq_refl Hless evs' s' Hrun')
    as (_ & _ & Hret).
  split; [|exact Hret].
  destruct evs' as [|ev evs']; [done|]. exfalso.
  cbn [waitSSH.run] in Hrun'.
  assert (waitSSH.step (H0 := seconds) timeout30 stuck_H ev = None) as Hstep.
  { destruct ev as [| | | | |[|j] r]; try reflexivity; by destruct r. }
  by rewrite Hstep in Hrun'.
Qed.
